(** * Paladin project: locomotion controller and river simulation

    A shallow embedding of the per-frame code of [src/main.js] (and of the
    older revision kept in [unnamed/part_000]): the character controller in
    [animate], the wave field [getWaveHeight] and the water and foam passes of
    [updateWater], with [createFoamSystem]; then the rest of the program
    that has state of its own: the mist, the layout of the river, the sounds,
    the keyboard and touch handlers, the animation clips, the lighting
    presets, the clouds and the stars.

    JavaScript numbers are modelled by exact rationals ([Q]): comparisons,
    sums and products are the exact ones.  Rounding is written out where a
    property depends on it: what [createFoamSystem], [createMistSystem], the
    mist pass and [createStars] store into their [Float32Array] buffers goes
    through [fround], the rounding to the nearest single-precision number,
    and the river's factor on the speed has a second form in which every
    operation is rounded to the nearest double ([binary64]).  The foam pass
    of [updateWater] keeps exact cells.

    Everything the program obtains from its host (the [Math] object,
    three.js quaternions and vectors, the ray caster, [Math.random]) is an
    operation of the class [Host], over whatever type the host has for
    quaternions; theorems hold for every host. *)

From Stdlib Require Import QArith Qabs Qround Qpower Lqa Lia ZArith Bool List.
From Stdlib Require Ascii String.
From stdpp Require Import base list.
Import ListNotations.
Import String.StringSyntax.
Delimit Scope string_scope with string.

Local Open Scope Q_scope.

(** ** Numbers and comparisons *)

(** [a < b] on JavaScript numbers. *)
Definition Qltb (a b : Q) : bool := negb (Qle_bool b a).
(** [a <= b]. *)
Definition Qleb (a b : Q) : bool := Qle_bool a b.
(** [a > b]. *)
Definition Qgtb (a b : Q) : bool := Qltb b a.

(** [Number(b)] for a boolean [b]. *)
Definition Number (b : bool) : Q := if b then 1 else 0.

(** ** IEEE numbers *)

(** The exponent of a positive number [x]: the [e] with
    [2^e <= x < 2^(e+1)]. *)
Definition exponentOf (x : Q) : Z :=
  let e := (Z.log2 (Qnum x) - Z.log2 (Zpos (Qden x)))%Z in
  if Qle_bool (Qpower 2 e) x then e else (e - 1)%Z.

(** The integer nearest to [m], and of two that are equally near the even
    one. *)
Definition roundHalfEven (m : Q) : Z :=
  let f := Qfloor m in
  match Qcompare (m - inject_Z f) (1 # 2) with
  | Lt => f
  | Gt => (f + 1)%Z
  | Eq => if Z.even f then f else (f + 1)%Z
  end.

(** A positive number rounded to [bits] significant bits. *)
Definition significand (bits : Z) (x : Q) : Q :=
  let q := Qpower 2 (exponentOf x - (bits - 1)) in
  inject_Z (roundHalfEven (x / q)) * q.

(** The nearest number with [bits] significant bits, ties to even.  The
    limits of the exponent range (overflow to [Infinity], subnormal numbers)
    are left out. *)
Definition nearest (bits : Z) (x : Q) : Q :=
  match Qcompare x 0 with
  | Eq => 0
  | Gt => significand bits x
  | Lt => - significand bits (- x)
  end.

(** The double nearest to [x]: what an arithmetic operation of JavaScript
    returns when its exact result is [x]. *)
Definition binary64 : Q -> Q := nearest 53.

(** The single-precision number nearest to [x]. *)
Definition binary32 : Q -> Q := nearest 24.

(** [Math.fround]: the number a cell of a [Float32Array] holds after [x] has
    been stored into it. *)
Definition fround : Q -> Q := binary32.

(** What the properties use of a rounding: it keeps the order, and 0 and 1
    are numbers of its format. *)
Record Rounding (fl : Q -> Q) : Prop := mkRounding {
  rounding_monotone : forall x y, x <= y -> fl x <= fl y;
  rounding_0 : fl 0 == 0;
  rounding_1 : fl 1 == 1
}.

(** ** THREE.Vector3 *)

Record Vector3 : Type := mkVector3 { vx : Q; vy : Q; vz : Q }.

Definition add_y (v : Vector3) (d : Q) : Vector3 :=
  mkVector3 (vx v) (vy v + d) (vz v).
Definition set_y (v : Vector3) (y : Q) : Vector3 :=
  mkVector3 (vx v) y (vz v).
(** [v.add(u)] *)
Definition vadd (v u : Vector3) : Vector3 :=
  mkVector3 (vx v + vx u) (vy v + vy u) (vz v + vz u).
(** [v.multiplyScalar(k)] *)
Definition multiplyScalar (v : Vector3) (k : Q) : Vector3 :=
  mkVector3 (vx v * k) (vy v * k) (vz v * k).
(** [v.addScaledVector(u, k)] *)
Definition addScaledVector (v u : Vector3) (k : Q) : Vector3 :=
  mkVector3 (vx v + vx u * k) (vy v + vy u * k) (vz v + vz u * k).
(** [v.dot(u)] *)
Definition dot (v u : Vector3) : Q :=
  vx v * vx u + vy v * vy u + vz v * vz u.

Definition downVector : Vector3 := mkVector3 0 (-1) 0.
Definition upVector : Vector3 := mkVector3 0 1 0.

(** ** The ray caster *)

(** One entry of the array returned by [raycaster.intersectObject]. *)
Record Intersection : Type := mkIntersection { distance : Q; point : Vector3 }.

(** A ray handed to [raycaster.set]. *)
Record Ray : Type := mkRay { origin : Vector3; direction : Vector3 }.

(** The terrain handle is opaque to the controller, which only asks for the
    intersections of a ray with it, nearest first: the terrain is that
    query. *)
Definition Terrain : Type := Ray -> list Intersection.

(** ** Host operations *)

Class Host (Quaternion : Type) : Type := {
  (* Math *)
  sin : Q -> Q;
  cos : Q -> Q;
  sqrt : Q -> Q;
  atan2 : Q -> Q -> Q;
  PI : Q;
  (* Math.random(): the n-th number drawn *)
  random : nat -> Q;
  (* THREE.Quaternion *)
  (* new THREE.Quaternion().setFromEuler(new THREE.Euler(0, yaw, 0)) *)
  setFromEulerY : Q -> Quaternion;
  equals : Quaternion -> Quaternion -> bool;
  slerp : Quaternion -> Quaternion -> Q -> Quaternion;
  (* v.applyQuaternion(q) *)
  applyQuaternion : Vector3 -> Quaternion -> Vector3;
  (* v.normalize() and v.length() *)
  normalize : Vector3 -> Vector3;
  vlength : Vector3 -> Q
}.

(** [THREE.MathUtils.degToRad]. *)
Definition degToRad {Quaternion : Type} `{Host Quaternion} (degrees : Q) : Q :=
  degrees * (PI / 180).

(** ** River configuration and anchors *)

(** The object [riverParams]; [foamAmount] sizes the typed arrays of the
    foam population, so it is a natural number. *)
Module riverParams.
Record t : Type := mk {
  speed : Q;
  waveHeight : Q;
  flowAngle : Q;
  foamAmount : nat;
  foamSize : Q;
  waterHeight : Q;
  waterX : Q;
  waterZ : Q;
  width : Q;
  length : Q;
  waterfallDrop : Q
}.
End riverParams.

(** An entry of [rocks]: position relative to the water, and radius. *)
Record Rock : Type := mkRock { rock_x : Q; rock_z : Q; radius : Q }.

(** The three attribute arrays of [foamSystem.geometry]. *)
Record FoamSystem : Type := mkFoamSystem {
  positions : list Q;
  lives : list Q;
  offsets : list Q
}.

(** ** Input and animation clips *)

Module keys.
Record t : Type := mk {
  w : bool; a : bool; s : bool; d : bool; shift : bool; space : bool
}.
End keys.

Inductive ActionName : Type :=
  idle | walk | run | strafe_left | strafe_right | jump.

Definition ActionName_eqb (x y : ActionName) : bool :=
  match x, y with
  | idle, idle | walk, walk | run, run | strafe_left, strafe_left
  | strafe_right, strafe_right | jump, jump => true
  | _, _ => false
  end.

(** What the frame reads and never writes: the key table, the joystick, the
    pointer lock, the mobile flags and the direction the camera looks in
    ([camera.getWorldDirection]). *)
Record Input : Type := mkInput {
  keys : keys.t;
  joystickVector : Q * Q;
  controls_isLocked : bool;
  gameActive : bool;
  isMobile : bool;
  camera_direction : Vector3
}.

(** ** Revisions and outcomes *)

(** The three revisions of [animate] in the sources: [Rev0] is the file
    [unnamed/part_000] (its [animate] starts at line 403), [Rev1] the first
    copy in [src/main.js] (lines 1-1320, [animate] at 600) and [Rev2] the
    second, latest copy (lines 1321-3931, [animate] at 2957).  Where the
    revisions differ the definitions below branch on the revision. *)
Inductive Revision : Type := Rev0 | Rev1 | Rev2.

(** A frame either runs to its end or stops at a thrown [TypeError], with the
    state the throw leaves behind. *)
Inductive Completion (A : Type) : Type :=
  | Normal (a : A)
  | Throw (a : A).
Arguments Normal {A} a.
Arguments Throw {A} a.

(** ** The global state of the program *)

Section Program.
Context {Quaternion : Type} `{H : Host Quaternion}.

Record Object3D : Type := mkObject3D {
  position : Vector3;
  quaternion : Quaternion
}.

Record World : Type := mkWorld {
  (* assets, absent until their loader has finished *)
  player : option Object3D;
  terrain : option Terrain;
  actions : ActionName -> bool;
  activeAction : option ActionName;
  (* controller; [input] gathers what the frame only reads *)
  verticalVelocity : Q;
  isGrounded : bool;
  lastGroundHeight : Q;
  input : Input;
  camera_position : Vector3;
  (* river: [params] is the global object [riverParams] *)
  params : riverParams.t;
  rocks : list Rock;
  water : option (list Vector3);
  foamSystem : option FoamSystem;
  (* bookkeeping: rays cast so far, latest first, and numbers drawn *)
  raycasts : list Ray;
  drawn : nat
}.

Definition set_player (p : option Object3D) (g : World) : World :=
  mkWorld p (terrain g) (actions g) (activeAction g) (verticalVelocity g)
    (isGrounded g) (lastGroundHeight g) (input g) (camera_position g)
    (params g) (rocks g) (water g) (foamSystem g) (raycasts g) (drawn g).
Definition set_activeAction (x : option ActionName) (g : World) : World :=
  mkWorld (player g) (terrain g) (actions g) x (verticalVelocity g)
    (isGrounded g) (lastGroundHeight g) (input g) (camera_position g)
    (params g) (rocks g) (water g) (foamSystem g) (raycasts g) (drawn g).
Definition set_verticalVelocity (x : Q) (g : World) : World :=
  mkWorld (player g) (terrain g) (actions g) (activeAction g) x
    (isGrounded g) (lastGroundHeight g) (input g) (camera_position g)
    (params g) (rocks g) (water g) (foamSystem g) (raycasts g) (drawn g).
Definition set_isGrounded (x : bool) (g : World) : World :=
  mkWorld (player g) (terrain g) (actions g) (activeAction g)
    (verticalVelocity g) x (lastGroundHeight g) (input g) (camera_position g)
    (params g) (rocks g) (water g) (foamSystem g) (raycasts g) (drawn g).
Definition set_lastGroundHeight (x : Q) (g : World) : World :=
  mkWorld (player g) (terrain g) (actions g) (activeAction g)
    (verticalVelocity g) (isGrounded g) x (input g) (camera_position g)
    (params g) (rocks g) (water g) (foamSystem g) (raycasts g) (drawn g).
Definition set_camera_position (x : Vector3) (g : World) : World :=
  mkWorld (player g) (terrain g) (actions g) (activeAction g)
    (verticalVelocity g) (isGrounded g) (lastGroundHeight g) (input g) x
    (params g) (rocks g) (water g) (foamSystem g) (raycasts g) (drawn g).
Definition set_water (x : option (list Vector3)) (g : World) : World :=
  mkWorld (player g) (terrain g) (actions g) (activeAction g)
    (verticalVelocity g) (isGrounded g) (lastGroundHeight g) (input g)
    (camera_position g) (params g) (rocks g) x (foamSystem g) (raycasts g)
    (drawn g).
Definition set_foamSystem (x : option FoamSystem) (g : World) : World :=
  mkWorld (player g) (terrain g) (actions g) (activeAction g)
    (verticalVelocity g) (isGrounded g) (lastGroundHeight g) (input g)
    (camera_position g) (params g) (rocks g) (water g) x (raycasts g)
    (drawn g).
Definition set_raycasts (x : list Ray) (g : World) : World :=
  mkWorld (player g) (terrain g) (actions g) (activeAction g)
    (verticalVelocity g) (isGrounded g) (lastGroundHeight g) (input g)
    (camera_position g) (params g) (rocks g) (water g) (foamSystem g) x
    (drawn g).
Definition set_drawn (x : nat) (g : World) : World :=
  mkWorld (player g) (terrain g) (actions g) (activeAction g)
    (verticalVelocity g) (isGrounded g) (lastGroundHeight g) (input g)
    (camera_position g) (params g) (rocks g) (water g) (foamSystem g)
    (raycasts g) x.

(** ** Scalar wave field *)

(** [getWaveHeight(x, z, time, dirX, dirY)] (main.js 1155 and 3771, the
    same text).  The function reads the global [riverParams]; the whole
    global state is its first argument here. *)
Definition getWaveHeight (g : World) (x z time dirX dirY : Q) : Q :=
  let flowDist := (x * dirX) + (z * dirY) in
  let crossDist := (x * dirY) - (z * dirX) in
  let h := 0 in
  let h := h + sin (flowDist * 0.8 + time * riverParams.speed (params g)) * 0.5 in
  let h := h + sin (flowDist * 1.5 + crossDist * 1.2
                    + time * riverParams.speed (params g) * 1.2) * 0.3 in
  let h := h + sin (flowDist * 3.0 + time * riverParams.speed (params g) * 2.0) * 0.1 in
  h * riverParams.waveHeight (params g).

(** The "rock push" loop of the water pass: the bump each rock adds to the
    height [h] of the vertex at [(x, y)]. *)
Definition rockPush (rs : list Rock) (x y h : Q) : Q :=
  fold_left
    (fun h r =>
       let dx := x - rock_x r in
       let dy := y - rock_z r in
       let dist := sqrt (dx * dx + dy * dy) in
       if Qltb dist (radius r * 2.5)
       then h + (1.0 - (dist / (radius r * 2.5))) * 0.6
       else h)
    rs h.

(** Section 1 of [updateWater]: every vertex of the water plane gets the wave
    height plus the rock push as its Z.  (The plane is rotated afterwards, so
    its local Y is the world's Z.) *)
Definition waterVertex (g : World) (time dirX dirY : Q) (v : Vector3) : Vector3 :=
  let x := vx v in
  let y := vy v in
  let h := getWaveHeight g x y time dirX dirY in
  let h := rockPush (rocks g) x y h in
  mkVector3 x y h.

Definition updateWaterMesh (time dirX dirY : Q) (g : World) : World :=
  match water g with
  | Some vertices => set_water (Some (map (waterVertex g time dirX dirY) vertices)) g
  | None => g
  end.

(** ** Foam population *)

(** [Math.random()]: the next number of the host's sequence. *)
Definition nextRandom (n : nat) : Q * nat := (random n, S n).

(** The placement block of the respawn of [updateWater] (main.js
    3852-3865): particle [i] is placed on a ring around a random rock (six
    draws out of ten, when there is a rock) or along one of the two banks.
    [n] counts the numbers drawn.  [rocks[k]] is [undefined] for an index
    outside the array and reading its [radius] throws: the result is [None]
    then. *)
Definition placeAtRockOrBank (g : World) (i : nat) (pos : list Q) (n : nat)
  : option (list Q * nat) :=
  let currentWidth := riverParams.width (params g) in
  let currentLength := riverParams.length (params g) in
  let edgeLimit := currentWidth * 0.5 in
  let lengthLimit := currentLength * 0.5 in
  let '(u, n) := nextRandom n in
  if Qltb u 0.6 && (0 <? List.length (rocks g))%nat then
    let '(u, n) := nextRandom n in
    let k := Qfloor (u * inject_Z (Z.of_nat (List.length (rocks g)))) in
    rock ← (if (k <? 0)%Z then None else rocks g !! Z.to_nat k);
    let '(u, n) := nextRandom n in
    let r := radius rock + (u * 0.5) in
    let '(u, n) := nextRandom n in
    let a := u * PI * 2 in
    let pos := <[(i * 3)%nat := rock_x rock + cos a * r]> pos in
    let pos := <[(i * 3 + 2)%nat := rock_z rock + sin a * r]> pos in
    Some (pos, n)
  else
    let '(u, n) := nextRandom n in
    let side : Q := if Qgtb u 0.5 then 1 else -1 in
    let edgeX := (edgeLimit - 0.2) * side in
    let '(u, n) := nextRandom n in
    let edgeZ := (u * currentLength) - lengthLimit in
    let '(u, n) := nextRandom n in
    let pos := <[(i * 3)%nat := edgeX + (u * 0.5 * - side)]> pos in
    let pos := <[(i * 3 + 2)%nat := edgeZ]> pos in
    Some (pos, n).

(** A [for (let i = 0; i < count; i++)] loop whose body may throw. *)
Definition forLoop {S : Type} (count : nat) (body : nat -> S -> option S)
    (init : S) : option S :=
  fold_left (fun acc i => acc ≫= body i) (seq 0 count) (Some init).

(** One iteration of the seeding loop of [createFoamSystem] (main.js
    3719-3738, 1103-1122): the particle is placed on a rock ring or along a
    bank as in the block above, and given its height, life and offset.  The
    three arrays are [Float32Array]s, and each number is stored as the
    single-precision number nearest to it. *)
Definition seedParticle (g : World) (i : nat) (st : FoamSystem * nat)
  : option (FoamSystem * nat) :=
  let '(fs, n) := st in
  let pos := positions fs in
  let currentWidth := riverParams.width (params g) in
  let currentLength := riverParams.length (params g) in
  let edgeLimit := currentWidth * 0.5 in
  let lengthLimit := currentLength * 0.5 in
  let '(u, n) := nextRandom n in
  '(pos, n) ←
     (if Qltb u 0.6 && (0 <? List.length (rocks g))%nat then
        let '(u, n) := nextRandom n in
        let k := Qfloor (u * inject_Z (Z.of_nat (List.length (rocks g)))) in
        rock ← (if (k <? 0)%Z then None else rocks g !! Z.to_nat k);
        let '(u, n) := nextRandom n in
        let r := radius rock + (u * 0.5) in
        let '(u, n) := nextRandom n in
        let a := u * PI * 2 in
        let pos := <[(i * 3)%nat := fround (rock_x rock + cos a * r)]> pos in
        let pos := <[(i * 3 + 2)%nat := fround (rock_z rock + sin a * r)]> pos in
        Some (pos, n)
      else
        let '(u, n) := nextRandom n in
        let side : Q := if Qgtb u 0.5 then 1 else -1 in
        let edgeX := (edgeLimit - 0.2) * side in
        let '(u, n) := nextRandom n in
        let edgeZ := (u * currentLength) - lengthLimit in
        let '(u, n) := nextRandom n in
        let pos := <[(i * 3)%nat := fround (edgeX + (u * 0.5 * - side))]> pos in
        let pos := <[(i * 3 + 2)%nat := fround edgeZ]> pos in
        Some (pos, n));
  let pos := <[(i * 3 + 1)%nat := fround 0.05]> pos in
  let '(u, n) := nextRandom n in
  let lv := <[i := fround u]> (lives fs) in
  let '(u, n) := nextRandom n in
  let off := <[i := fround (u * 100)]> (offsets fs) in
  Some (mkFoamSystem pos lv off, n).

(** [createFoamSystem()] (main.js 3695): three zero-filled typed arrays
    sized by [riverParams.foamAmount], seeded particle by particle. *)
Definition createFoamSystem (g : World) : option World :=
  let count := riverParams.foamAmount (params g) in
  let fresh :=
    mkFoamSystem (replicate (count * 3) 0) (replicate count 0) (replicate count 0) in
  '(fs, n) ← forLoop count (seedParticle g) (fresh, drawn g);
  Some (set_drawn n (set_foamSystem (Some fs) g)).

(** The respawn branch for particle [i]: a ring around the player when the
    player stands in the water and an 8% draw succeeds, else a rock or a
    bank. *)
Definition respawnParticle (g : World) (i : nat) (pos : list Q) (n : nat)
  : option (list Q * nat) :=
  let edgeLimit := riverParams.width (params g) * 0.5 in
  let lengthLimit := riverParams.length (params g) * 0.5 in
  let splash : option (list Q * nat) * nat :=
    match player g with
    | Some p =>
      let pRelX := vx (position p) - riverParams.waterX (params g) in
      let pRelZ := vz (position p) - riverParams.waterZ (params g) in
      if Qltb (Qabs pRelX) edgeLimit && Qltb (Qabs pRelZ) lengthLimit then
        if Qltb (Qabs (vy (position p) - riverParams.waterHeight (params g))) 2.5 then
          let '(u, n) := nextRandom n in
          if Qltb u 0.08 then
            let '(u, n) := nextRandom n in
            let r := 0.3 + u * 0.5 in
            let '(u, n) := nextRandom n in
            let a := u * PI * 2 in
            let pos := <[(i * 3)%nat := pRelX + cos a * r]> pos in
            let pos := <[(i * 3 + 2)%nat := pRelZ + sin a * r]> pos in
            (Some (pos, n), n)
          else (None, n)
        else (None, n)
      else (None, n)
    | None => (None, n)
    end in
  match splash with
  | (Some spawnedOnPlayer, _) => Some spawnedOnPlayer
  | (None, n) => placeAtRockOrBank g i pos n
  end.

(** The drift of a live particle: along the flow, with a sideways wobble.
    Each statement is a read-modify-write of one array cell, which leaves the
    array alone when the index is outside it. *)
Definition moveParticle (g : World) (time dirX dirY : Q) (i : nat)
    (fs : FoamSystem) (pos : list Q) : list Q :=
  let pos := alter (fun c => c + dirX * 0.08 * riverParams.speed (params g)) (i * 3)%nat pos in
  let pos := alter (fun c => c + dirY * 0.08 * riverParams.speed (params g)) (i * 3 + 2)%nat pos in
  match offsets fs !! i with
  | Some o =>
    let noise := sin (time * 5 + o) * 0.02 in
    let pos := alter (fun c => c + - dirY * noise) (i * 3)%nat pos in
    let pos := alter (fun c => c + dirX * noise) (i * 3 + 2)%nat pos in
    pos
  | None => pos
  end.

(** The height lock closing each iteration. *)
Definition lockToWave (g : World) (time dirX dirY : Q) (i : nat) (pos : list Q)
  : list Q :=
  match pos !! (i * 3)%nat, pos !! (i * 3 + 2)%nat with
  | Some x, Some z =>
    let waterH := getWaveHeight g x z time dirX dirY in
    <[(i * 3 + 1)%nat := waterH + 0.05]> pos
  | _, _ => pos
  end.

(** The body of the foam loop of [updateWater] for particle [i]. *)
Definition foamParticle (g : World) (time dirX dirY : Q) (i : nat)
    (st : FoamSystem * nat) : option (FoamSystem * nat) :=
  let '(fs, n) := st in
  let lv := alter (fun l => l - 0.01 * riverParams.speed (params g)) i (lives fs) in
  let expired := match lv !! i with Some l => Qleb l 0 | None => false end in
  '(lv, pos, n) ←
     (if expired then
        let lv := <[i := 1.0]> lv in
        '(pos, n) ← respawnParticle g i (positions fs) n;
        Some (lv, pos, n)
      else
        Some (lv, moveParticle g time dirX dirY i fs (positions fs), n));
  let pos := lockToWave g time dirX dirY i pos in
  Some (mkFoamSystem pos lv (offsets fs), n).

(** Section 2 of [updateWater]. *)
Definition updateFoam (time dirX dirY : Q) (g : World) : option World :=
  match foamSystem g with
  | Some fs =>
    '(fs, n) ← forLoop (riverParams.foamAmount (params g))
                 (foamParticle g time dirX dirY) (fs, drawn g);
    Some (set_drawn n (set_foamSystem (Some fs) g))
  | None => Some g
  end.

(** [updateWater(time)] (main.js 3782), water and foam passes.  The mist
    and waterfall passes that follow write only their own buffers and shader
    clocks, which are not part of [World]; the mist pass draws numbers too,
    so the count of draws is not carried from one frame to the next by the
    properties below. *)
Definition updateWater (time : Q) (g : World) : option World :=
  let rad := degToRad (riverParams.flowAngle (params g)) in
  let dirX := sin rad in
  let dirY := cos rad in
  updateFoam time dirX dirY (updateWaterMesh time dirX dirY g).

(** ** Locomotion controller *)

Definition rayStartHeight (rev : Revision) : Q :=
  match rev with Rev0 => 2.0 | Rev1 => 0.8 | Rev2 => 0.6 end.
Definition jumpForce (rev : Revision) : Q :=
  match rev with Rev0 | Rev1 => 8.0 | Rev2 => 10.0 end.
Definition maxStepHeight (rev : Revision) : Q :=
  match rev with Rev0 | Rev1 => 0.5 | Rev2 => 0.6 end.
Definition walkSpeed (rev : Revision) : Q :=
  match rev with Rev0 => 2.0 | Rev1 | Rev2 => 4.0 end.
Definition runSpeed (rev : Revision) : Q :=
  match rev with Rev0 => 6.0 | Rev1 | Rev2 => 10.0 end.

Definition set_position (v : Vector3) (p : Object3D) : Object3D :=
  mkObject3D v (quaternion p).

(** [raycaster.set(o, d); raycaster.intersectObject(terrain, true)]. *)
Definition raycast (t : Terrain) (o d : Vector3) (g : World)
  : list Intersection * World :=
  (t (mkRay o d), set_raycasts (mkRay o d :: raycasts g) g).

(** The clip stored under a name in [actions], [null] until loaded. *)
Definition clip (g : World) (name : ActionName) : option ActionName :=
  if actions g name then Some name else None.

(** [x === y] on clip handles (both may be [null]). *)
Definition sameAction (x y : option ActionName) : bool :=
  match x, y with
  | Some m, Some n => ActionName_eqb m n
  | None, None => true
  | _, _ => false
  end.

Definition controlsEngaged (rev : Revision) (i : Input) : bool :=
  match rev with
  | Rev2 => controls_isLocked i || (gameActive i && isMobile i)
  | _ => controls_isLocked i
  end.

Definition isMoving (rev : Revision) (i : Input) : bool :=
  let k := keys i in
  match rev with
  | Rev2 => keys.w k || keys.a k || keys.s k || keys.d k
            || Qgtb (Qabs (fst (joystickVector i))) 0.1
            || Qgtb (Qabs (snd (joystickVector i))) 0.1
  | _ => keys.w k || keys.a k || keys.s k || keys.d k
  end.

Definition isRunning (rev : Revision) (i : Input) : bool :=
  keys.shift (keys i) && isMoving rev i.

(** Steering: the player turns towards camera heading plus input angle. *)
Definition steer (rev : Revision) (delta : Q) (i : Input) (q : Quaternion)
  : Quaternion :=
  let cameraForward := normalize (set_y (camera_direction i) 0) in
  let camAngle :=
    if Qgtb (vlength cameraForward) 0
    then atan2 (vx cameraForward) (vz cameraForward) else 0 in
  let inputAngle :=
    if isMoving rev i then
      let z := Number (keys.w (keys i)) - Number (keys.s (keys i)) in
      let z := match rev with Rev2 => z - snd (joystickVector i) | _ => z end in
      let x := Number (keys.a (keys i)) - Number (keys.d (keys i)) in
      let x := match rev with Rev2 => x - fst (joystickVector i) | _ => x end in
      atan2 x z
    else 0 in
  let targetRotation := camAngle + inputAngle in
  let targetQuaternion := setFromEulerY targetRotation in
  if negb (equals q targetQuaternion)
  then slerp q targetQuaternion (10.0 * delta) else q.

(** The jump input (main.js 3188-3212, 680-690).  [activeAction.fadeOut] is
    called on whatever [activeAction] holds, and throws when that is still
    [null].  Sounds and the timer of [Rev2] have no state here. *)
Definition jumpInput (rev : Revision) (g : World) : Completion World :=
  if keys.space (keys (input g)) && isGrounded g then
    let g := set_verticalVelocity (jumpForce rev) g in
    let g := set_isGrounded false g in
    if actions g jump then
      match activeAction g with
      | Some _ => Normal (set_activeAction (clip g jump) g)
      | None => Throw g
      end
    else Normal g
  else Normal g.

(** Gravity: the velocity first, then the height with the new velocity. *)
Definition gravity (delta : Q) (st : Object3D * World) : Object3D * World :=
  let '(p, g) := st in
  let g := set_verticalVelocity (verticalVelocity g - 20.0 * delta) g in
  let p := set_position (add_y (position p) (verticalVelocity g * delta)) p in
  (p, g).

(** The name of the clip to show and the base speed. *)
Definition targetActionName (rev : Revision) (g : World) : ActionName :=
  let name := idle in
  let name :=
    if isMoving rev (input g)
    then (if isRunning rev (input g) then run else walk) else name in
  if negb (isGrounded g) && sameAction (activeAction g) (clip g jump)
  then jump else name.

Definition baseSpeed (rev : Revision) (g : World) : Q :=
  if isMoving rev (input g)
  then (if isRunning rev (input g) then runSpeed rev else walkSpeed rev)
  else 0.

(** The river's factor on the speed ([Rev2]): inside the footprint of the
    water and with the feet below its surface plus 0.5, the speed is scaled
    by [1 + alignment * 0.5]. *)
Definition flowDir (g : World) : Vector3 :=
  let rad := degToRad (riverParams.flowAngle (params g)) in
  mkVector3 (sin rad) 0 (cos rad).

Definition inRiver (p : Object3D) (g : World) : bool :=
  match water g with
  | Some _ =>
    let halfWidth := riverParams.width (params g) / 2 in
    let halfLength := riverParams.length (params g) / 2 in
    let pRelX := vx (position p) - riverParams.waterX (params g) in
    let pRelZ := vz (position p) - riverParams.waterZ (params g) in
    Qltb (Qabs pRelX) halfWidth && Qltb (Qabs pRelZ) halfLength
    && Qltb (vy (position p)) (riverParams.waterHeight (params g) + 0.5)
  | None => false
  end.

Definition flowSpeed (rev : Revision) (worldMoveDir : Vector3) (p : Object3D)
    (g : World) (moveSpeed : Q) : Q :=
  match rev with
  | Rev2 =>
    if inRiver p g then
      let alignment := dot worldMoveDir (flowDir g) in
      let flowEffect := 0.5 in
      moveSpeed * (1.0 + (alignment * flowEffect))
    else moveSpeed
  | _ => moveSpeed
  end.

(** The same block with the arithmetic of the host written out: [fl] is
    applied to the result of every product and every sum, as a host that
    computes in doubles rounds each of them; [v.dot(u)] adds its three
    products from left to right.  With the identity for [fl] this is
    [flowSpeed] in the latest revision. *)
Definition roundedAlignment (fl : Q -> Q) (worldMoveDir flowDir : Vector3) : Q :=
  fl (fl (fl (vx worldMoveDir * vx flowDir) + fl (vy worldMoveDir * vy flowDir))
      + fl (vz worldMoveDir * vz flowDir)).

Definition roundedFlowSpeed (fl : Q -> Q) (worldMoveDir : Vector3) (p : Object3D)
    (g : World) (moveSpeed : Q) : Q :=
  if inRiver p g then
    let alignment := roundedAlignment fl worldMoveDir (flowDir g) in
    let flowEffect := 0.5 in
    fl (moveSpeed * fl (1.0 + fl (alignment * flowEffect)))
  else moveSpeed.

(** One forward ray; [true] when it hits nearer than [checkDist]. *)
Definition wallRay (t : Terrain) (o dir : Vector3) (checkDist : Q) (g : World)
  : bool * World :=
  let '(hits, g) := raycast t o dir g in
  (match hits with
   | hit :: _ => Qltb (distance hit) checkDist
   | [] => false
   end, g).

(** Rays are cast from the origins in turn until one is blocked. *)
Fixpoint wallRays (t : Terrain) (origins : list Vector3) (dir : Vector3)
    (checkDist : Q) (g : World) : bool * World :=
  match origins with
  | [] => (false, g)
  | o :: rest =>
    let '(blocked, g) := wallRay t o dir checkDist g in
    if blocked then (true, g) else wallRays t rest dir checkDist g
  end.

(** The frontal wall check of each revision: one ray at knee height; three
    whiskers at chest height; knee, neck and head. *)
Definition wallCheck (rev : Revision) (t : Terrain) (worldMoveDir : Vector3)
    (p : Object3D) (g : World) : bool * World :=
  match rev with
  | Rev0 => wallRays t [add_y (position p) 0.5] worldMoveDir 0.8 g
  | Rev1 =>
    let pPos := add_y (position p) 0.8 in
    let localRight := applyQuaternion (mkVector3 1 0 0) (quaternion p) in
    let widthRadius := 0.4 in
    wallRays t
      [pPos; addScaledVector pPos localRight widthRadius;
       addScaledVector pPos localRight (- widthRadius)]
      worldMoveDir 1.1 g
  | Rev2 =>
    wallRays t
      [add_y (position p) 0.5; add_y (position p) 1; add_y (position p) 1.7]
      worldMoveDir 0.8 g
  end.

(** "Apply Movement Physics". *)
Definition applyMovement (rev : Revision) (delta : Q) (t : Terrain)
    (st : Object3D * World) : Object3D * World :=
  let '(p, g) := st in
  if isMoving rev (input g) then
    let worldMoveDir := applyQuaternion (mkVector3 0 0 1) (quaternion p) in
    let moveSpeed := flowSpeed rev worldMoveDir p g (baseSpeed rev g) in
    let '(blocked, g) := wallCheck rev t worldMoveDir p g in
    if negb blocked
    then (set_position (addScaledVector (position p) worldMoveDir (moveSpeed * delta)) p, g)
    else (p, g)
  else (p, g).

(** The animation cross-fade.  The names the controller asks for are [idle],
    [walk], [run] and [jump]; none contains "strafe", so the time-scale
    branch guarded by that test is never taken, and time scales and fades
    belong to the animation mixer. *)
Definition crossfade (name : ActionName) (g : World) : World :=
  if negb (ActionName_eqb name jump) && actions g jump
     && sameAction (activeAction g) (clip g jump) && negb (isGrounded g)
  then g
  else
    match clip g name with
    | Some targetAction =>
      if negb (sameAction (activeAction g) (Some targetAction))
      then set_activeAction (Some targetAction) g else g
    | None => g
    end.

(** The camera follows at distance 3.5 and height 1.5, and is kept from
    dropping more than 0.3 below the player. *)
Definition followCamera (p : Object3D) (g : World) : World :=
  let camDist := 3.5 in
  let camHeight := 1.5 in
  let camDir := multiplyScalar (camera_direction (input g)) (- camDist) in
  let c := add_y (vadd (position p) camDir) camHeight in
  let camMinBelowGround := 0.3 in
  let minCamY := vy (position p) - camMinBelowGround in
  set_camera_position (if Qltb (vy c) minCamY then set_y c minCamY else c) g.

(** "2. Control Application": the block run while the controls are engaged. *)
Definition controlApplication (rev : Revision) (delta : Q) (t : Terrain)
    (st : Object3D * World) : Completion (Object3D * World) :=
  let '(p, g) := st in
  let p := mkObject3D (position p) (steer rev delta (input g) (quaternion p)) in
  match jumpInput rev g with
  | Throw g => Throw (p, g)
  | Normal g =>
    let '(p, g) := gravity delta (p, g) in
    let name := targetActionName rev g in
    let '(p, g) := applyMovement rev delta t (p, g) in
    let g := crossfade name g in
    Normal (p, followCamera p g)
  end.

(** *** After the move *)

(** The ceiling check of [Rev2] (main.js 3369-3389): an upward ray from
    just above the feet. *)
Definition ceilingCheck (rev : Revision) (t : Terrain) (st : Object3D * World)
  : Object3D * World :=
  let '(p, g) := st in
  match rev with
  | Rev2 =>
    let ceilingRayOrigin := add_y (position p) 0.2 in
    let '(ceilingIntersects, g) := raycast t ceilingRayOrigin upVector g in
    match ceilingIntersects with
    | hit :: _ =>
      if Qltb (distance hit) 1.8 then
        let ceilingHeight := vy (point hit) in
        let maxPlayerY := ceilingHeight - 1.9 in
        if Qgtb (vy (position p)) maxPlayerY then
          let p := set_position (set_y (position p) maxPlayerY) p in
          let g := if Qgtb (verticalVelocity g) 0
                   then set_verticalVelocity 0 g else g in
          (p, g)
        else (p, g)
      else (p, g)
    | [] => (p, g)
    end
  | _ => (p, g)
  end.

(** The three assignments of a landing. *)
Definition snapTo (ground : Q) (st : Object3D * World) : Object3D * World :=
  let '(p, g) := st in
  let p := set_position (set_y (position p) (ground + 0.1)) p in
  let g := set_verticalVelocity 0 g in
  let g := set_isGrounded true g in
  (p, g).

(** "Physics Landing Logic" of the revert branch. *)
Definition landingLogic (validGround : Q) (st : Object3D * World)
  : Object3D * World :=
  let '(p, g) := st in
  if Qleb (vy (position p)) (validGround + 0.1) && Qleb (verticalVelocity g) 0
  then snapTo validGround (p, g)
  else (p, set_isGrounded false g).

(** "No wall collision. Valid ground logic": the other branch. *)
Definition validGroundLogic (newGroundHeight : Q) (st : Object3D * World)
  : Object3D * World :=
  let '(p, g) := st in
  if Qleb (vy (position p)) (newGroundHeight + 0.1) then
    if Qleb (verticalVelocity g) 0
    then snapTo newGroundHeight (p, g)
    else (p, g)
  else (p, set_isGrounded false g).

(** The test guarding the X/Z revert. *)
Definition stepTooHigh (rev : Revision) (oldGroundHeight newGroundHeight : Q)
    (st : Object3D * World) : bool :=
  let '(p, g) := st in
  let heightDiff := newGroundHeight - oldGroundHeight in
  let isClearingObstacle := Qgtb (vy (position p)) newGroundHeight in
  match rev with
  | Rev2 =>
    let isJumping := Qgtb (verticalVelocity g) 0 in
    let isInAir := negb (isGrounded g) in
    Qgtb heightDiff (maxStepHeight rev) && negb isClearingObstacle
    && negb isJumping && negb isInAir
  | _ => Qgtb heightDiff (maxStepHeight rev) && negb isClearingObstacle
  end.

(** Where the ray that looks for ground at the reverted position starts. *)
Definition reprobeOrigin (rev : Revision) (oldPosition : Vector3) : Vector3 :=
  match rev with
  | Rev1 => mkVector3 (vx oldPosition) (vy oldPosition + 0.8) (vz oldPosition)
  | _ => mkVector3 (vx oldPosition) 200 (vz oldPosition)
  end.

(** The revert branch: X and Z go back, Y stays, and the landing logic runs
    on the ground found under the reverted position. *)
Definition revertXZ (rev : Revision) (t : Terrain) (oldPosition : Vector3)
    (st : Object3D * World) : Object3D * World :=
  let '(p, g) := st in
  let p := set_position
             (mkVector3 (vx oldPosition) (vy (position p)) (vz oldPosition)) p in
  let '(wallIntersects, g) := raycast t (reprobeOrigin rev oldPosition) downVector g in
  match wallIntersects with
  | hit :: _ => landingLogic (vy (point hit)) (p, g)
  | [] => (p, g)
  end.

(** "Emergency Escape". *)
Definition emergencyEscape (newGroundHeight : Q) (st : Object3D * World)
  : Object3D * World :=
  let '(p, g) := st in
  if Qltb (vy (position p)) (-10) then snapTo newGroundHeight (p, g) else (p, g).

(** The block run when the downward probe has a hit (main.js 3394-3453,
    818-873; part_000 594-648). *)
Definition resolveGround (rev : Revision) (t : Terrain) (oldPosition : Vector3)
    (oldGroundHeight : Q) (hit : Intersection) (st : Object3D * World)
  : Object3D * World :=
  let '(p, g) := st in
  let newGroundHeight := vy (point hit) in
  let g := set_lastGroundHeight newGroundHeight g in
  let st :=
    if stepTooHigh rev oldGroundHeight newGroundHeight (p, g)
    then revertXZ rev t oldPosition (p, g)
    else validGroundLogic newGroundHeight (p, g) in
  emergencyEscape newGroundHeight st.

(** The camera may dip at most 0.3 below the last known ground. *)
Definition clampCamera (g : World) : World :=
  let camMinBelowGround := 0.3 in
  let minCamY := lastGroundHeight g - camMinBelowGround in
  if Qltb (vy (camera_position g)) minCamY
  then set_camera_position (set_y (camera_position g) minCamY) g else g.

(** The ground height under the player before it moves. *)
Definition probeOldGround (rev : Revision) (t : Terrain) (p : Object3D)
    (g : World) : Q * World :=
  let '(intersects, g) :=
    raycast t (add_y (position p) (rayStartHeight rev)) downVector g in
  (match intersects with
   | hit :: _ => vy (point hit)
   | [] => vy (position p)
   end, g).

(** The downward probe from the new position, then the ceiling check: the
    hits of the probe and the state that enters the ground resolution. *)
Definition probeNewGround (rev : Revision) (t : Terrain) (st : Object3D * World)
  : list Intersection * (Object3D * World) :=
  let '(p, g) := st in
  let rayOrigin := add_y (position p) (rayStartHeight rev) in
  let '(intersects, g) := raycast t rayOrigin downVector g in
  (intersects, ceilingCheck rev t (p, g)).

(** Everything after the control block. *)
Definition postMove (rev : Revision) (t : Terrain) (oldPosition : Vector3)
    (oldGroundHeight : Q) (st : Object3D * World) : World :=
  let '(intersects, st) := probeNewGround rev t st in
  let '(p, g) :=
    match intersects with
    | hit :: _ => resolveGround rev t oldPosition oldGroundHeight hit st
    | [] => st
    end in
  set_player (Some p) (clampCamera g).

(** "Gravity / Ground Snapping": the controller part of [animate].  The
    shadow light that follows the player and the sounds are presentation and
    have no state here. *)
Definition locomotion (rev : Revision) (delta : Q) (g : World)
  : Completion World :=
  match player g, terrain g with
  | Some p, Some t =>
    let oldPosition := position p in
    let '(oldGroundHeight, g) := probeOldGround rev t p g in
    let moved :=
      if controlsEngaged rev (input g)
      then controlApplication rev delta t (p, g)
      else Normal (p, g) in
    match moved with
    | Normal st => Normal (postMove rev t oldPosition oldGroundHeight st)
    | Throw (p, g) => Throw (set_player (Some p) g)
    end
  | _, _ => Normal g
  end.

(** [animate()]: [now] is [performance.now() * 0.001] and [delta] is
    [clock.getDelta()].  [Rev0] has no river.  A throw inside [updateWater]
    ends the frame before the controller runs; the state is then reported as
    it was when the frame began. *)
Definition animate (rev : Revision) (now delta : Q) (g : World)
  : Completion World :=
  match rev with
  | Rev0 => locomotion rev delta g
  | _ =>
    match updateWater now g with
    | Some g => locomotion rev delta g
    | None => Throw g
    end
  end.

(** *** Gravity alone *)

(** The two gravity assignments on a bare (velocity, height) pair. *)
Definition integrate (dt : Q) (s : Q * Q) : Q * Q :=
  let '(verticalVelocity, y) := s in
  let verticalVelocity := verticalVelocity - 20.0 * dt in
  (verticalVelocity, y + verticalVelocity * dt).

(** [n] frames of free fall with the same [dt]. *)
Fixpoint freeFall (n : nat) (dt : Q) (s : Q * Q) : Q * Q :=
  match n with
  | O => s
  | S n => freeFall n dt (integrate dt s)
  end.

(** Net vertical displacement over [n] frames from velocity [v0]. *)
Definition displacement (n : nat) (dt : Q) (v0 : Q) : Q :=
  snd (freeFall n dt (v0, 0)).

(** Free fall over frames of any lengths: [dts] holds what [clock.getDelta()]
    returns frame after frame. *)
Definition fall (dts : list Q) (s : Q * Q) : Q * Q :=
  fold_left (fun s dt => integrate dt s) dts s.

(** Net vertical displacement over the frames [dts] from velocity [v0]. *)
Definition rise (dts : list Q) (v0 : Q) : Q := snd (fall dts (v0, 0)).

End Program.

(** ** Vocabulary of the properties *)

Section Vocabulary.
Context {Quaternion : Type} `{H : Host Quaternion}.

Local Abbreviation World := (@World Quaternion) (only parsing).
Local Abbreviation Object3D := (@Object3D Quaternion) (only parsing).

(** The contract of [Math.random]: every draw lies in [0, 1). *)
Definition uniform01 : Prop := forall n, 0 <= random n /\ random n < 1.




(** [pos'] differs from [pos] at most in the X and Z cells of particle [i]. *)
Definition movesOnly (i : nat) (pos pos' : list Q) : Prop :=
  List.length pos' = List.length pos
  /\ forall k, k <> (i * 3)%nat -> k <> (i * 3 + 2)%nat -> pos' !! k = pos !! k.







(** The point of [locomotion] at which the ground resolution starts: the
    position before the move, the old ground height, the nearest hit of the
    downward probe, and the state after the ceiling check.  [None] when the
    frame does not get there (an asset is missing, the jump threw, or the
    probe hit nothing). *)
Definition enteringResolution (rev : Revision) (delta : Q) (g : World)
  : option (Vector3 * Q * Intersection * (Object3D * World)) :=
  match player g, terrain g with
  | Some p, Some t =>
    let oldPosition := position p in
    let '(oldGroundHeight, g) := probeOldGround rev t p g in
    let moved :=
      if controlsEngaged rev (input g)
      then controlApplication rev delta t (p, g)
      else Normal (p, g) in
    match moved with
    | Normal st =>
      match probeNewGround rev t st with
      | (hit :: _, st) => Some (oldPosition, oldGroundHeight, hit, st)
      | ([], _) => None
      end
    | Throw _ => None
    end
  | _, _ => None
  end.

End Vocabulary.

(** * The rest of the program *)

(** ** Ground, walls and clips *)

Section Surroundings.
Context {Quaternion : Type} `{H : Host Quaternion}.

Local Abbreviation World := (@World Quaternion) (only parsing).
Local Abbreviation Object3D := (@Object3D Quaternion) (only parsing).

(** Open, level ground at height [h]: a ray cast straight down from at or
    above [h] has its nearest hit at height [h], and a ray cast straight up
    hits nothing. *)
Definition openFlatGround (t : Terrain) (h : Q) : Prop :=
  (forall o, h <= vy o ->
     exists hit rest, t (mkRay o downVector) = hit :: rest /\ vy (point hit) = h)
  /\ (forall o, t (mkRay o upVector) = []).

(** The nearest hit of the ray from [o] along [dir] is nearer than [reach]. *)
Definition obstructed (t : Terrain) (o dir : Vector3) (reach : Q) : bool :=
  match t (mkRay o dir) with
  | hit :: _ => Qltb (distance hit) reach
  | [] => false
  end.

(** The callback of [loadAnim(fileName, name)] (main.js 2857-2896), as far
    as the controller sees it: the clip is stored under its name, and the
    idle clip is played and made the active one. *)
Definition loadAnim (name : ActionName) (g : World) : World :=
  let g :=
    mkWorld (player g) (terrain g)
      (fun n => if ActionName_eqb n name then true else actions g n)
      (activeAction g) (verticalVelocity g) (isGrounded g) (lastGroundHeight g)
      (input g) (camera_position g) (params g) (rocks g) (water g)
      (foamSystem g) (raycasts g) (drawn g) in
  if ActionName_eqb name idle then set_activeAction (clip g idle) g else g.

(** The active clip, if any, is one that has been loaded. *)
Definition ClipLoaded (g : World) : Prop :=
  forall name, activeAction g = Some name -> actions g name = true.

(** The rays cast between two states: [g'] has the record of [g] with
    between [lo] and [hi] more rays in front. *)
Definition castBetween (lo hi : nat) (g g' : World) : Prop :=
  exists cast, raycasts g' = cast ++ raycasts g
               /\ (lo <= List.length cast <= hi)%nat.

Definition wallBudget (rev : Revision) : nat :=
  match rev with Rev0 => 1 | _ => 3 end.

Definition groundBudget (rev : Revision) : nat :=
  match rev with Rev2 => 3 | _ => 2 end.

End Surroundings.

(** ** Where the foam is put *)

Section FoamPlaces.
Context {Quaternion : Type} `{H : Host Quaternion}.

Local Abbreviation World := (@World Quaternion) (only parsing).
Local Abbreviation Object3D := (@Object3D Quaternion) (only parsing).

(** The two places the shared placement block puts a particle at: a ring
    around one of the rocks, between its radius and half a unit more; or the
    strip half a unit wide that starts 0.2 inside one of the two banks,
    anywhere along the length of the river. *)
Definition onRockRing (g : World) (x z : Q) : Prop :=
  exists rock a r,
    rock ∈ rocks g /\ radius rock <= r /\ r < radius rock + 0.5
    /\ x = rock_x rock + cos a * r /\ z = rock_z rock + sin a * r.

Definition alongBank (g : World) (x z : Q) : Prop :=
  let edgeLimit := riverParams.width (params g) * 0.5 in
  let lengthLimit := riverParams.length (params g) * 0.5 in
  ((edgeLimit - 0.7 < x /\ x <= edgeLimit - 0.2)
   \/ (- (edgeLimit - 0.2) <= x /\ x < - (edgeLimit - 0.7)))
  /\ - lengthLimit <= z /\ z < lengthLimit.

(** What the seeding has settled about particle [j]: its X and Z cells
    hold the single-precision forms of a place on a rock ring or along a
    bank, its Y cell that of 0.05, and its life and offset lie in the closed
    intervals from 0 to 1 and from 0 to 100. *)
Definition seededAt (g : World) (fs : FoamSystem) (j : nat) : Prop :=
  exists x z y l o,
    positions fs !! (j * 3)%nat = Some (fround x)
    /\ positions fs !! (j * 3 + 1)%nat = Some y
    /\ positions fs !! (j * 3 + 2)%nat = Some (fround z)
    /\ (onRockRing g x z \/ alongBank g x z)
    /\ Qabs (y - 0.05) <= 1 # 1000000
    /\ lives fs !! j = Some l /\ 0 <= l /\ l <= 1
    /\ offsets fs !! j = Some o /\ 0 <= o /\ o <= 100.




Definition positiveRoot : Prop := forall a, 0 <= sqrt a.

End FoamPlaces.

(** ** Loops and the mist *)

Section Mist.
Context {Quaternion : Type} `{H : Host Quaternion}.

Local Abbreviation World := (@World Quaternion) (only parsing).
Local Abbreviation Object3D := (@Object3D Quaternion) (only parsing).

(** A [for (let i = 0; i < count; i++)] loop whose body cannot throw. *)
Definition forEach {S : Type} (count : nat) (body : nat -> S -> S) (init : S) : S :=
  fold_left (fun acc i => body i acc) (seq 0 count) init.

(** The mist is a second [THREE.Points] with the same three attribute
    arrays as the foam; [FoamSystem] holds them. *)

(** One iteration of the loop of [createMistSystem] (main.js 3664-3668):
    the particle is hidden far below, with a random life and offset.  The
    three arrays are [Float32Array]s: 0 and -500 are single-precision
    numbers, the two products of draws are rounded when they are stored. *)
Definition hideParticle (i : nat) (st : FoamSystem * nat) : FoamSystem * nat :=
  let '(ms, n) := st in
  let pos := <[(i * 3)%nat := 0]> (positions ms) in
  let pos := <[(i * 3 + 1)%nat := -500]> pos in
  let pos := <[(i * 3 + 2)%nat := 0]> pos in
  let '(u, n) := nextRandom n in
  let lv := <[i := fround u]> (lives ms) in
  let '(u, n) := nextRandom n in
  let off := <[i := fround (u * 100)]> (offsets ms) in
  (mkFoamSystem pos lv off, n).

(** The number of mist particles in [createMistSystem]. *)
Definition mistCount : nat := 5000.

(** [createMistSystem()] (main.js 3647), the buffers: [n] counts the
    numbers drawn so far. *)
Definition createMistSystem (n : nat) : FoamSystem * nat :=
  let count := mistCount in
  forEach count hideParticle
    (mkFoamSystem (replicate (count * 3) 0) (replicate count 0) (replicate count 0), n).

(** The body of the mist loop of [updateWater] (main.js 3896-3918).  Every
    assignment to a cell of the [Float32Array]s stores the single-precision
    number nearest to its right-hand side, and [lives[i] <= 0] reads the
    stored number back; 1.0 is stored as it is. *)
Definition mistParticle (g : World) (i : nat) (st : FoamSystem * nat)
  : FoamSystem * nat :=
  let '(ms, n) := st in
  let currentWidth := riverParams.width (params g) in
  let halfLength := riverParams.length (params g) / 2 in
  let lv := alter (fun l => fround (l - 0.015)) i (lives ms) in
  let expired := match lv !! i with Some l => Qleb l 0 | None => false end in
  if expired then
    let lv := <[i := 1.0]> lv in
    let '(u, n) := nextRandom n in
    let side : Q := if Qgtb u 0.5 then 1 else -1 in
    let zPos := halfLength * side in
    let '(u, n) := nextRandom n in
    let pos := <[(i * 3)%nat := fround ((u - 0.5) * currentWidth)]> (positions ms) in
    let '(u, n) := nextRandom n in
    let pos := <[(i * 3 + 1)%nat := fround ((u * 1.5) - 0.5)]> pos in
    let '(u, n) := nextRandom n in
    let pos := <[(i * 3 + 2)%nat := fround (zPos + ((u - 0.5) * 3.0))]> pos in
    (mkFoamSystem pos lv (offsets ms), n)
  else
    let pos := alter (fun c => fround (c - 0.15)) (i * 3 + 1)%nat (positions ms) in
    let '(u, n) := nextRandom n in
    let pos := alter (fun c => fround (c + (u - 0.5) * 0.05)) (i * 3)%nat pos in
    (mkFoamSystem pos lv (offsets ms), n).

(** Section 3 of [updateWater]: [count] is [positions.length / 3], and the
    loop runs while [i < count], that is for the indices below the quotient
    rounded up. *)
Definition updateMist (g : World) (st : FoamSystem * nat) : FoamSystem * nat :=
  let count := ((List.length (positions (fst st)) + 2) / 3)%nat in
  forEach count (mistParticle g) st.

(** The band a mist particle lives in: still hidden at or below -500, or,
    [a] passes after its last respawn, not above 1, with at least [a]
    decrements of 0.014999 taken from its life and at most [a] steps of
    0.150001 taken from the lowest respawn height, -0.5 (a stored decrement
    of 0.015 and a stored step of 0.15 are each within a millionth of it). *)
Definition mistBand (l y : Q) : Prop :=
  y <= -500
  \/ exists a : nat, l <= 1 - 0.014999 * inject_Z (Z.of_nat a)
                     /\ -0.5 - 0.150001 * inject_Z (Z.of_nat a) <= y /\ y <= 1.

Definition mistSettled (ms : FoamSystem) : Prop :=
  List.length (positions ms) = (List.length (lives ms) * 3)%nat
  /\ forall i, (i < List.length (lives ms))%nat ->
       exists l y, lives ms !! i = Some l
                   /\ positions ms !! (i * 3 + 1)%nat = Some y
                   /\ 0 <= l /\ l <= 1 /\ mistBand l y.

(** Consecutive mist passes, one per frame; the river settings may differ
    from frame to frame. *)
Fixpoint mistPasses (gs : list World) (st : FoamSystem * nat) : FoamSystem * nat :=
  match gs with
  | [] => st
  | g :: gs => mistPasses gs (updateMist g st)
  end.

End Mist.

(** ** The layout of the river *)

Section RiverLayout.
Context {Quaternion : Type} `{H : Host Quaternion}.

Local Abbreviation World := (@World Quaternion) (only parsing).
Local Abbreviation Object3D := (@Object3D Quaternion) (only parsing).

(** What the layout functions read and write of a three.js object: its
    position and its scale. *)
Record Mesh : Type := mkMesh { mesh_position : Vector3; mesh_scale : Vector3 }.

(** An entry of [rocks] with its debug mesh: [{ x, z, radius, mesh }]. *)
Record Anchor : Type := mkAnchor { anchor_rock : Rock; anchor_mesh : option Mesh }.

(** The objects the layout functions place; each is absent until created. *)
Record Layout : Type := mkLayout {
  layout_water : option Mesh;
  layout_foamSystem : option Mesh;
  layout_waterfall : option Mesh;
  layout_waterfall2 : option Mesh;
  layout_mistSystem : option Mesh;
  layout_rocks : list Anchor
}.

Definition moveTo (v : Vector3) (m : Mesh) : Mesh := mkMesh v (mesh_scale m).

Definition scaleTo (v : Vector3) (m : Mesh) : Mesh := mkMesh (mesh_position m) v.

(** [updateRiverHeight()] (main.js 3500, 920). *)
Definition updateRiverHeight (pa : riverParams.t) (s : Layout) : Layout :=
  let waterHeight := riverParams.waterHeight pa in
  let waterX := riverParams.waterX pa in
  let waterZ := riverParams.waterZ pa in
  mkLayout
    (moveTo (mkVector3 waterX waterHeight waterZ) <$> layout_water s)
    (moveTo (mkVector3 waterX waterHeight waterZ) <$> layout_foamSystem s)
    (moveTo (mkVector3 waterX (waterHeight - (riverParams.waterfallDrop pa / 2))
               (waterZ + (riverParams.length pa / 2))) <$> layout_waterfall s)
    (moveTo (mkVector3 waterX (waterHeight - (riverParams.waterfallDrop pa / 2))
               (waterZ - (riverParams.length pa / 2))) <$> layout_waterfall2 s)
    (moveTo (mkVector3 waterX waterHeight waterZ) <$> layout_mistSystem s)
    (map (fun rock =>
            mkAnchor (anchor_rock rock)
              (moveTo (mkVector3 (waterX + rock_x (anchor_rock rock))
                         (waterHeight - 0.8)
                         (waterZ + rock_z (anchor_rock rock)))
                 <$> anchor_mesh rock))
       (layout_rocks s)).

(** [updateWaterScale()] (main.js 3537, 957). *)
Definition updateWaterScale (pa : riverParams.t) (s : Layout) : Layout :=
  let s :=
    mkLayout
      (scaleTo (mkVector3 (riverParams.width pa / 9) (riverParams.length pa / 60) 1)
         <$> layout_water s)
      (layout_foamSystem s)
      (scaleTo (mkVector3 (riverParams.width pa / 9)
                  (riverParams.waterfallDrop pa / 30) 1) <$> layout_waterfall s)
      (scaleTo (mkVector3 (riverParams.width pa / 9)
                  (riverParams.waterfallDrop pa / 30) 1) <$> layout_waterfall2 s)
      (layout_mistSystem s)
      (layout_rocks s) in
  updateRiverHeight pa s.

(** [createFoamMarker(x, z, radius)] (main.js 3481, 901): the marker is
    stored relative to the water, its mesh placed in world space. *)
Definition createFoamMarker (pa : riverParams.t) (x z radius : Q) (s : Layout)
  : Layout :=
  let relX := x - riverParams.waterX pa in
  let relZ := z - riverParams.waterZ pa in
  let mesh := mkMesh (mkVector3 x (riverParams.waterHeight pa) z) (mkVector3 1 1 1) in
  mkLayout (layout_water s) (layout_foamSystem s) (layout_waterfall s)
    (layout_waterfall2 s) (layout_mistSystem s)
    (layout_rocks s ++ [mkAnchor (mkRock relX relZ radius) (Some mesh)]).

(** The sizes of the plane geometries of the water and of the falls. *)
Definition planeWidth : Q := 9.

Definition planeLength : Q := 60.

Definition fallHeight : Q := 30.

End RiverLayout.

(** ** Sounds *)

Section Sounds.
Context {Quaternion : Type} `{H : Host Quaternion}.

Local Abbreviation World := (@World Quaternion) (only parsing).
Local Abbreviation Object3D := (@Object3D Quaternion) (only parsing).

(** [Math.max(a, b)] and [Math.min(a, b)] on numbers. *)
Definition Math_max (a b : Q) : Q := if Qltb a b then b else a.

Definition Math_min (a b : Q) : Q := if Qltb b a then b else a.

(** [a.distanceTo(b)]. *)
Definition distanceTo (a b : Vector3) : Q :=
  let dx := vx a - vx b in
  let dy := vy a - vy b in
  let dz := vz a - vz b in
  sqrt (dx * dx + dy * dy + dz * dz).

(** The two radii of a proximity sound. *)
Record Zone : Type := mkZone { triggerDist : Q; resetDist : Q }.

(** The zones of [animate] (main.js 2960-3062). *)
Definition fishermanZone : Zone := mkZone 8.0 20.0.

Definition oxenZone : Zone := mkZone 10.0 25.0.

Definition cowZone : Zone := mkZone 8.0 20.0.

Definition sheepZone : Zone := mkZone 6.0 15.0.

Definition deerZone : Zone := mkZone 12.0 30.0.

(** The block repeated for the fisherman, the oxen, each cow, each sheep and
    the deer: [played] is the flag of the sound, [isPlaying] what the sound
    reports; the result is the new flag and whether [play()] is called (the
    sheep also draw a playback rate before they call it). *)
Definition proximity (zone : Zone) (dist : Q) (isPlaying played : bool)
  : bool * bool :=
  if negb played && Qltb dist (triggerDist zone) then (true, negb isPlaying)
  else if played && Qgtb dist (resetDist zone) then (false, false)
  else (played, false).

(** The block with its guard: nothing happens until the player and the
    sound buffer are there. *)
Definition proximitySound (zone : Zone) (at_ : Vector3) (g : World)
    (loaded isPlaying played : bool) : bool * bool :=
  match player g with
  | Some p =>
    if loaded
    then proximity zone (distanceTo (position p) at_) isPlaying played
    else (played, false)
  | None => (played, false)
  end.

(** The sounds that have such a block. *)
Inductive Source : Type := fisherman | oxen | cow | sheep | deer.

Definition zoneOf (s : Source) : Zone :=
  match s with
  | fisherman => fishermanZone
  | oxen => oxenZone
  | cow => cowZone
  | sheep => sheepZone
  | deer => deerZone
  end.

(** Whether the loader of the sound starts a timer that calls the sound
    again and again: each cow has [scheduleCow1], [scheduleCow2] or
    [scheduleCow3] (main.js 2422-2476), each sheep [scheduleBaa] (main.js
    2517-2528), the deer [scheduleDeer] (main.js 2727-2735); the loaders of
    the fisherman (main.js 2365-2375) and of the oxen (main.js 2387-2398) set
    no timer. *)
Definition scheduled (s : Source) : bool :=
  match s with
  | fisherman | oxen => false
  | cow | sheep | deer => true
  end.

(** The body of such a timer callback, whether it calls [play()]: it looks
    at [isPlaying] only, not at the flag of the proximity block (the cows and
    the sheep also draw a playback rate, and every callback draws the delay
    of the next one). *)
Definition schedule (isPlaying : bool) : bool := negb isPlaying.

(** What runs for a sound, in the order in which it runs: a frame of
    [animate], given by the state of the program, whether the buffer is
    loaded and whether the sound is playing, or a timer callback, given by
    whether the sound is playing. *)
Inductive SoundEvent : Type :=
  | animateFrame (g : World) (loaded isPlaying : bool)
  | timerFires (isPlaying : bool).

(** The flag of a sound and its [play()] calls. *)
Record Heard : Type := mkHeard {
  heard_played : bool;
  playsByFrames : nat;
  playsByTimers : nat
}.

(** A sound over consecutive events.  A sound without a timer has no timer
    events: one in the list counts for nothing. *)
Fixpoint soundEvents (s : Source) (at_ : Vector3)
    (events : list SoundEvent) (played : bool) : Heard :=
  match events with
  | [] => mkHeard played 0 0
  | animateFrame g loaded isPlaying :: rest =>
    let '(played, play) := proximitySound (zoneOf s) at_ g loaded isPlaying played in
    let r := soundEvents s at_ rest played in
    mkHeard (heard_played r) ((if play then 1 else 0) + playsByFrames r)
      (playsByTimers r)
  | timerFires isPlaying :: rest =>
    let r := soundEvents s at_ rest played in
    mkHeard (heard_played r) (playsByFrames r)
      ((if scheduled s && schedule isPlaying then 1 else 0) + playsByTimers r)
  end.

(** The timer callbacks that find the sound silent. *)
Fixpoint silentTimers (events : list SoundEvent) : nat :=
  match events with
  | [] => 0%nat
  | timerFires false :: rest => S (silentTimers rest)
  | _ :: rest => silentTimers rest
  end.

(** The player stays within [radius] of [at_] in every frame of [events]. *)
Definition staysWithin (radius : Q) (at_ : Vector3) (events : list SoundEvent)
  : Prop :=
  Forall (fun e => match e with
                   | animateFrame g _ _ =>
                     forall p, player g = Some p -> distanceTo (position p) at_ <= radius
                   | timerFires _ => True
                   end) events.

(** The player's distance to [at_] in a frame, when there is a player. *)
Definition within (radius : Q) (at_ : Vector3) (g : World) : Prop :=
  forall p, player g = Some p -> distanceTo (position p) at_ <= radius.

(** "FOOTSTEP LOGIC" (main.js 3064-3082): the time of the last step and
    whether a step sounds in this frame; [now] is [performance.now()].  The
    playback rate drawn for the step is a setting of the sound. *)
Definition footstep (g : World) (loaded : bool) (now lastStepTime : Q) : Q * bool :=
  match player g with
  | Some _ =>
    if loaded && isGrounded g then
      let k := keys (input g) in
      let isMoving := keys.w k || keys.a k || keys.s k || keys.d k in
      if isMoving then
        let isRunning := keys.shift k in
        let stepInterval := if isRunning then 300 else 500 in
        if Qgtb (now - lastStepTime) stepInterval
        then (now, true) else (lastStepTime, false)
      else (lastStepTime, false)
    else (lastStepTime, false)
  | None => (lastStepTime, false)
  end.

(** The times at which steps sound over consecutive frames, latest first. *)
Fixpoint footstepFrames (frames : list (World * bool * Q)) (lastStepTime : Q)
    (steps : list Q) : Q * list Q :=
  match frames with
  | [] => (lastStepTime, steps)
  | (g, loaded, now) :: rest =>
    let '(lastStepTime, play) := footstep g loaded now lastStepTime in
    footstepFrames rest lastStepTime (if play then now :: steps else steps)
  end.

(** "Update River Sound Position" (main.js 3089-3101). *)
Definition riverSoundPosition (g : World) (p : Object3D) : Vector3 :=
  let halfLength := riverParams.length (params g) / 2 in
  let minZ := riverParams.waterZ (params g) - halfLength in
  let maxZ := riverParams.waterZ (params g) + halfLength in
  let targetZ := vz (position p) in
  let targetZ := Math_max minZ (Math_min maxZ targetZ) in
  mkVector3 (riverParams.waterX (params g)) (riverParams.waterHeight (params g)) targetZ.

(** Step times, latest first, each more than [gap] after the one before it;
    [start] is the time of the last step before the first of them. *)
Fixpoint spaced (gap start : Q) (steps : list Q) : Prop :=
  match steps with
  | [] => True
  | t :: earlier => gap < t - hd start earlier /\ spaced gap start earlier
  end.

End Sounds.

(** ** Keyboard, touch look and joystick *)

Section Controls.
Context {Quaternion : Type} `{H : Host Quaternion}.

Local Abbreviation World := (@World Quaternion) (only parsing).
Local Abbreviation Object3D := (@Object3D Quaternion) (only parsing).

(** [s.toLowerCase()], on the bytes of the UTF-8 form of [s]: the letters A
    to Z are the only characters whose lower-case form is one of the
    characters the handlers compare with. *)
Definition lowerAscii (c : Ascii.ascii) : Ascii.ascii :=
  let n := Ascii.nat_of_ascii c in
  if ((65 <=? n) && (n <=? 90))%nat then Ascii.ascii_of_nat (n + 32) else c.

Fixpoint toLowerCase (s : String.string) : String.string :=
  match s with
  | String.EmptyString => String.EmptyString
  | String.String c rest => String.String (lowerAscii c) (toLowerCase rest)
  end.

(** The [switch] of the two key handlers (main.js 2335-2351 and 2552-2561,
    363-373 and 394-403): [value] is [true] for [keydown] and [false] for
    [keyup].  The case of the key L in the latest [keydown] only logs. *)
Definition keySwitch (value : bool) (key : String.string) (k : keys.t) : keys.t :=
  let key := toLowerCase key in
  if String.eqb key "w"%string then
    keys.mk value (keys.a k) (keys.s k) (keys.d k) (keys.shift k) (keys.space k)
  else if String.eqb key "a"%string then
    keys.mk (keys.w k) value (keys.s k) (keys.d k) (keys.shift k) (keys.space k)
  else if String.eqb key "s"%string then
    keys.mk (keys.w k) (keys.a k) value (keys.d k) (keys.shift k) (keys.space k)
  else if String.eqb key "d"%string then
    keys.mk (keys.w k) (keys.a k) (keys.s k) value (keys.shift k) (keys.space k)
  else if String.eqb key "shift"%string then
    keys.mk (keys.w k) (keys.a k) (keys.s k) (keys.d k) value (keys.space k)
  else if String.eqb key " "%string then
    keys.mk (keys.w k) (keys.a k) (keys.s k) (keys.d k) (keys.shift k) value
  else k.

Definition keydown (key : String.string) (k : keys.t) : keys.t := keySwitch true key k.

Definition keyup (key : String.string) (k : keys.t) : keys.t := keySwitch false key k.

(** An entry of [e.changedTouches]. *)
Record Touch : Type := mkTouch { identifier : Z; clientX : Q; clientY : Q }.

(** The variables of the touch-look handlers and the two Euler angles of the
    camera they write. *)
Record Look : Type := mkLook {
  lastTouchX : Q;
  lastTouchY : Q;
  lookTouchId : option Z;
  rotation_x : Q;
  rotation_y : Q
}.

(** [document]'s [touchstart] (main.js 2253-2273): [onControls] tells
    whether the target of the event lies in the joystick or the action zone;
    a touch on the right 60% of the window becomes the look touch if there is
    none yet. *)
Definition lookTouchStart (innerWidth : Q) (onControls : bool)
    (changedTouches : list Touch) (s : Look) : Look :=
  fold_left
    (fun s touch =>
       if onControls then s
       else if Qgtb (clientX touch) (innerWidth * 0.4) then
         match lookTouchId s with
         | None => mkLook (clientX touch) (clientY touch) (Some (identifier touch))
                     (rotation_x s) (rotation_y s)
         | Some _ => s
         end
       else s)
    changedTouches s.

(** [document]'s [touchmove] (main.js 2275-2303). *)
Definition lookTouchMove (changedTouches : list Touch) (s : Look) : Look :=
  match lookTouchId s with
  | None => s
  | Some _ =>
    fold_left
      (fun s touch =>
         match lookTouchId s with
         | Some id =>
           if (identifier touch =? id)%Z then
             let movementX := clientX touch - lastTouchX s in
             let movementY := clientY touch - lastTouchY s in
             let sensitivity := 0.004 in
             let yaw := rotation_y s - movementX * sensitivity in
             let pitch := rotation_x s - movementY * sensitivity in
             let pitch := Math_max (- PI / 2) (Math_min (PI / 2) pitch) in
             mkLook (clientX touch) (clientY touch) (lookTouchId s) pitch yaw
           else s
         | None => s
         end)
      changedTouches s
  end.

(** [document]'s [touchend] (main.js 2305-2311). *)
Definition lookTouchEnd (changedTouches : list Touch) (s : Look) : Look :=
  fold_left
    (fun s touch =>
       match lookTouchId s with
       | Some id =>
         if (identifier touch =? id)%Z
         then mkLook (lastTouchX s) (lastTouchY s) None (rotation_x s) (rotation_y s)
         else s
       | None => s
       end)
    changedTouches s.

(** The three events of the touch look. *)
Inductive TouchEvent : Type :=
  | touchstart (innerWidth : Q) (onControls : bool) (changedTouches : list Touch)
  | touchmove (changedTouches : list Touch)
  | touchend (changedTouches : list Touch).

Definition dispatch (e : TouchEvent) (s : Look) : Look :=
  match e with
  | touchstart innerWidth onControls touches => lookTouchStart innerWidth onControls touches s
  | touchmove touches => lookTouchMove touches s
  | touchend touches => lookTouchEnd touches s
  end.

(** [updateJoystick(clientX, clientY, centerX, centerY)] (main.js 2217):
    the offset of the knob in pixels and the joystick vector. *)
Definition updateJoystick (clientX clientY centerX centerY : Q) : (Q * Q) * (Q * Q) :=
  let dx := clientX - centerX in
  let dy := clientY - centerY in
  let maxRadius := 50 in
  let distance := Math_min (sqrt (dx * dx + dy * dy)) maxRadius in
  let angle := atan2 dy dx in
  let knobX := cos angle * distance in
  let knobY := sin angle * distance in
  ((knobX, knobY), (knobX / maxRadius, knobY / maxRadius)).

Definition set_joystickVector (v : Q * Q) (i : Input) : Input :=
  mkInput (keys i) v (controls_isLocked i) (gameActive i) (isMobile i)
    (camera_direction i).

(** The joystick zone's [touchstart] and [touchmove] (main.js 2189-2209):
    the centre of the zone is taken from its bounding rectangle. *)
Definition joystickTouch (rect_left rect_top rect_width rect_height : Q)
    (touch : Touch) (i : Input) : Input :=
  let centerX := rect_left + rect_width / 2 in
  let centerY := rect_top + rect_height / 2 in
  set_joystickVector (snd (updateJoystick (clientX touch) (clientY touch) centerX centerY)) i.

(** The joystick zone's [touchend] (main.js 2211-2215). *)
Definition joystickRelease (i : Input) : Input := set_joystickVector (0, 0) i.

(** The contract of [Math.sin] and [Math.cos] used for the joystick and the
    stars. *)
Definition unitCircle : Prop := forall a, cos a * cos a + sin a * sin a == 1.

Definition pitchInRange (s : Look) : Prop :=
  - PI / 2 <= rotation_x s /\ rotation_x s <= PI / 2.

(** The yaw and the last horizontal touch position move together. *)
Definition yawAnchor (s : Look) : Q := rotation_y s + 0.004 * lastTouchX s.

End Controls.

(** ** Animation clips *)

Section Clips.
Context {Quaternion : Type} `{H : Host Quaternion}.

Local Abbreviation World := (@World Quaternion) (only parsing).
Local Abbreviation Object3D := (@Object3D Quaternion) (only parsing).

(** A track of a clip: whether its name matches both regular expressions
    of [loadAnim] (a position track of the hips, root or pelvis), and its
    [values], a [Float32Array] of X, Y, Z triples. *)
Record Track : Type := mkTrack { isRootPosition : bool; values : list Q }.

(** The loop that overwrites X and Z of every frame with those of frame 0
    (main.js 2868-2878, 511-521).  A write outside a typed array is
    ignored. *)
Definition lockInPlace (values : list Q) : list Q :=
  match values !! 0%nat with
  | Some startX =>
    let startZ := values !! 2%nat in
    forEach ((List.length values + 2) / 3)%nat
      (fun k values =>
         let i := (k * 3)%nat in
         let values := <[i := startX]> values in
         match startZ with
         | Some startZ => <[(i + 2)%nat := startZ]> values
         | None => values
         end)
      values
  | None => values
  end.

(** "Force In Place Animation": for every clip but the idle one, on the
    tracks whose name matches. *)
Definition forceInPlace (name : ActionName) (tracks : list Track) : list Track :=
  match name with
  | idle => tracks
  | _ =>
    map (fun track =>
           if isRootPosition track
           then mkTrack (isRootPosition track) (lockInPlace (values track))
           else track)
      tracks
  end.

End Clips.

(** ** Lighting presets *)

Section Lighting.
Context {Quaternion : Type} `{H : Host Quaternion}.

Local Abbreviation World := (@World Quaternion) (only parsing).
Local Abbreviation Object3D := (@Object3D Quaternion) (only parsing).

(** The keys of [lightingPresets], in the order of the object literal. *)
Inductive PresetName : Type := goldenHour | sunset | night.

Definition PresetName_eqb (x y : PresetName) : bool :=
  match x, y with
  | goldenHour, goldenHour | sunset, sunset | night, night => true
  | _, _ => false
  end.

(** An entry of [lightingPresets] (main.js 1362-1402); colours are the
    numbers handed to [setHex]. *)
Record Preset : Type := mkPreset {
  preset_name : String.string;
  sky_turbidity : Q;
  sky_rayleigh : Q;
  sky_mieCoefficient : Q;
  sky_mieDirectionalG : Q;
  sky_elevation : Q;
  sky_azimuth : Q;
  fog_color : Z;
  fog_density : Q;
  preset_background : Z;
  dirLight_color : Z;
  dirLight_intensity : Q;
  hemiLight_skyColor : Z;
  hemiLight_groundColor : Z;
  hemiLight_intensity : Q;
  rimLight_color : Z;
  rimLight_intensity : Q;
  ambient_color : Z;
  ambient_intensity : Q;
  bloom_strength : Q;
  bloom_threshold : Q;
  preset_exposure : Q;
  preset_waterColor : Z
}.

Definition lightingPresets (name : PresetName) : Preset :=
  match name with
  | goldenHour =>
    mkPreset "Sunrise (East)"%string 2.5 1.8 0.08 0.95 8 90
      0xe8d8c8 0.008 0xd4c4b0 0xffd090 5.0 0xffffff 0x444444 1.0
      0x8090ff 1.5 0xffffff 0.2 0.3 0.7 1.2 0x001122
  | sunset =>
    mkPreset "Sunset (West)"%string 4.0 2.5 0.1 0.85 3 270
      0xd4a574 0.01 0xc07050 0xff6030 4.0 0xff9060 0x3a2a4a 0.8
      0x6040a0 2.0 0xff8866 0.15 0.5 0.6 1.0 0x1a0a2a
  | night =>
    mkPreset "Night"%string 0.1 0.1 0.005 0.8 (-5) 270
      0x151530 0.006 0x0a0a20 0x80a0ee 3.5 0x3040aa 0x151525 0.8
      0x6080cc 2.5 0x2030aa 0.8 0.8 0.4 1.1 0x0a1030
  end.

(** [Object.keys(lightingPresets)]. *)
Definition presetKeys : list PresetName := [goldenHour; sunset; night].

(** The sun disc, the moon and its glow. *)
Record SunSphere : Type := mkSunSphere {
  sunSphere_visible : bool;
  sunSphere_position : Vector3;
  sunSphere_color : Z;
  sunSphere_scale : Q
}.

Record Moon : Type := mkMoon { moon_visible : bool; moon_position : Vector3 }.

(** What [applyPreset] writes. *)
Record Stage : Type := mkStage {
  currentPreset : PresetName;
  sun : Vector3;
  uniform_turbidity : Q;
  uniform_rayleigh : Q;
  uniform_mieCoefficient : Q;
  uniform_mieDirectionalG : Q;
  uniform_sunPosition : Vector3;
  scene_fog_color : Z;
  scene_fog_density : Q;
  scene_background : Z;
  stage_dirLight_color : Z;
  stage_dirLight_intensity : Q;
  stage_dirLight_position : Vector3;
  stage_hemiLight_color : Z;
  stage_hemiLight_groundColor : Z;
  stage_hemiLight_intensity : Q;
  stage_rimLight_color : Z;
  stage_rimLight_intensity : Q;
  ambientLight_color : Z;
  ambientLight_intensity : Q;
  bloomPass_strength : Q;
  bloomPass_threshold : Q;
  toneMappingExposure : Q;
  (* the colour and the sun direction of the water, the colours of the falls *)
  stage_water : option (Z * Vector3);
  stage_waterfall : option Z;
  stage_waterfall2 : option Z;
  stage_sunSphere : option SunSphere;
  stage_moon : option Moon;
  stage_moonGlow : option Moon;
  stage_stars : option bool;
  presetButton_textContent : option String.string
}.

(** [v.setFromSphericalCoords(radius, phi, theta)] of three.js. *)
Variable setFromSphericalCoords : Q -> Q -> Q -> Vector3.

(** [applyPreset(presetName)] (main.js 1777) for a key of
    [lightingPresets].  The environment map regenerated at the end is a
    rendering resource and has no state here. *)
Definition applyPreset (presetName : PresetName) (s : Stage) : Stage :=
  let preset := lightingPresets presetName in
  let phi := degToRad (90 - sky_elevation preset) in
  let theta := degToRad (sky_azimuth preset) in
  let sun := setFromSphericalCoords 1 phi theta in
  let isNight := PresetName_eqb presetName night in
  let isSunset := PresetName_eqb presetName sunset in
  let sunSphere :=
    (fun sphere =>
       if negb isNight then
         if isSunset
         then mkSunSphere (negb isNight) (multiplyScalar sun 380) 0xff6030 1.5
         else mkSunSphere (negb isNight) (multiplyScalar sun 380) 0xffdd88 1.0
       else mkSunSphere (negb isNight) (sunSphere_position sphere)
              (sunSphere_color sphere) (sunSphere_scale sphere))
      <$> stage_sunSphere s in
  let moonPhi := degToRad (90 - 25) in
  let moonTheta := degToRad (sky_azimuth preset + 30) in
  let moonDir := setFromSphericalCoords 1 moonPhi moonTheta in
  let moon :=
    (fun m => mkMoon isNight
                (if isNight then multiplyScalar moonDir 350 else moon_position m))
      <$> stage_moon s in
  let moonGlow :=
    match stage_moon s, moon with
    | Some _, Some m' =>
      (fun glow => mkMoon isNight
                     (if isNight then moon_position m' else moon_position glow))
        <$> stage_moonGlow s
    | _, _ => stage_moonGlow s
    end in
  let dirLight_position :=
    match stage_moon s with
    | Some _ => if isNight then multiplyScalar moonDir 50 else multiplyScalar sun 50
    | None => multiplyScalar sun 50
    end in
  mkStage presetName sun
    (sky_turbidity preset) (sky_rayleigh preset) (sky_mieCoefficient preset)
    (sky_mieDirectionalG preset) sun
    (fog_color preset) (fog_density preset) (preset_background preset)
    (dirLight_color preset) (dirLight_intensity preset) dirLight_position
    (hemiLight_skyColor preset) (hemiLight_groundColor preset)
    (hemiLight_intensity preset)
    (rimLight_color preset) (rimLight_intensity preset)
    (ambient_color preset) (ambient_intensity preset)
    (bloom_strength preset) (bloom_threshold preset)
    (preset_exposure preset)
    ((fun _ => (preset_waterColor preset, normalize sun)) <$> stage_water s)
    ((fun _ => preset_waterColor preset) <$> stage_waterfall s)
    ((fun _ => preset_waterColor preset) <$> stage_waterfall2 s)
    sunSphere moon moonGlow
    ((fun _ => isNight) <$> stage_stars s)
    ((fun _ => preset_name preset) <$> presetButton_textContent s).

(** Where [applyPreset] puts the moon at night: 25 degrees up, 30 degrees
    past the azimuth of the preset, 350 away. *)
Definition moonPlace (name : PresetName) : Vector3 :=
  multiplyScalar
    (setFromSphericalCoords 1 (degToRad (90 - 25))
       (degToRad (sky_azimuth (lightingPresets name) + 30))) 350.

(** [presets.indexOf(name)]. *)
Fixpoint indexOf (name : PresetName) (presets : list PresetName) : Z :=
  match presets with
  | [] => -1
  | p :: rest =>
    if PresetName_eqb p name then 0
    else let i := indexOf name rest in if (i <? 0)%Z then -1 else (i + 1)%Z
  end.

(** [togglePreset()] (main.js 1894). *)
Definition togglePreset (s : Stage) : Stage :=
  let presets := presetKeys in
  let currentIndex := indexOf (currentPreset s) presets in
  let nextIndex := Z.rem (currentIndex + 1) (Z.of_nat (List.length presets)) in
  match presets !! Z.to_nat nextIndex with
  | Some name => applyPreset name s
  | None => s
  end.

End Lighting.

(** ** Clouds and stars *)

Section Sky.
Context {Quaternion : Type} `{H : Host Quaternion}.

Local Abbreviation World := (@World Quaternion) (only parsing).
Local Abbreviation Object3D := (@Object3D Quaternion) (only parsing).



(** The star field: the position buffer and the size buffer. *)
Record Stars : Type := mkStars { star_positions : list Q; star_sizes : list Q }.




(** [Math.acos], which the class of host operations does not have. *)
Variable acos : Q -> Q.

(** One iteration of the loop of [createStars] (main.js 1713-1724).  Both
    buffers are [Float32Array]s: each cell holds the single-precision number
    nearest to what is assigned to it. *)
Definition placeStar (i : nat) (st : Stars * nat) : Stars * nat :=
  let '(stars, n) := st in
  let radius := 400 in
  let '(u, n) := nextRandom n in
  let theta := u * PI * 2 in
  let '(u, n) := nextRandom n in
  let phi := acos ((u * 2) - 1) in
  let pos := <[(i * 3)%nat := fround (radius * sin phi * cos theta)]>
               (star_positions stars) in
  let pos := <[(i * 3 + 1)%nat := fround (Qabs (radius * cos phi))]> pos in
  let pos := <[(i * 3 + 2)%nat := fround (radius * sin phi * sin theta)]> pos in
  let '(u, n) := nextRandom n in
  let sizes := <[i := fround (u * 2 + 0.5)]> (star_sizes stars) in
  (mkStars pos sizes, n).

Definition starCount : nat := 3000.

(** [createStars()] (main.js 1707), the two buffers. *)
Definition createStars (n : nat) : Stars * nat :=
  forEach starCount placeStar
    (mkStars (replicate (starCount * 3) 0) (replicate starCount 0), n).


End Sky.

(** ** A concrete host *)

(** A small host on which the definitions can be run: polynomial sine and
    cosine (exact at 0) and an integer square root on thousandths, all three
    returning reduced fractions; a quaternion that is its yaw angle and turns
    to its target at once; and a periodic sequence of draws inside [0, 1). *)
Module Demo.

Definition polySin (x : Q) : Q :=
  let r := Qred x in Qred (r - r * r * r / 6).
Definition polyCos (x : Q) : Q :=
  let r := Qred x in Qred (1 - r * r / 2).
Definition rootOf (x : Q) : Q :=
  Qred (inject_Z (Z.sqrt (Qfloor (x * 1000000))) / 1000).
Definition pi : Q := 355 # 113.
Definition axisAngle (y x : Q) : Q :=
  if Qeq_bool y 0 then (if Qle_bool 0 x then 0 else pi)
  else if Qle_bool 0 y then pi / 2 else - (pi / 2).
Definition draw (n : nat) : Q :=
  inject_Z ((Z.of_nat n * 37 + 11) mod 100) / 100.
Definition turn (v : Vector3) (yaw : Q) : Vector3 :=
  mkVector3 (vx v * polyCos yaw + vz v * polySin yaw) (vy v)
            (vz v * polyCos yaw - vx v * polySin yaw).
Definition norm (v : Vector3) : Q := rootOf (dot v v).
Definition unit (v : Vector3) : Vector3 :=
  if Qeq_bool (norm v) 0 then v else multiplyScalar v (/ norm v).

Definition host : Host Q :=
  {| sin := polySin; cos := polyCos; sqrt := rootOf;
     atan2 := axisAngle; PI := pi;
     random := draw;
     setFromEulerY := fun yaw => yaw;
     equals := Qeq_bool;
     slerp := fun _ target _ => target;
     applyQuaternion := turn;
     normalize := unit;
     vlength := norm |}.

#[local] Existing Instance host.

Definition noKeys : keys.t := keys.mk false false false false false false.
Definition forwardKey : keys.t := keys.mk true false false false false false.
Definition jumpKey : keys.t := keys.mk false false false false false true.

Definition lookingAlongZ (k : keys.t) (locked : bool) : Input :=
  mkInput k (0, 0) locked false false (mkVector3 0 0 1).

(** The river settings, for a given number of foam particles. *)
Definition pond (count : nat) : riverParams.t :=
  riverParams.mk 0.7 0.33 0 count 0.3 30.5 2 (-1.2) 11.5 100 30.

(** Flat ground at height 0 for z < 1, and a block of height [h] from
    z = 1 on.  Rays straight down hit the surface below their origin; rays
    in other directions hit nothing. *)
Definition tier (h : Q) : Terrain :=
  fun r =>
    if Qeq_bool (vy (direction r)) (-1) then
      let ground := if Qle_bool 1 (vz (origin r)) then h else 0 in
      if Qle_bool ground (vy (origin r))
      then [mkIntersection (vy (origin r) - ground)
              (mkVector3 (vx (origin r)) ground (vz (origin r)))]
      else []
    else [].

(** A room: a floor at height 0 and a ceiling at height [c]. *)
Definition room (c : Q) : Terrain :=
  fun r =>
    if Qeq_bool (vy (direction r)) 1 then
      if Qle_bool (vy (origin r)) c
      then [mkIntersection (c - vy (origin r))
              (mkVector3 (vx (origin r)) c (vz (origin r)))]
      else []
    else if Qeq_bool (vy (direction r)) (-1) then
      if Qle_bool 0 (vy (origin r))
      then [mkIntersection (vy (origin r))
              (mkVector3 (vx (origin r)) 0 (vz (origin r)))]
      else []
    else [].

(** Nothing to hit. *)
Definition void : Terrain := fun _ => [].

(** The player with its feet at height [y] over [(0, z)], flagged as
    grounded and at rest, with the idle clip active. *)
Definition placed (t : Terrain) (y z : Q) (k : keys.t) (locked : bool)
    (loaded : ActionName -> bool) : @World Q :=
  mkWorld
    (Some (mkObject3D (mkVector3 0 y z) 0)) (Some t)
    loaded (Some idle)
    0 true 0 (lookingAlongZ k locked) (mkVector3 0 (y + 1.5) (z - 3.5))
    (pond 1) [] None None [] 0%nat.

(** The player at rest at [(0, 0.1, z)] on the lower tier. *)
Definition standing (h z : Q) (k : keys.t) : @World Q :=
  placed (tier h) 0.1 z k true (fun _ => true).

(** The player five units up with nothing below, no key held. *)
Definition falling : @World Q :=
  placed void 5 0 noKeys true (fun _ => true).

(** The jump key held while the pointer is not locked. *)
Definition unlocked : @World Q :=
  placed (tier 1) 0.1 0 jumpKey false (fun _ => true).

(** The jump key held before the jump clip has been loaded. *)
Definition clipless : @World Q :=
  placed (tier 1) 0.1 0 jumpKey true
    (fun name => match name with jump => false | _ => true end).

(** A stretch of river with one rock at the origin of the water, one
    vertex of the water mesh there, and one particle of foam at the same
    place with half of its life left. *)
Definition rocky : @World Q :=
  mkWorld None None (fun _ => false) None
    0 true 0 (lookingAlongZ noKeys false) (mkVector3 0 0 0)
    (pond 1) [mkRock 0 0 1] (Some [mkVector3 0 0 0])
    (Some (mkFoamSystem [0; 0; 0] [0.5] [0])) [] 0%nat.

(** The same river before its foam exists, configured for three
    particles, and after [createFoamSystem]. *)
Definition bare : @World Q :=
  mkWorld None None (fun _ => false) None
    0 true 0 (lookingAlongZ noKeys false) (mkVector3 0 0 0)
    (pond 3) [mkRock 0 0 1] (Some [mkVector3 0 0 0]) None [] 0%nat.


(** The rocky stretch after one [updateWater] pass at time 0. *)
Definition flowing : @World Q :=
  Eval vm_compute in
    match updateWater 0 rocky with Some g => g | None => rocky end.

(** A placeholder for frames that do not reach the ground resolution. *)
Definition nowhere : Vector3 * Q * Intersection * ((@Object3D Q) * (@World Q)) :=
  (mkVector3 0 0 0, 0, mkIntersection 0 (mkVector3 0 0 0),
   (mkObject3D (mkVector3 0 0 0) 0, rocky)).

(** Where a frame of the latest revision, 1/60 s long, enters the ground
    resolution when the player stands at rest on flat ground with no key
    held. *)
Definition arrival : Vector3 * Q * Intersection * ((@Object3D Q) * (@World Q)) :=
  Eval vm_compute in
    match enteringResolution Rev2 (1 # 60) (standing 0.2 0 noKeys) with
    | Some e => e
    | None => nowhere
    end.



(** What a frame of the latest revision, 1/60 s long, leaves of [unlocked]. *)
Definition untouched : @World Q :=
  Eval vm_compute in
    match locomotion Rev2 (1 # 60) unlocked with Normal g | Throw g => g end.

(** The nearest hit of the ray cast upwards from 0.2 above feet that stand
    at height 0.1 in a room 1.5 high. *)
Definition lintel : Intersection :=
  Eval vm_compute in
    match room 1.5 (mkRay (mkVector3 0 (0.1 + 0.2) 0) upVector) with
    | hit :: _ => hit
    | [] => mkIntersection 0 (mkVector3 0 0 0)
    end.

End Demo.

(** ** Further scenes *)

(** A second host, for the properties that rest on the contracts of sine,
    cosine and square root: its sine and cosine are the rational point of the
    unit circle with parameter [a / 2]; the other operations are those of
    [Demo.host]. *)
Module Scene.

Definition circleSin (a : Q) : Q :=
  let t := Qred (a / 2) in Qred (2 * t / (1 + t * t)).
Definition circleCos (a : Q) : Q :=
  let t := Qred (a / 2) in Qred ((1 - t * t) / (1 + t * t)).

Definition spin (v : Vector3) (yaw : Q) : Vector3 :=
  mkVector3 (vx v * circleCos yaw + vz v * circleSin yaw) (vy v)
            (vz v * circleCos yaw - vx v * circleSin yaw).

Definition circle : Host Q :=
  {| sin := circleSin; cos := circleCos; sqrt := Demo.rootOf;
     atan2 := Demo.axisAngle; PI := Demo.pi;
     random := Demo.draw;
     setFromEulerY := fun yaw => yaw;
     equals := Qeq_bool;
     slerp := fun _ target _ => target;
     applyQuaternion := spin;
     normalize := Demo.unit;
     vlength := Demo.norm |}.

(** [Math.acos] near 0, and [setFromSphericalCoords] of three.js, on the
    polynomial sine and cosine. *)
Definition arc (x : Q) : Q := Demo.pi / 2 - x.
Definition spherical (radius phi theta : Q) : Vector3 :=
  let sinPhiRadius := Demo.polySin phi * radius in
  mkVector3 (sinPhiRadius * Demo.polySin theta) (Demo.polyCos phi * radius)
            (sinPhiRadius * Demo.polyCos theta).

(** A well of radius 0.5 with its floor at height 0: a ray straight down
    hits the floor, any other ray the wall. *)
Definition well : Terrain :=
  fun r =>
    if Qeq_bool (vy (direction r)) (-1) then
      if Qle_bool 0 (vy (origin r))
      then [mkIntersection (vy (origin r))
              (mkVector3 (vx (origin r)) 0 (vz (origin r)))]
      else []
    else [mkIntersection 0.5 (addScaledVector (origin r) (direction r) 0.5)].

(** The player at the bottom of the well, the forward key held. *)
Definition walled : @World Q :=
  Demo.placed well 0.1 0 Demo.forwardKey true (fun _ => true).

(** What a frame of the latest revision, 1/60 s long, makes of [walled], and
    of the player at rest on flat ground. *)
Definition stopped : @World Q :=
  Eval vm_compute in
    match @locomotion Q Demo.host Rev2 (1 # 60) walled with
    | Normal g | Throw g => g
    end.

Definition rested : @World Q :=
  Eval vm_compute in
    match @locomotion Q Demo.host Rev2 (1 # 60) (Demo.standing 0 0 Demo.noKeys) with
    | Normal g | Throw g => g
    end.






(** The player stands next to a sound: two frames, then its timer fires
    twice while the sound is silent, then a frame again. *)
Definition grazing : list (@SoundEvent Q) :=
  [animateFrame (Demo.standing 0 0 Demo.noKeys) true false;
   animateFrame (Demo.standing 0 0 Demo.noKeys) true true;
   timerFires false;
   timerFires false;
   animateFrame (Demo.standing 0 0 Demo.noKeys) true false].


(** One particle of mist, still hidden, with half of its life left. *)
Definition wisp : FoamSystem := mkFoamSystem [0; -500; 0] [1 # 2] [0].

(** The water and the two falls as created, before they are laid out. *)
Definition riverbed : Layout :=
  let plane := mkMesh (mkVector3 0 0 0) (mkVector3 1 1 1) in
  mkLayout (Some plane) None (Some plane) (Some plane) None [].

(** The water plane of [riverbed] once laid out for the river of [Demo.rocky]. *)
Definition surface : Mesh :=
  Eval vm_compute in
    match layout_water (updateWaterScale (params Demo.rocky) riverbed) with
    | Some w => w
    | None => mkMesh (mkVector3 0 0 0) (mkVector3 1 1 1)
    end.

(** A walk of two frames, 600 ms and 700 ms after the last step. *)
Definition strides : list (@World Q * bool * Q) :=
  [(Demo.standing 0 0 Demo.forwardKey, true, 600);
   (Demo.standing 0 0 Demo.forwardKey, true, 700)].

(** A finger that lands right of the middle of a window 1000 wide and is
    dragged far down and to the left. *)
Definition finger : Touch := mkTouch 1 600 300.
Definition dragged : Touch := mkTouch 1 350 5000.
Definition looking : Look := mkLook 600 300 (Some 1%Z) 0 0.

(** A hips track of two frames that moves along X and Z, and a track of
    another bone. *)
Definition hips : Track := mkTrack true [1; 2; 3; 4; 5; 6].
Definition spine : Track := mkTrack false [1; 2; 3; 4; 5; 6].

(** The stage with every object in place, before any preset is applied. *)
Definition stage : Stage :=
  let o := mkVector3 0 0 0 in
  mkStage goldenHour o 0 0 0 0 o 0 0 0 0 0 o 0 0 0 0 0 0 0 0 0 0
    (Some (0%Z, o)) (Some 0%Z) (Some 0%Z)
    (Some (mkSunSphere true o 0 1)) (Some (mkMoon false o))
    (Some (mkMoon false o)) (Some false) (Some "Sunrise (East)"%string).

End Scene.

(** * Properties *)

Create HintDb foam.

(** ** Comparisons *)

Lemma Qleb_le (a b : Q) : Qleb a b = true <-> a <= b.
Proof. unfold Qleb. apply Qle_bool_iff. Qed.

Lemma Qltb_lt (a b : Q) : Qltb a b = true <-> a < b.
Proof.
  unfold Qltb. rewrite negb_true_iff. split; intros E.
  - apply Qnot_le_lt. intros L. apply Qle_bool_iff in L. congruence.
  - destruct (Qle_bool b a) eqn:L; [|reflexivity].
    apply Qle_bool_iff in L. exfalso. apply (Qlt_not_le _ _ E L).
Qed.

Lemma Qgtb_gt (a b : Q) : Qgtb a b = true <-> b < a.
Proof. unfold Qgtb. apply Qltb_lt. Qed.

Lemma Qleb_nle (a b : Q) : Qleb a b = false <-> ~ a <= b.
Proof.
  rewrite <- Qleb_le. destruct (Qleb a b); split; congruence.
Qed.

Lemma Qltb_nlt (a b : Q) : Qltb a b = false <-> ~ a < b.
Proof.
  rewrite <- Qltb_lt. destruct (Qltb a b); split; congruence.
Qed.

Lemma Qgtb_ngt (a b : Q) : Qgtb a b = false <-> ~ b < a.
Proof. unfold Qgtb. apply Qltb_nlt. Qed.

(** Splits on the scrutinee of a conditional of the goal. *)
Ltac split_if :=
  match goal with
  | |- context [if ?c then _ else _] => destruct c eqn:?
  | |- context [match ?c with _ :: _ => _ | [] => _ end] => destruct c eqn:?
  | |- context [match ?c with Some _ => _ | None => _ end] => destruct c eqn:?
  end.

(** ** Doubles and single precision *)

Lemma two_power_pos (e : Z) : 0 < 2 ^ e.
Proof. apply Qpower_0_lt. reflexivity. Qed.

Lemma two_power_succ (e : Z) : 2 ^ (e + 1) == 2 * 2 ^ e.
Proof. rewrite Qpower_plus by discriminate. change (2 ^ 1) with 2. ring. Qed.

Lemma two_power_Z (n : Z) : (0 <= n)%Z -> inject_Z (2 ^ n) == 2 ^ n.
Proof. intros N. rewrite Zpower_Qpower by exact N. reflexivity. Qed.

Lemma log2_bounds (n : Z) :
  (0 < n)%Z -> 2 ^ Z.log2 n <= inject_Z n /\ inject_Z n < 2 * 2 ^ Z.log2 n.
Proof.
  intros N. destruct (Z.log2_spec n N) as [Lo Hi].
  pose proof (Z.log2_nonneg n) as A.
  rewrite <- two_power_succ.
  change 2 with (inject_Z 2). rewrite <- !Zpower_Qpower by lia.
  rewrite <- Zle_Qle, <- Zlt_Qlt. unfold Z.succ in Hi. split; assumption.
Qed.

Lemma exponentOf_spec (x : Q) :
  0 < x -> 2 ^ exponentOf x <= x /\ x < 2 ^ (exponentOf x + 1).
Proof.
  intros X. unfold exponentOf. cbv zeta.
  destruct x as [n d]. cbn [Qnum Qden].
  assert (N : (0 < n)%Z).
  { unfold Qlt in X. simpl in X. lia. }
  destruct (log2_bounds n N) as [A0 A1].
  destruct (log2_bounds (Zpos d) eq_refl) as [B0 B1].
  pose proof (two_power_pos (Z.log2 n)) as Ap.
  pose proof (two_power_pos (Z.log2 (Zpos d))) as Bp.
  set (A := 2 ^ Z.log2 n) in *. set (B := 2 ^ Z.log2 (Zpos d)) in *.
  assert (P : 2 ^ (Z.log2 n - Z.log2 (Z.pos d)) * B == A).
  { rewrite Qpower_minus by discriminate. fold A B. field. lra. }
  pose proof (two_power_pos (Z.log2 n - Z.log2 (Z.pos d))) as Pp.
  set (p := 2 ^ (Z.log2 n - Z.log2 (Z.pos d))) in *.
  assert (XD : (n # d) * inject_Z (Zpos d) == inject_Z n).
  { rewrite (Qmake_Qdiv n d). field. discriminate. }
  assert (Dp : 0 < inject_Z (Zpos d)) by reflexivity.
  set (D := inject_Z (Zpos d)) in *. set (Nq := inject_Z n) in *.
  set (x := n # d) in *.
  set (e0 := (Z.log2 n - Z.log2 (Z.pos d))%Z) in *.
  clearbody x D Nq A B.
  destruct (Qle_bool p x) eqn:C.
  - apply Qle_bool_iff in C. split; [exact C|].
    rewrite two_power_succ. fold p. clearbody p.
    apply Qnot_le_lt. intros Bad.
    assert (2 * p * D <= x * D) by (apply Qmult_le_compat_r; lra).
    assert (p * B <= p * D) by (apply Qmult_le_l; lra).
    lra.
  - assert (C' : x < p).
    { apply Qnot_le_lt. intros Bad. apply Qle_bool_iff in Bad. congruence. }
    replace (e0 - 1 + 1)%Z with e0 by lia.
    fold p. split; [|exact C'].
    assert (E : 2 * 2 ^ (e0 - 1) == p).
    { rewrite <- two_power_succ. unfold p. apply Qpower_comp; [reflexivity|lia]. }
    set (h := 2 ^ (e0 - 1)) in *. clearbody h p.
    apply Qnot_lt_le. intros Bad.
    assert (x * D < h * D) by (apply Qmult_lt_compat_r; lra).
    assert (p * D < p * (2 * B)).
    { apply Qmult_lt_l; lra. }
    assert (2 * (h * D) == p * D) by (rewrite <- E; ring).
    lra.
Qed.

(** The exponent is the only one between whose powers the number lies. *)
Lemma exponentOf_unique (x : Q) (e : Z) :
  2 ^ e <= x -> x < 2 ^ (e + 1) -> exponentOf x = e.
Proof.
  intros Lo Hi. assert (X : 0 < x) by (pose proof (two_power_pos e); lra).
  destruct (exponentOf_spec x X) as [Lo' Hi'].
  destruct (Z.lt_trichotomy (exponentOf x) e) as [Lt|[Eq|Gt]]; [|exact Eq|]; exfalso.
  - assert (2 ^ (exponentOf x + 1) <= 2 ^ e)
      by (apply Qpower_le_compat_l; [lia|discriminate]).
    lra.
  - assert (2 ^ (e + 1) <= 2 ^ exponentOf x)
      by (apply Qpower_le_compat_l; [lia|discriminate]).
    lra.
Qed.

Lemma roundHalfEven_near (m : Q) :
  roundHalfEven m = Qfloor m \/ roundHalfEven m = (Qfloor m + 1)%Z.
Proof.
  unfold roundHalfEven. cbv zeta.
  destruct (_ ?= _); [destruct (Z.even _)| |]; auto.
Qed.

Lemma roundHalfEven_monotone (m1 m2 : Q) :
  m1 <= m2 -> (roundHalfEven m1 <= roundHalfEven m2)%Z.
Proof.
  intros L. pose proof (Qfloor_resp_le _ _ L) as F.
  destruct (Z.eq_dec (Qfloor m1) (Qfloor m2)) as [E|Ne].
  - unfold roundHalfEven. cbv zeta. rewrite <- E.
    destruct (Qcompare_spec (m1 - inject_Z (Qfloor m1)) (1 # 2)) as [A|A|A];
      destruct (Qcompare_spec (m2 - inject_Z (Qfloor m1)) (1 # 2)) as [B|B|B];
      try (destruct (Z.even (Qfloor m1))); try lia; exfalso; lra.
  - destruct (roundHalfEven_near m1) as [-> | ->],
             (roundHalfEven_near m2) as [-> | ->]; lia.
Qed.

Lemma roundHalfEven_integer (k : Z) : roundHalfEven (inject_Z k) = k.
Proof.
  unfold roundHalfEven. cbv zeta. rewrite Qfloor_Z.
  destruct (Qcompare_spec (inject_Z k - inject_Z k) (1 # 2)) as [A|A|A];
    [exfalso; lra|reflexivity|exfalso; lra].
Qed.

Lemma roundHalfEven_exact (m : Q) (k : Z) : m == inject_Z k -> roundHalfEven m = k.
Proof.
  intros E. rewrite <- (roundHalfEven_integer k).
  apply Z.le_antisymm; apply roundHalfEven_monotone; lra.
Qed.

(** The nearest integer is at most a half away. *)
Lemma roundHalfEven_error (m : Q) :
  Qabs (inject_Z (roundHalfEven m) - m) <= 1 # 2.
Proof.
  pose proof (Qfloor_le m) as Lo. pose proof (Qlt_floor m) as Hi.
  rewrite inject_Z_plus in Hi. change (inject_Z 1) with 1 in Hi.
  unfold roundHalfEven. cbv zeta.
  destruct (Qcompare_spec (m - inject_Z (Qfloor m)) (1 # 2)) as [A|A|A];
    [destruct (Z.even (Qfloor m))| |];
    rewrite ?inject_Z_plus; change (inject_Z 1) with 1;
    set (f := inject_Z (Qfloor m)) in *; clearbody f;
    apply Qabs_Qle_condition; split; lra.
Qed.

Section Bits.
Variable bits : Z.
Hypothesis bits_pos : (1 <= bits)%Z.

Lemma significand_range (x : Q) :
  0 < x ->
  2 ^ exponentOf x <= significand bits x
  /\ significand bits x <= 2 ^ (exponentOf x + 1).
Proof.
  intros X. destruct (exponentOf_spec x X) as [Lo Hi].
  unfold significand. cbv zeta.
  set (e := exponentOf x) in *.
  pose proof (two_power_pos (e - (bits - 1))) as Qp.
  assert (E : 2 ^ e == inject_Z (2 ^ (bits - 1)) * 2 ^ (e - (bits - 1))).
  { rewrite two_power_Z by lia.
    rewrite <- Qpower_plus by discriminate. apply Qpower_comp; [reflexivity|lia]. }
  assert (E1 : 2 ^ (e + 1) == inject_Z (2 ^ bits) * 2 ^ (e - (bits - 1))).
  { rewrite two_power_Z by lia.
    rewrite <- Qpower_plus by discriminate. apply Qpower_comp; [reflexivity|lia]. }
  set (q := 2 ^ (e - (bits - 1))) in *.
  assert (M0 : inject_Z (2 ^ (bits - 1)) <= x / q).
  { apply Qle_shift_div_l; [exact Qp|]. lra. }
  assert (M1 : x / q <= inject_Z (2 ^ bits)).
  { apply Qle_shift_div_r; [exact Qp|]. lra. }
  apply roundHalfEven_monotone in M0, M1.
  rewrite roundHalfEven_integer in M0, M1.
  rewrite Zle_Qle in M0, M1.
  split.
  - rewrite E. apply Qmult_le_compat_r; [exact M0|lra].
  - rewrite E1. apply Qmult_le_compat_r; [exact M1|lra].
Qed.

Lemma significand_monotone (x y : Q) :
  0 < x -> x <= y -> significand bits x <= significand bits y.
Proof.
  intros X L. assert (Y : 0 < y) by lra.
  destruct (exponentOf_spec x X) as [Xlo Xhi].
  destruct (exponentOf_spec y Y) as [Ylo Yhi].
  destruct (significand_range x X) as [Sx0 Sx1].
  destruct (significand_range y Y) as [Sy0 Sy1].
  destruct (Z.lt_trichotomy (exponentOf x) (exponentOf y)) as [Lt|[Eq|Gt]].
  - assert (2 ^ (exponentOf x + 1) <= 2 ^ exponentOf y).
    { apply Qpower_le_compat_l; [lia|discriminate]. }
    lra.
  - unfold significand. cbv zeta. rewrite Eq.
    pose proof (two_power_pos (exponentOf y - (bits - 1))) as Qp.
    set (q := 2 ^ (exponentOf y - (bits - 1))) in *.
    apply Qmult_le_compat_r; [|lra].
    rewrite <- Zle_Qle. apply roundHalfEven_monotone.
    apply Qmult_le_compat_r; [exact L|].
    apply Qlt_le_weak, Qinv_lt_0_compat, Qp.
  - exfalso. assert (2 ^ (exponentOf y + 1) <= 2 ^ exponentOf x).
    { apply Qpower_le_compat_l; [lia|discriminate]. }
    lra.
Qed.

Lemma significand_pos (x : Q) : 0 < x -> 0 < significand bits x.
Proof.
  intros X. destruct (significand_range x X) as [Lo _].
  pose proof (two_power_pos (exponentOf x)). lra.
Qed.

Lemma nearest_monotone (x y : Q) : x <= y -> nearest bits x <= nearest bits y.
Proof.
  intros L. unfold nearest.
  destruct (Qcompare_spec x 0) as [X|X|X]; destruct (Qcompare_spec y 0) as [Y|Y|Y];
    try lra.
  - pose proof (significand_pos y Y). lra.
  - assert (0 < - x) by lra. pose proof (significand_pos (- x)). lra.
  - assert (Yp : 0 < - y) by lra.
    pose proof (significand_monotone (- y) (- x) Yp). lra.
  - assert (0 < - x) by lra. pose proof (significand_pos (- x)).
    pose proof (significand_pos y Y). lra.
  - apply significand_monotone; assumption.
Qed.

(** The rounded number is off by at most half of the spacing at the
    exponent of the number. *)
Lemma significand_error (x : Q) :
  0 < x ->
  Qabs (significand bits x - x) <= 2 ^ (exponentOf x - bits).
Proof.
  intros X. unfold significand. cbv zeta.
  pose proof (two_power_pos (exponentOf x - (bits - 1))) as Qp.
  assert (Half : 2 * 2 ^ (exponentOf x - bits) == 2 ^ (exponentOf x - (bits - 1))).
  { rewrite <- two_power_succ. apply Qpower_comp; [reflexivity|lia]. }
  set (q := 2 ^ (exponentOf x - (bits - 1))) in *.
  set (h := 2 ^ (exponentOf x - bits)) in *.
  pose proof (roundHalfEven_error (x / q)) as R.
  set (r := inject_Z (roundHalfEven (x / q))) in *.
  assert (E : r * q - x == (r - x / q) * q) by (field; lra).
  apply Qabs_Qle_condition in R. destruct R as [R0 R1].
  assert (A : (r - x / q) * q <= (1 # 2) * q) by (apply Qmult_le_compat_r; lra).
  assert (B : - (1 # 2) * q <= (r - x / q) * q) by (apply Qmult_le_compat_r; lra).
  clearbody r q h. apply Qabs_Qle_condition. split; lra.
Qed.

(** A multiple of the spacing at its own exponent is a number of the
    format. *)
Lemma significand_exact (x : Q) (k : Z) :
  0 < x -> x == inject_Z k * 2 ^ (exponentOf x - (bits - 1)) ->
  significand bits x == x.
Proof.
  intros X E. unfold significand. cbv zeta.
  pose proof (two_power_pos (exponentOf x - (bits - 1))) as Qp.
  set (q := 2 ^ (exponentOf x - (bits - 1))) in *.
  assert (M : x / q == inject_Z k).
  { apply Qeq_sym in E. clearbody q. rewrite <- E. field. lra. }
  rewrite (roundHalfEven_exact _ _ M). symmetry. exact E.
Qed.

End Bits.

(** Single precision: the conversion keeps the order, is off by at most a
    millionth up to 16 (half of the spacing there is 2^-20), and leaves the
    halves of the integers up to 2^24 as they are. *)

Lemma binary32_monotone (x y : Q) : x <= y -> binary32 x <= binary32 y.
Proof. apply nearest_monotone. lia. Qed.

Lemma binary32_near (x : Q) : Qabs x <= 16 -> Qabs (binary32 x - x) <= 1 # 1000000.
Proof.
  intros A. apply Qabs_Qle_condition in A. destruct A as [A0 A1].
  assert (Pos : forall y, 0 < y -> y <= 16 ->
            Qabs (significand 24 y - y) <= 1 # 1000000).
  { intros y Y0 Y1. pose proof (significand_error 24 y Y0) as S.
    destruct (exponentOf_spec y Y0) as [Lo _].
    assert (E : (exponentOf y <= 4)%Z).
    { apply (Qpower_le_compat_l_inv 2); [|reflexivity].
      change (2 ^ 4) with 16. lra. }
    assert (2 ^ (exponentOf y - 24) <= 2 ^ (-20))
      by (apply Qpower_le_compat_l; [lia|discriminate]).
    assert (2 ^ (-20) <= 1 # 1000000) by (vm_compute; discriminate).
    lra. }
  unfold binary32, nearest.
  destruct (Qcompare_spec x 0) as [X|X|X].
  - apply Qabs_Qle_condition. split; lra.
  - assert (Y0 : 0 < - x) by lra. assert (Y1 : - x <= 16) by lra.
    pose proof (Pos (- x) Y0 Y1) as P. apply Qabs_Qle_condition in P.
    apply Qabs_Qle_condition. split; lra.
  - apply Pos; assumption.
Qed.

Lemma binary32_half (n : Z) :
  (Z.abs n <= 16777216)%Z -> binary32 (inject_Z n / 2) == inject_Z n / 2.
Proof.
  intros N.
  assert (Pos : forall m, (0 < m <= 16777216)%Z ->
            significand 24 (inject_Z m / 2) == inject_Z m / 2).
  { intros m [M0 M1].
    assert (H2 : inject_Z m / 2 == inject_Z m * (1 # 2)) by field.
    assert (X : 0 < inject_Z m / 2).
    { rewrite H2. assert (0 < inject_Z m) by (change 0 with (inject_Z 0); rewrite <- Zlt_Qlt; lia).
      lra. }
    destruct (exponentOf_spec _ X) as [Lo Hi].
    assert (Top : inject_Z m / 2 <= 2 ^ 23).
    { rewrite H2. assert (inject_Z m <= inject_Z 16777216) by (rewrite <- Zle_Qle; lia).
      change (inject_Z 16777216) with 16777216 in *. change (2 ^ 23) with 8388608. lra. }
    assert (E : (exponentOf (inject_Z m / 2) <= 23)%Z).
    { apply (Qpower_le_compat_l_inv 2); [|reflexivity].
      apply Qle_trans with (inject_Z m / 2); assumption. }
    set (e := exponentOf (inject_Z m / 2)) in *.
    destruct (Z.eq_dec e 23%Z) as [E23|Ne].
    - apply (significand_exact 24 _ (2 ^ 23)%Z); [exact X|].
      fold e. rewrite E23. rewrite E23 in Lo.
      change (2 ^ (23 - (24 - 1))) with 1. change (inject_Z (2 ^ 23)) with 8388608.
      change (2 ^ 23) with 8388608 in *. lra.
    - apply (significand_exact 24 _ (m * 2 ^ (22 - e))%Z); [exact X|].
      fold e. rewrite inject_Z_mult, two_power_Z by lia.
      rewrite H2.
      assert (P : 2 ^ (22 - e) * 2 ^ (e - (24 - 1)) == 1 # 2).
      { rewrite <- Qpower_plus by discriminate.
        replace (22 - e + (e - (24 - 1)))%Z with (-1)%Z by lia. reflexivity. }
      set (a := 2 ^ (22 - e)) in *. set (b := 2 ^ (e - (24 - 1))) in *.
      clearbody a b.
      transitivity (inject_Z m * (a * b)); [|ring].
      rewrite P. reflexivity. }
  unfold binary32, nearest.
  assert (H2 : inject_Z n / 2 == inject_Z n * (1 # 2)) by field.
  destruct (Qcompare_spec (inject_Z n / 2) 0) as [X|X|X].
  - lra.
  - assert (Nn : (n < 0)%Z).
    { rewrite Zlt_Qlt. change (inject_Z 0) with 0. lra. }
    assert (Arg : - (inject_Z n / 2) == inject_Z (- n) / 2).
    { rewrite inject_Z_opp. field. }
    pose proof (Pos (- n)%Z ltac:(lia)) as P.
    assert (S : significand 24 (- (inject_Z n / 2)) == significand 24 (inject_Z (- n) / 2)).
    { apply Qle_antisym; apply significand_monotone; try lia; lra. }
    rewrite S, P, inject_Z_opp. field.
  - apply Pos. split; [|lia].
    rewrite Zlt_Qlt. change (inject_Z 0) with 0. lra.
Qed.

Lemma binary64_monotone (x y : Q) : x <= y -> binary64 x <= binary64 y.
Proof. apply nearest_monotone. lia. Qed.

(** Rounding to the nearest double keeps the order, and 0 and 1 are
    doubles. *)
Lemma binary64_rounding : Rounding binary64.
Proof.
  split; [exact binary64_monotone|reflexivity|vm_compute; reflexivity].
Qed.

Lemma identity_rounding : Rounding (fun x => x).
Proof. split; [intros x y L; exact L|reflexivity|reflexivity]. Qed.

Lemma fround_monotone (x y : Q) : x <= y -> fround x <= fround y.
Proof. apply binary32_monotone. Qed.

Lemma fround_half (n : Z) :
  (Z.abs n <= 16777216)%Z -> fround (inject_Z n / 2) == inject_Z n / 2.
Proof. apply binary32_half. Qed.

Lemma fround_near (x : Q) : Qabs x <= 16 -> Qabs (fround x - x) <= 1 # 1000000.
Proof. apply binary32_near. Qed.

Section Properties.
Context {Quaternion : Type} `{H : Host Quaternion}.

Local Abbreviation World := (@World Quaternion) (only parsing).
Local Abbreviation Object3D := (@Object3D Quaternion) (only parsing).

(** ** Single precision *)

Lemma fround_proper (x y : Q) : x == y -> fround x == fround y.
Proof.
  intros E. apply Qle_antisym; apply fround_monotone; rewrite E; apply Qle_refl.
Qed.

(** A half of an integer up to 2^24 is stored as it is. *)
Lemma fround_exact (c : Q) (n : Z) :
  c == inject_Z n / 2 -> (Z.abs n <= 16777216)%Z -> fround c == c.
Proof.
  intros E N. rewrite (fround_proper _ _ E), E. apply fround_half, N.
Qed.

(** A number between two numbers that are stored as they are is stored as
    a number between them. *)
Lemma fround_clamp (lo hi x : Q) :
  fround lo == lo -> fround hi == hi -> lo <= x -> x <= hi ->
  lo <= fround x /\ fround x <= hi.
Proof.
  intros Lo Hi A B. split.
  - rewrite <- Lo. apply fround_monotone, A.
  - rewrite <- Hi. apply fround_monotone, B.
Qed.

Lemma fround_0 : fround 0 == 0.
Proof. apply (fround_exact 0 0); [reflexivity|discriminate]. Qed.

Lemma fround_1 : fround 1 == 1.
Proof. apply (fround_exact 1 2); [reflexivity|discriminate]. Qed.

Lemma fround_100 : fround 100 == 100.
Proof. apply (fround_exact 100 200); [reflexivity|discriminate]. Qed.

(** ** The wave field *)

(** Every setter leaves the river configuration alone. *)
Lemma params_updateWaterMesh (time dirX dirY : Q) (g : World) :
  params (updateWaterMesh time dirX dirY g) = params g.
Proof. unfold updateWaterMesh. destruct (water g); reflexivity. Qed.

Lemma params_updateFoam (time dirX dirY : Q) (g g' : World) :
  updateFoam time dirX dirY g = Some g' -> params g' = params g.
Proof.
  unfold updateFoam. destruct (foamSystem g) as [fs|].
  - destruct (forLoop _ _ _) as [[fs' n]|]; simpl; intros E; inversion E.
    reflexivity.
  - intros E. inversion E. reflexivity.
Qed.

Lemma params_updateWater (time : Q) (g g' : World) :
  updateWater time g = Some g' -> params g' = params g.
Proof.
  unfold updateWater. intros E. apply params_updateFoam in E.
  rewrite E. apply params_updateWaterMesh.
Qed.

(** C8.  The wave height is a function of its five arguments and of the two
    river settings [speed] and [waveHeight] only: in any two states of the
    program that agree on these two settings, whatever else differs (player,
    particles, rocks, camera, numbers drawn so far), the same arguments give
    the same height; and evaluating it changes nothing, so that the height at
    given arguments is the same before and after an [updateWater] pass. *)
Theorem getWaveHeight_deterministic
    (g1 g2 : World) (x z time dirX dirY : Q) :
  riverParams.speed (params g1) = riverParams.speed (params g2) ->
  riverParams.waveHeight (params g1) = riverParams.waveHeight (params g2) ->
  getWaveHeight g1 x z time dirX dirY = getWaveHeight g2 x z time dirX dirY
  /\ (forall t g1', updateWater t g1 = Some g1' ->
        getWaveHeight g1' x z time dirX dirY = getWaveHeight g2 x z time dirX dirY).
Proof.
  intros Es Ew.
  assert (E : getWaveHeight g1 x z time dirX dirY
              = getWaveHeight g2 x z time dirX dirY).
  { unfold getWaveHeight. rewrite Es, Ew. reflexivity. }
  split; [exact E|].
  intros t g1' U. rewrite <- E. unfold getWaveHeight.
  rewrite (params_updateWater _ _ _ U). reflexivity.
Qed.

(** ** The foam loop *)

Lemma forLoop_S {S : Type} (count : nat) (body : nat -> S -> option S) (init : S) :
  forLoop (Datatypes.S count) body init = forLoop count body init ≫= body count.
Proof.
  unfold forLoop. rewrite seq_S, fold_left_app. reflexivity.
Qed.


Lemma forLoop_total {S : Type} (P : nat -> S -> Prop) (count : nat)
    (body : nat -> S -> option S) (init : S) :
  P 0%nat init ->
  (forall i s, (i < count)%nat -> P i s -> exists t, body i s = Some t /\ P (Datatypes.S i) t) ->
  exists s', forLoop count body init = Some s' /\ P count s'.
Proof.
  intros P0 Step. induction count as [|n IH].
  - exists init. split; [reflexivity|exact P0].
  - destruct IH as [s [L Ps]].
    { intros i u Hi. apply Step. lia. }
    destruct (Step n s) as [t [B Pt]]; [lia|exact Ps|].
    exists t. rewrite forLoop_S, L. simpl. split; assumption.
Qed.

Lemma rock_index_in_range (u : Q) (rs : list Rock) :
  0 <= u -> u < 1 -> (0 < List.length rs)%nat ->
  exists rock,
    (if (Qfloor (u * inject_Z (Z.of_nat (List.length rs))) <? 0)%Z then None
     else rs !! Z.to_nat (Qfloor (u * inject_Z (Z.of_nat (List.length rs)))))
    = Some rock.
Proof.
  intros U0 U1 L.
  set (len := inject_Z (Z.of_nat (List.length rs))).
  assert (Lpos : 0 < len).
  { unfold len. change 0 with (inject_Z 0). rewrite <- Zlt_Qlt. lia. }
  assert (K0 : (0 <= Qfloor (u * len))%Z).
  { change 0%Z with (Qfloor 0). apply Qfloor_resp_le. nra. }
  assert (K1 : (Qfloor (u * len) < Z.of_nat (List.length rs))%Z).
  { rewrite Zlt_Qlt. apply Qle_lt_trans with (u * len); [apply Qfloor_le|].
    fold len. nra. }
  destruct (Z.ltb_spec (Qfloor (u * len)) 0); [lia|].
  apply lookup_lt_is_Some_2. lia.
Qed.

Lemma movesOnly_refl (i : nat) (pos : list Q) : movesOnly i pos pos.
Proof. split; reflexivity. Qed.

Lemma movesOnly_insert_x (i : nat) (pos pos' : list Q) (v : Q) :
  movesOnly i pos pos' -> movesOnly i pos (<[(i * 3)%nat := v]> pos').
Proof.
  intros [L E]. split.
  - rewrite length_insert. exact L.
  - intros k K0 K2. rewrite list_lookup_insert_ne by congruence. auto.
Qed.

Lemma movesOnly_insert_z (i : nat) (pos pos' : list Q) (v : Q) :
  movesOnly i pos pos' -> movesOnly i pos (<[(i * 3 + 2)%nat := v]> pos').
Proof.
  intros [L E]. split.
  - rewrite length_insert. exact L.
  - intros k K0 K2. rewrite list_lookup_insert_ne by congruence. auto.
Qed.

Lemma movesOnly_alter_x (i : nat) (pos pos' : list Q) (f : Q -> Q) :
  movesOnly i pos pos' -> movesOnly i pos (alter f (i * 3)%nat pos').
Proof.
  intros [L E]. split.
  - rewrite length_alter. exact L.
  - intros k K0 K2. rewrite list_lookup_alter_ne by congruence. auto.
Qed.

Lemma movesOnly_alter_z (i : nat) (pos pos' : list Q) (f : Q -> Q) :
  movesOnly i pos pos' -> movesOnly i pos (alter f (i * 3 + 2)%nat pos').
Proof.
  intros [L E]. split.
  - rewrite length_alter. exact L.
  - intros k K0 K2. rewrite list_lookup_alter_ne by congruence. auto.
Qed.

#[local] Hint Resolve movesOnly_refl movesOnly_insert_x movesOnly_insert_z
  movesOnly_alter_x movesOnly_alter_z : foam.




Lemma placeAtRockOrBank_total (g : World) (i : nat) (pos : list Q) (n : nat) :
  uniform01 ->
  exists r, placeAtRockOrBank g i pos n = Some r.
Proof.
  intros U. unfold placeAtRockOrBank, nextRandom.
  destruct (Qltb (random n) 0.6 && (0 <? List.length (rocks g))%nat) eqn:C.
  - apply andb_true_iff in C as [_ C]. apply Nat.ltb_lt in C.
    destruct (U (S n)) as [U0 U1].
    destruct (rock_index_in_range (random (S n)) (rocks g) U0 U1 C) as [rock R].
    rewrite R. simpl. eauto.
  - eauto.
Qed.

Lemma respawnParticle_total (g : World) (i : nat) (pos : list Q) (n : nat) :
  uniform01 ->
  exists r, respawnParticle g i pos n = Some r.
Proof.
  intros U. unfold respawnParticle, nextRandom.
  destruct (player g) as [p|]; [|apply placeAtRockOrBank_total, U].
  destruct (Qltb _ _ && Qltb _ _); [|apply placeAtRockOrBank_total, U].
  destruct (Qltb _ 2.5); [|apply placeAtRockOrBank_total, U].
  destruct (Qltb (random n) 0.08); [|apply placeAtRockOrBank_total, U].
  eauto.
Qed.


Lemma foamParticle_total (g : World) (time dirX dirY : Q) (i : nat)
    (st : FoamSystem * nat) :
  uniform01 ->
  exists r, foamParticle g time dirX dirY i st = Some r.
Proof.
  intros U. destruct st as [fs n]. unfold foamParticle.
  destruct (match alter _ i (lives fs) !! i with Some l => Qleb l 0 | None => false end).
  - destruct (respawnParticle_total g i (positions fs) n U) as [[pos n1] R].
    rewrite R. simpl. eauto.
  - simpl. eauto.
Qed.








Lemma foamLoop_total (g : World) (time dirX dirY : Q) (count : nat)
    (st : FoamSystem * nat) :
  uniform01 ->
  exists r, forLoop count (foamParticle g time dirX dirY) st = Some r.
Proof.
  intros U.
  destruct (forLoop_total (fun _ _ => True) count
              (foamParticle g time dirX dirY) st I) as [r [E _]].
  - intros i s _ _. destruct (foamParticle_total g time dirX dirY i s U) as [r E].
    exists r. split; [exact E|exact I].
  - exists r. exact E.
Qed.

(** [updateWater] succeeds on a host whose draws lie in [0, 1), and writes
    the water mesh, the foam arrays and the draw counter only. *)
Lemma updateWater_total (time : Q) (g : World) :
  uniform01 ->
  exists g', updateWater time g = Some g'.
Proof.
  intros U. unfold updateWater, updateFoam.
  destruct (foamSystem _) as [fs|]; [|eauto].
  destruct (foamLoop_total (updateWaterMesh time
              (sin (degToRad (riverParams.flowAngle (params g))))
              (cos (degToRad (riverParams.flowAngle (params g)))) g)
              time
              (sin (degToRad (riverParams.flowAngle (params g))))
              (cos (degToRad (riverParams.flowAngle (params g))))
              (riverParams.foamAmount (params (updateWaterMesh time
              (sin (degToRad (riverParams.flowAngle (params g))))
              (cos (degToRad (riverParams.flowAngle (params g)))) g)))
              (fs, drawn (updateWaterMesh time
              (sin (degToRad (riverParams.flowAngle (params g))))
              (cos (degToRad (riverParams.flowAngle (params g)))) g)) U) as [[fs' n'] E].
  rewrite E. simpl. eauto.
Qed.

Lemma updateWater_writes (time : Q) (g g' : World) :
  updateWater time g = Some g' ->
  g' = set_drawn (drawn g') (set_foamSystem (foamSystem g') (set_water (water g') g)).
Proof.
  unfold updateWater, updateFoam, updateWaterMesh.
  destruct g as [pl te ac aa vv ig lg inp cp pa ro wa fo ra dr]; simpl.
  destruct wa as [mesh|]; simpl;
    (destruct fo as [fs|]; simpl;
     [destruct (forLoop _ _ _) as [[fs' n']|]; simpl|];
     intros E; inversion E; reflexivity).
Qed.


Lemma seedParticle_total (g : World) (i : nat) (st : FoamSystem * nat) :
  uniform01 ->
  exists r, seedParticle g i st = Some r.
Proof.
  intros U. destruct st as [fs n]. unfold seedParticle, nextRandom. cbv zeta.
  destruct (Qltb (random n) 0.6 && (0 <? List.length (rocks g))%nat) eqn:C.
  - apply andb_true_iff in C as [_ C]. apply Nat.ltb_lt in C.
    destruct (U (S n)) as [U0 U1].
    destruct (rock_index_in_range (random (S n)) (rocks g) U0 U1 C) as [rock R].
    rewrite R. simpl. eauto.
  - simpl. eauto.
Qed.


(** ** The water pass *)








(** ** The river's pull on the walking speed *)

Lemma inRiver_true (p : Object3D) (g : World) (mesh : list Vector3) :
  water g = Some mesh ->
  Qabs (vx (position p) - riverParams.waterX (params g))
    < riverParams.width (params g) / 2 ->
  Qabs (vz (position p) - riverParams.waterZ (params g))
    < riverParams.length (params g) / 2 ->
  vy (position p) < riverParams.waterHeight (params g) + 0.5 ->
  inRiver p g = true.
Proof.
  intros W X Z Y. unfold inRiver. rewrite W.
  apply Qltb_lt in X, Z, Y. rewrite X, Z, Y. reflexivity.
Qed.

(** In the water the rounded speed follows the order of the computed
    alignments, whatever the rounding. *)
Lemma roundedFlowSpeed_order (fl : Q -> Q) (g : World) (p : Object3D)
    (moveSpeed : Q) (d1 d2 : Vector3) :
  Rounding fl -> inRiver p g = true -> 0 <= moveSpeed ->
  (roundedAlignment fl d1 (flowDir g) <= roundedAlignment fl d2 (flowDir g) ->
   roundedFlowSpeed fl d1 p g moveSpeed <= roundedFlowSpeed fl d2 p g moveSpeed)
  /\ (0 <= roundedAlignment fl d2 (flowDir g) ->
      fl moveSpeed <= roundedFlowSpeed fl d2 p g moveSpeed)
  /\ (roundedAlignment fl d1 (flowDir g) <= 0 ->
      roundedFlowSpeed fl d1 p g moveSpeed <= fl moveSpeed).
Proof.
  intros [Mono F0 F1] R S. unfold roundedFlowSpeed. rewrite R. cbv zeta.
  set (a1 := roundedAlignment fl d1 (flowDir g)).
  set (a2 := roundedAlignment fl d2 (flowDir g)).
  clearbody a1 a2.
  assert (Factor : forall a b, a <= b ->
            fl (1.0 + fl (a * 0.5)) <= fl (1.0 + fl (b * 0.5))).
  { intros a b L. apply Mono.
    assert (fl (a * 0.5) <= fl (b * 0.5)) by (apply Mono; lra). lra. }
  assert (Speed : forall f f', f <= f' -> fl (moveSpeed * f) <= fl (moveSpeed * f')).
  { intros f f' L. apply Mono. rewrite (Qmult_comm moveSpeed f), (Qmult_comm moveSpeed f').
    apply Qmult_le_compat_r; assumption. }
  assert (One : fl (1.0 + fl (0 * 0.5)) == 1).
  { assert (A0 : fl (0 * 0.5) <= fl 0) by (apply Mono; lra).
    assert (B0 : fl 0 <= fl (0 * 0.5)) by (apply Mono; lra).
    assert (A1 : fl (1.0 + fl (0 * 0.5)) <= fl 1) by (apply Mono; lra).
    assert (B1 : fl 1 <= fl (1.0 + fl (0 * 0.5))) by (apply Mono; lra).
    lra. }
  assert (Unit : fl (moveSpeed * 1) == fl moveSpeed).
  { apply Qle_antisym; apply Mono; lra. }
  split; [|split].
  - intros L. apply Speed, Factor, L.
  - intros L.
    assert (A : fl (moveSpeed * 1) <= fl (moveSpeed * fl (1.0 + fl (0 * 0.5))))
      by (apply Speed; lra).
    pose proof (Speed _ _ (Factor _ _ L)). lra.
  - intros L.
    assert (A : fl (moveSpeed * fl (1.0 + fl (0 * 0.5))) <= fl (moveSpeed * 1))
      by (apply Speed; lra).
    pose proof (Speed _ _ (Factor _ _ L)). lra.
Qed.

(** C6.  With the player strictly inside the footprint of the water and its
    feet below the water height plus 0.5, the speed is multiplied by
    [1 + 0.5 * alignment], where the alignment is the dot product of the
    movement direction with the flow direction [(sin rad, 0, cos rad)] of the
    configured flow angle; an unblocked move of the frame advances the
    player along its heading by that scaled speed times delta.  In exact
    arithmetic a positive speed grows strictly with the alignment, is above
    the unscaled speed when the movement goes with the flow and below it
    when it goes against it.  In doubles, where each product and sum is
    rounded, the order is kept but not the strictness: a speed that is not
    negative is not smaller for the larger computed alignment, not below the
    unscaled speed with the flow and not above it against the flow. *)
Theorem flow_speed_multiplier
    (g : World) (p : Object3D) (mesh : list Vector3) (moveSpeed : Q) :
  water g = Some mesh ->
  Qabs (vx (position p) - riverParams.waterX (params g))
    < riverParams.width (params g) / 2 ->
  Qabs (vz (position p) - riverParams.waterZ (params g))
    < riverParams.length (params g) / 2 ->
  vy (position p) < riverParams.waterHeight (params g) + 0.5 ->
  let rad := degToRad (riverParams.flowAngle (params g)) in
  let alignment := fun d : Vector3 => vx d * sin rad + vz d * cos rad in
  (forall d, flowSpeed Rev2 d p g moveSpeed == moveSpeed * (1 + 0.5 * alignment d))
  /\ (forall delta t,
        let d := applyQuaternion (mkVector3 0 0 1) (quaternion p) in
        isMoving Rev2 (input g) = true ->
        fst (wallCheck Rev2 t d p g) = false ->
        position (fst (applyMovement Rev2 delta t (p, g)))
        = addScaledVector (position p) d
            (flowSpeed Rev2 d p g (baseSpeed Rev2 g) * delta))
  /\ (0 < moveSpeed ->
      (forall d1 d2, alignment d1 < alignment d2 ->
         flowSpeed Rev2 d1 p g moveSpeed < flowSpeed Rev2 d2 p g moveSpeed)
      /\ (forall d, 0 < alignment d -> moveSpeed < flowSpeed Rev2 d p g moveSpeed)
      /\ (forall d, alignment d < 0 -> flowSpeed Rev2 d p g moveSpeed < moveSpeed))
  /\ (forall d, roundedFlowSpeed (fun x => x) d p g moveSpeed
                = flowSpeed Rev2 d p g moveSpeed)
  /\ (0 <= moveSpeed ->
      forall d1 d2,
        (roundedAlignment binary64 d1 (flowDir g)
         <= roundedAlignment binary64 d2 (flowDir g) ->
         roundedFlowSpeed binary64 d1 p g moveSpeed
         <= roundedFlowSpeed binary64 d2 p g moveSpeed)
        /\ (0 <= roundedAlignment binary64 d2 (flowDir g) ->
            binary64 moveSpeed <= roundedFlowSpeed binary64 d2 p g moveSpeed)
        /\ (roundedAlignment binary64 d1 (flowDir g) <= 0 ->
            roundedFlowSpeed binary64 d1 p g moveSpeed <= binary64 moveSpeed)).
Proof.
  intros W X Z Y rad alignment. pose proof (inRiver_true p g mesh W X Z Y) as R.
  assert (Eq : forall d, flowSpeed Rev2 d p g moveSpeed
                         == moveSpeed * (1 + 0.5 * alignment d)).
  { intros d. unfold flowSpeed. rewrite R. unfold alignment, rad, dot, flowDir.
    cbv zeta. cbn [vx vy vz]. ring. }
  split; [exact Eq|]. split; [|split; [|split]].
  - intros delta t. cbv zeta. intros M B. unfold applyMovement. rewrite M.
    destruct (wallCheck Rev2 t _ p g) as [blocked g1]. simpl in B. subst blocked.
    reflexivity.
  - intros S. split; [|split].
    + intros d1 d2 L. rewrite (Eq d1), (Eq d2).
      assert (moveSpeed * alignment d1 < moveSpeed * alignment d2)
        by (apply Qmult_lt_l; assumption).
      set (a1 := alignment d1) in *. set (a2 := alignment d2) in *.
      clearbody a1 a2. lra.
    + intros d L. rewrite (Eq d).
      assert (0 < moveSpeed * alignment d) by (apply Qmult_lt_0_compat; assumption).
      set (a := alignment d) in *. clearbody a. lra.
    + intros d L. rewrite (Eq d).
      assert (0 < moveSpeed * - alignment d) by (apply Qmult_lt_0_compat; lra).
      set (a := alignment d) in *. clearbody a. lra.
  - intros d. unfold roundedFlowSpeed, roundedAlignment, flowSpeed, dot. reflexivity.
  - intros S d1 d2.
    apply (roundedFlowSpeed_order binary64 g p moveSpeed d1 d2 binary64_rounding R S).
Qed.

(** ** The controller *)

(** *** What the phases do to velocity and grounded flag *)

Lemma wallRays_state (t : Terrain) (origins : list Vector3) (dir : Vector3)
    (checkDist : Q) (g : World) :
  let g' := snd (wallRays t origins dir checkDist g) in
  verticalVelocity g' = verticalVelocity g /\ isGrounded g' = isGrounded g
  /\ activeAction g' = activeAction g /\ actions g' = actions g
  /\ input g' = input g /\ lastGroundHeight g' = lastGroundHeight g.
Proof.
  revert g. induction origins as [|o rest IH]; intros g; simpl.
  - repeat split.
  - unfold wallRay, raycast. destruct (t _) as [|hit hits]; simpl.
    + destruct (IH (set_raycasts (mkRay o dir :: raycasts g) g)) as (A & B & C & D & E & F).
      repeat split; assumption.
    + destruct (Qltb (distance hit) checkDist); simpl.
      * repeat split.
      * destruct (IH (set_raycasts (mkRay o dir :: raycasts g) g)) as (A & B & C & D & E & F).
        repeat split; assumption.
Qed.

Lemma wallCheck_state (rev : Revision) (t : Terrain) (dir : Vector3)
    (p : Object3D) (g : World) :
  let g' := snd (wallCheck rev t dir p g) in
  verticalVelocity g' = verticalVelocity g /\ isGrounded g' = isGrounded g
  /\ activeAction g' = activeAction g /\ actions g' = actions g
  /\ input g' = input g /\ lastGroundHeight g' = lastGroundHeight g.
Proof. destruct rev; apply wallRays_state. Qed.

Lemma applyMovement_state (rev : Revision) (delta : Q) (t : Terrain)
    (p : Object3D) (g : World) :
  let g' := snd (applyMovement rev delta t (p, g)) in
  verticalVelocity g' = verticalVelocity g /\ isGrounded g' = isGrounded g
  /\ activeAction g' = activeAction g /\ actions g' = actions g
  /\ input g' = input g /\ lastGroundHeight g' = lastGroundHeight g.
Proof.
  unfold applyMovement. destruct (isMoving rev (input g)); [|simpl; repeat split].
  pose proof (wallCheck_state rev t (applyQuaternion (mkVector3 0 0 1) (quaternion p)) p g) as W.
  destruct (wallCheck rev t _ p g) as [blocked g1]. simpl in W.
  destruct blocked; simpl; exact W.
Qed.

Lemma crossfade_state (name : ActionName) (g : World) :
  verticalVelocity (crossfade name g) = verticalVelocity g
  /\ isGrounded (crossfade name g) = isGrounded g.
Proof.
  unfold crossfade. repeat split_if; split; reflexivity.
Qed.










Lemma clampCamera_state (g : World) :
  verticalVelocity (clampCamera g) = verticalVelocity g
  /\ isGrounded (clampCamera g) = isGrounded g
  /\ activeAction (clampCamera g) = activeAction g.
Proof. unfold clampCamera. split_if; repeat split. Qed.



Lemma probeOldGround_state (rev : Revision) (t : Terrain) (p : Object3D)
    (g : World) :
  snd (probeOldGround rev t p g)
  = set_raycasts (mkRay (add_y (position p) (rayStartHeight rev)) downVector
                    :: raycasts g) g.
Proof. reflexivity. Qed.






Lemma enteringResolution_locomotion (rev : Revision) (delta : Q) (g : World)
    (old : Vector3) (ogh : Q) (hit : Intersection) (st : Object3D * World) :
  enteringResolution rev delta g = Some (old, ogh, hit, st) ->
  exists t, terrain g = Some t
    /\ locomotion rev delta g
       = Normal (set_player (Some (fst (resolveGround rev t old ogh hit st)))
                   (clampCamera (snd (resolveGround rev t old ogh hit st)))).
Proof.
  unfold enteringResolution, locomotion.
  destruct (player g) as [p|]; [|discriminate].
  destruct (terrain g) as [t|]; [|discriminate].
  destruct (probeOldGround rev t p g) as [ogh0 g0].
  intros E. exists t. split; [reflexivity|].
  destruct (if controlsEngaged rev (input g0) then _ else _) as [st2|st2];
    [|discriminate].
  unfold postMove.
  destruct (probeNewGround rev t st2) as [[|h hs] st3]; [discriminate|].
  inversion E; subst.
  destruct (resolveGround _ _ _ _ _ _) as [p4 g4]. reflexivity.
Qed.

(** After the control block nothing writes [activeAction], and the vertical
    velocity is either kept or zeroed. *)
Lemma postMove_state (rev : Revision) (t : Terrain) (old : Vector3) (ogh : Q)
    (p : Object3D) (g : World) :
  let g' := postMove rev t old ogh (p, g) in
  activeAction g' = activeAction g
  /\ (verticalVelocity g' = verticalVelocity g \/ verticalVelocity g' = 0).
Proof.
  unfold postMove, probeNewGround, ceilingCheck, resolveGround, revertXZ,
    validGroundLogic, landingLogic, emergencyEscape, snapTo, clampCamera, raycast.
  destruct rev; simpl; repeat split_if; simpl; split; auto.
Qed.

(** ** The ceiling *)

(** What the ceiling check leaves when its ray hits within 1.8. *)
Lemma ceilingCheck_capped
    (t : Terrain) (p : Object3D) (g : World) (hit : Intersection)
    (rest : list Intersection) :
  t (mkRay (add_y (position p) 0.2) upVector) = hit :: rest ->
  distance hit < 1.8 ->
  let p' := fst (ceilingCheck Rev2 t (p, g)) in
  let g' := snd (ceilingCheck Rev2 t (p, g)) in
  vy (position p') <= vy (point hit) - 1.9
  /\ (vy (point hit) - 1.9 < vy (position p) ->
      0 < verticalVelocity g -> verticalVelocity g' = 0)
  /\ (vy (point hit) - 1.9 < vy (position p) ->
      vy (position p') = vy (point hit) - 1.9)
  /\ vx (position p') = vx (position p)
  /\ vz (position p') = vz (position p)
  /\ raycasts g' = mkRay (add_y (position p) 0.2) upVector :: raycasts g.
Proof.
  intros T D. cbv zeta. unfold ceilingCheck, raycast. rewrite T.
  apply Qltb_lt in D. rewrite D. simpl.
  destruct (Qgtb (vy (position p)) (vy (point hit) - 1.9)) eqn:C;
    [apply Qgtb_gt in C | apply Qgtb_ngt in C];
    (destruct (Qgtb (verticalVelocity g) 0) eqn:V;
     [apply Qgtb_gt in V | apply Qgtb_ngt in V]);
    simpl; repeat split; intros; try reflexivity; lra.
Qed.

(** The ground resolution either keeps the height or snaps the player onto
    a ground. *)
Lemma resolveGround_height (rev : Revision) (t : Terrain) (old : Vector3)
    (ogh : Q) (hit : Intersection) (p : Object3D) (g : World) :
  let st' := resolveGround rev t old ogh hit (p, g) in
  vy (position (fst st')) = vy (position p)
  \/ exists ground,
       vy (position (fst st')) = ground + 0.1
       /\ verticalVelocity (snd st') = 0
       /\ isGrounded (snd st') = true.
Proof.
  unfold resolveGround, revertXZ, validGroundLogic, landingLogic,
    emergencyEscape, snapTo, raycast.
  repeat split_if; simpl; eauto.
Qed.

Lemma postMove_unfold (rev : Revision) (t : Terrain) (old : Vector3) (ogh : Q)
    (p : Object3D) (g : World) :
  postMove rev t old ogh (p, g)
  = let down := mkRay (add_y (position p) (rayStartHeight rev)) downVector in
    let st1 := ceilingCheck rev t (p, set_raycasts (down :: raycasts g) g) in
    let st2 := match t down with
               | hit :: _ => resolveGround rev t old ogh hit st1
               | [] => st1
               end in
    set_player (Some (fst st2)) (clampCamera (snd st2)).
Proof.
  unfold postMove, probeNewGround, raycast. cbv zeta.
  destruct (ceilingCheck rev t _) as [p1 g1].
  destruct (t _) as [|hit hits]; [reflexivity|].
  destruct (resolveGround rev t old ogh hit (p1, g1)) as [p2 g2]. reflexivity.
Qed.

(** When the ceiling check has capped the height, the frame ends with the
    player at or below the cap, unless the ground resolution has snapped it
    onto a ground. *)
Lemma postMove_capped (t : Terrain) (old : Vector3) (ogh : Q) (p : Object3D)
    (g : World) (hit : Intersection) (rest : list Intersection) :
  t (mkRay (add_y (position p) 0.2) upVector) = hit :: rest ->
  distance hit < 1.8 ->
  exists p',
    player (postMove Rev2 t old ogh (p, g)) = Some p'
    /\ (vy (position p') <= vy (point hit) - 1.9
        \/ exists ground,
             vy (position p') = ground + 0.1
             /\ verticalVelocity (postMove Rev2 t old ogh (p, g)) = 0
             /\ isGrounded (postMove Rev2 t old ogh (p, g)) = true).
Proof.
  intros T D. rewrite postMove_unfold. cbv zeta.
  set (g0 := set_raycasts _ g).
  destruct (ceilingCheck_capped t p g0 hit rest T D) as (Cap & _).
  destruct (ceilingCheck Rev2 t (p, g0)) as [p1 g1]. simpl in Cap.
  destruct (t (mkRay (add_y (position p) (rayStartHeight Rev2)) downVector))
    as [|ground_hit hits].
  - exists p1. split; [reflexivity|]. left. exact Cap.
  - pose proof (resolveGround_height Rev2 t old ogh ground_hit p1 g1) as R.
    destruct (resolveGround Rev2 t old ogh ground_hit (p1, g1)) as [p2 g2].
    simpl in R. exists p2. split; [reflexivity|].
    destruct (clampCamera_state g2) as (V & G & _).
    destruct R as [Same | (ground & Y & V0 & G1)].
    + left. rewrite Same. exact Cap.
    + right. exists ground.
      split; [exact Y|]. split.
      * transitivity (verticalVelocity (clampCamera g2)); [reflexivity|].
        rewrite V. exact V0.
      * transitivity (isGrounded (clampCamera g2)); [reflexivity|].
        rewrite G. exact G1.
Qed.

(** C5.  When the upward ray cast from 0.2 above the feet hits within 1.8,
    the check leaves the player at or below the hit point minus 1.9, and a
    positive vertical velocity is zeroed when the cap had to be applied; the
    check casts exactly that one ray and moves the player on Y only.  The
    frame then ends with the player still at or below that height, unless
    the ground resolution has snapped it onto a ground. *)
Theorem ceiling_caps_height
    (t : Terrain) (p : Object3D) (g : World) (hit : Intersection)
    (rest : list Intersection) :
  t (mkRay (add_y (position p) 0.2) upVector) = hit :: rest ->
  distance hit < 1.8 ->
  let p' := fst (ceilingCheck Rev2 t (p, g)) in
  let g' := snd (ceilingCheck Rev2 t (p, g)) in
  vy (position p') <= vy (point hit) - 1.9
  /\ (vy (point hit) - 1.9 < vy (position p) ->
      0 < verticalVelocity g -> verticalVelocity g' = 0)
  /\ (vy (point hit) - 1.9 < vy (position p) ->
      vy (position p') = vy (point hit) - 1.9)
  /\ vx (position p') = vx (position p)
  /\ vz (position p') = vz (position p)
  /\ raycasts g' = mkRay (add_y (position p) 0.2) upVector :: raycasts g
  /\ forall old ogh, exists p_end,
       player (postMove Rev2 t old ogh (p, g)) = Some p_end
       /\ (vy (position p_end) <= vy (point hit) - 1.9
           \/ exists ground,
                vy (position p_end) = ground + 0.1
                /\ verticalVelocity (postMove Rev2 t old ogh (p, g)) = 0
                /\ isGrounded (postMove Rev2 t old ogh (p, g)) = true).
Proof.
  intros T D p' g'.
  destruct (ceilingCheck_capped t p g hit rest T D) as (A & B & C & X & Z & R).
  repeat (split; [assumption|]).
  intros old ogh. apply (postMove_capped t old ogh p g hit rest T D).
Qed.

(** C9.  While the player or the terrain is missing, the controller does
    nothing: the state is returned as it is, so position, orientation,
    vertical velocity, grounded flag and last ground height are unchanged, no
    ray is cast, and the frame ends normally.  The whole frame, which still
    runs the water pass, ends normally as well on a host whose draws lie in
    [0, 1), and leaves all of the controller's state and the record of rays
    as they were. *)
Theorem missing_asset_skips_controller
    (rev : Revision) (now delta : Q) (g : World) :
  player g = None \/ terrain g = None ->
  locomotion rev delta g = Normal g
  /\ (uniform01 ->
      exists g', animate rev now delta g = Normal g'
        /\ player g' = player g
        /\ terrain g' = terrain g
        /\ verticalVelocity g' = verticalVelocity g
        /\ isGrounded g' = isGrounded g
        /\ lastGroundHeight g' = lastGroundHeight g
        /\ activeAction g' = activeAction g
        /\ camera_position g' = camera_position g
        /\ raycasts g' = raycasts g).
Proof.
  intros M.
  assert (L : forall g0, player g0 = player g -> terrain g0 = terrain g ->
                locomotion rev delta g0 = Normal g0).
  { intros g0 P T. unfold locomotion. rewrite P, T.
    destruct M as [-> | ->]; [reflexivity|]. destruct (player g); reflexivity. }
  split; [apply L; reflexivity|].
  intros U. unfold animate.
  assert (W : exists g', match updateWater now g with
                         | Some g1 => locomotion rev delta g1
                         | None => Throw g
                         end = Normal g'
        /\ player g' = player g
        /\ terrain g' = terrain g
        /\ verticalVelocity g' = verticalVelocity g
        /\ isGrounded g' = isGrounded g
        /\ lastGroundHeight g' = lastGroundHeight g
        /\ activeAction g' = activeAction g
        /\ camera_position g' = camera_position g
        /\ raycasts g' = raycasts g).
  { destruct (updateWater_total now g U) as [g1 E]. rewrite E.
    pose proof (updateWater_writes now g g1 E) as Wr.
    exists g1. split.
    - apply L; rewrite Wr; reflexivity.
    - rewrite Wr. repeat split. }
  destruct rev; try exact W.
  exists g. rewrite (L g eq_refl eq_refl). repeat split.
Qed.











(** *** The jump *)

Lemma jumpInput_triggered (rev : Revision) (g : World) :
  keys.space (keys (input g)) = true -> isGrounded g = true ->
  actions g jump = true -> activeAction g <> None ->
  jumpInput rev g
  = Normal (set_activeAction (Some jump)
              (set_isGrounded false (set_verticalVelocity (jumpForce rev) g))).
Proof.
  intros K G A N. unfold jumpInput. rewrite K, G. simpl. rewrite A.
  destruct (activeAction g); [|contradiction].
  unfold clip. simpl. rewrite A. reflexivity.
Qed.

(** A frame in which the jump has just switched the clip keeps it to the
    end. *)
Lemma controlApplication_keeps_jump (rev : Revision) (delta : Q) (t : Terrain)
    (p : Object3D) (g : World) :
  keys.space (keys (input g)) = true -> isGrounded g = true ->
  actions g jump = true -> activeAction g <> None ->
  exists p' g', controlApplication rev delta t (p, g) = Normal (p', g')
                /\ activeAction g' = Some jump.
Proof.
  intros K G A N. unfold controlApplication.
  rewrite (jumpInput_triggered rev g K G A N). unfold gravity.
  set (g2 := set_verticalVelocity _ (set_activeAction _ _)).
  set (p2 := set_position _ _).
  assert (T : targetActionName rev g2 = jump).
  { unfold targetActionName, clip. simpl. rewrite A. reflexivity. }
  rewrite T.
  pose proof (applyMovement_state rev delta t p2 g2) as M.
  destruct (applyMovement rev delta t (p2, g2)) as [p3 g3]. simpl in M.
  destruct M as (_ & _ & Ma & Mc & _).
  exists p3, (followCamera p3 (crossfade jump g3)). split; [reflexivity|].
  unfold followCamera, crossfade, clip. simpl. rewrite Ma, Mc. simpl. rewrite A.
  simpl. exact Ma.
Qed.

(** C2, as the code has it.  In any revision:
    - when the jump key is held and the grounded flag is set, the jump
      statement sets the vertical velocity to the jump force (8.0, or 10.0 in
      the latest revision) and clears the flag; if the jump clip is loaded and
      some clip is active it makes the jump clip the active one, and in a
      frame with engaged controls the jump clip is still the active one when
      the frame ends; if the jump clip is not loaded the active clip stays;
    - with the flag cleared the jump statement changes nothing;
    - with the controls not engaged the frame ends normally with the active
      clip as it was and the vertical velocity kept or zeroed. *)
Theorem jump_trigger (rev : Revision) (g : World) :
  (keys.space (keys (input g)) = true -> isGrounded g = true ->
   (forall g', jumpInput rev g = Normal g' \/ jumpInput rev g = Throw g' ->
               verticalVelocity g' = jumpForce rev /\ isGrounded g' = false)
   /\ (actions g jump = true -> activeAction g <> None ->
       (exists g', jumpInput rev g = Normal g' /\ activeAction g' = Some jump)
       /\ forall delta p t,
            player g = Some p -> terrain g = Some t ->
            controlsEngaged rev (input g) = true ->
            exists g', locomotion rev delta g = Normal g'
                       /\ activeAction g' = Some jump)
   /\ (actions g jump = false ->
       exists g', jumpInput rev g = Normal g'
                  /\ activeAction g' = activeAction g))
  /\ (isGrounded g = false -> jumpInput rev g = Normal g)
  /\ (controlsEngaged rev (input g) = false ->
      forall delta, exists g',
        locomotion rev delta g = Normal g'
        /\ activeAction g' = activeAction g
        /\ (verticalVelocity g' = verticalVelocity g \/ verticalVelocity g' = 0)).
Proof.
  split; [|split].
  - intros K G. split; [|split].
    + intros g'. unfold jumpInput. rewrite K, G. simpl.
      destruct (actions g jump); [destruct (activeAction g)|];
        intros [E|E]; inversion E; split; reflexivity.
    + intros A N. split.
      * eexists. split; [apply (jumpInput_triggered rev g K G A N)|reflexivity].
      * intros delta p t P T C. unfold locomotion. rewrite P, T.
        rewrite (surjective_pairing (probeOldGround rev t p g)).
        rewrite probeOldGround_state. simpl input. rewrite C.
        set (g1 := set_raycasts _ g).
        destruct (controlApplication_keeps_jump rev delta t p g1 K G A N)
          as (p' & g' & E & J).
        rewrite E. eexists. split; [reflexivity|].
        destruct (postMove_state rev t (position p)
                    (fst (probeOldGround rev t p g)) p' g') as [Pa _].
        rewrite Pa. exact J.
    + intros A. unfold jumpInput. rewrite K, G. simpl. rewrite A.
      eexists. split; reflexivity.
  - intros G. unfold jumpInput. rewrite G, andb_false_r. reflexivity.
  - intros C delta. unfold locomotion.
    destruct (player g) as [p|]; [|exists g; repeat split; left; reflexivity].
    destruct (terrain g) as [t|]; [|exists g; repeat split; left; reflexivity].
    rewrite (surjective_pairing (probeOldGround rev t p g)).
    rewrite probeOldGround_state. simpl input. rewrite C.
    eexists. split; [reflexivity|].
    apply (postMove_state rev t (position p) (fst (probeOldGround rev t p g)) p
             (set_raycasts _ g)).
Qed.

(** ** Gravity *)

(** The gravity statements of the frame are [integrate] on the pair of
    vertical velocity and height. *)
Lemma gravity_integrate (delta : Q) (p : Object3D) (g : World) :
  let st := gravity delta (p, g) in
  (verticalVelocity (snd st), vy (position (fst st)))
  = integrate delta (verticalVelocity g, vy (position p)).
Proof. reflexivity. Qed.

(** Closed form of [n] steps. *)
Lemma freeFall_closed (n : nat) (dt v y : Q) :
  fst (freeFall n dt (v, y)) == v - 20 * inject_Z (Z.of_nat n) * dt
  /\ snd (freeFall n dt (v, y))
     == y + inject_Z (Z.of_nat n) * v * dt
        - 10 * inject_Z (Z.of_nat n) * (inject_Z (Z.of_nat n) + 1) * dt * dt.
Proof.
  revert v y. induction n as [|n IH]; intros v y.
  - simpl. split; ring.
  - change (freeFall (S n) dt (v, y))
      with (freeFall n dt (v - 20.0 * dt, y + (v - 20.0 * dt) * dt)).
    destruct (IH (v - 20.0 * dt) (y + (v - 20.0 * dt) * dt)) as [Ev Ey].
    rewrite Ev, Ey, Nat2Z.inj_succ. unfold Z.succ. rewrite inject_Z_plus.
    split; ring.
Qed.

(** A frame over a terrain that no ray hits, with the controls engaged and
    neither a movement key nor the jump key held, is one [integrate] step on
    vertical velocity and height. *)
Lemma free_fall_frame (rev : Revision) (delta : Q) (g : World) (p : Object3D)
    (t : Terrain) :
  player g = Some p -> terrain g = Some t -> (forall r, t r = []) ->
  controlsEngaged rev (input g) = true ->
  isMoving rev (input g) = false ->
  keys.space (keys (input g)) = false ->
  exists g' p',
    locomotion rev delta g = Normal g'
    /\ player g' = Some p'
    /\ (verticalVelocity g', vy (position p'))
       = integrate delta (verticalVelocity g, vy (position p)).
Proof.
  intros P T N C M K. unfold locomotion. rewrite P, T.
  unfold probeOldGround, raycast. rewrite N. simpl input. rewrite C.
  unfold controlApplication, jumpInput. simpl input. rewrite K. simpl.
  unfold applyMovement. simpl input. rewrite M.
  unfold postMove, probeNewGround, raycast. rewrite N.
  unfold ceilingCheck, raycast.
  destruct rev; try rewrite N; simpl; eexists; eexists;
    (split; [reflexivity|]); (split; [reflexivity|]);
    unfold clampCamera, followCamera, crossfade;
    repeat split_if; reflexivity.
Qed.

(** C4, as the code has it.  With no ground contact (no ray hits the
    terrain) and no key held, a frame of any revision is one [integrate] step
    on vertical velocity and height.  From any vertical velocity [v0], sixty
    such steps with [dt = 1/60] move the height by [v0 - 61/6] and one step
    with [dt = 1] moves it by [v0 - 20]: the two displacements differ by
    [59/6] whatever [v0] is, while the two final velocities agree. *)
Theorem gravity_displacement_depends_on_step (v0 : Q) :
  (forall rev delta (g : World) (p : Object3D) (t : Terrain),
     player g = Some p -> terrain g = Some t -> (forall r, t r = []) ->
     controlsEngaged rev (input g) = true ->
     isMoving rev (input g) = false ->
     keys.space (keys (input g)) = false ->
     exists g' p',
       locomotion rev delta g = Normal g'
       /\ player g' = Some p'
       /\ (verticalVelocity g', vy (position p'))
          = integrate delta (verticalVelocity g, vy (position p)))
  /\ displacement 60 (1 # 60) v0 == v0 - (61 # 6)
  /\ displacement 1 1 v0 == v0 - 20
  /\ displacement 60 (1 # 60) v0 - displacement 1 1 v0 == 59 # 6
  /\ fst (freeFall 60 (1 # 60) (v0, 0)) == fst (freeFall 1 1 (v0, 0)).
Proof.
  split; [intros rev delta g p t; apply free_fall_frame|].
  unfold displacement.
  destruct (freeFall_closed 60 (1 # 60) v0 0) as [V60 Y60].
  destruct (freeFall_closed 1 1 v0 0) as [V1 Y1].
  rewrite V60, Y60, V1, Y1.
  change (inject_Z (Z.of_nat 60)) with 60.
  change (inject_Z (Z.of_nat 1)) with 1.
  repeat split; ring.
Qed.

End Properties.

(** * Properties of the rest of the program *)

(** ** The frame *)

Section FrameProperties.
Context {Quaternion : Type} `{H : Host Quaternion}.

Local Abbreviation World := (@World Quaternion) (only parsing).
Local Abbreviation Object3D := (@Object3D Quaternion) (only parsing).

Lemma rayStartHeight_pos (rev : Revision) : 0 < rayStartHeight rev.
Proof. destruct rev; reflexivity. Qed.

Lemma maxStepHeight_pos (rev : Revision) : 0 < maxStepHeight rev.
Proof. destruct rev; reflexivity. Qed.

Lemma stepTooHigh_level (rev : Revision) (h : Q) (st : Object3D * World) :
  stepTooHigh rev h h st = false.
Proof.
  destruct st as [p g]. unfold stepTooHigh.
  assert (E : Qgtb (h - h) (maxStepHeight rev) = false).
  { apply Qgtb_ngt. pose proof (maxStepHeight_pos rev). lra. }
  destruct rev; rewrite E; reflexivity.
Qed.

Lemma postMove_level (rev : Revision) (t : Terrain) (old : Vector3) (h : Q)
    (p : Object3D) (g : World) :
  openFlatGround t h ->
  h <= vy (position p) + rayStartHeight rev ->
  vy (position p) <= h + 0.1 -> verticalVelocity g <= 0 ->
  exists p',
    player (postMove rev t old h (p, g)) = Some p'
    /\ position p' = mkVector3 (vx (position p)) (h + 0.1) (vz (position p))
    /\ quaternion p' = quaternion p
    /\ verticalVelocity (postMove rev t old h (p, g)) = 0
    /\ isGrounded (postMove rev t old h (p, g)) = true
    /\ lastGroundHeight (postMove rev t old h (p, g)) = h.
Proof.
  intros [Down Up] Above Y V.
  rewrite postMove_unfold. cbv zeta.
  destruct (Down (add_y (position p) (rayStartHeight rev))) as (hit & rest & T & Hh);
    [exact Above|].
  rewrite T.
  assert (C : forall g0, ceilingCheck rev t (p, g0)
              = (p, match rev with
                    | Rev2 => set_raycasts (mkRay (add_y (position p) 0.2) upVector
                                              :: raycasts g0) g0
                    | _ => g0 end)).
  { intros g0. unfold ceilingCheck, raycast. destruct rev; try reflexivity.
    rewrite Up. reflexivity. }
  rewrite C. unfold resolveGround. rewrite Hh, stepTooHigh_level.
  unfold validGroundLogic.
  assert (Y' : Qleb (vy (position p)) (h + 0.1) = true) by (apply Qleb_le; exact Y).
  rewrite Y'.
  assert (V' : forall g0 : World, verticalVelocity g0 = verticalVelocity g ->
               Qleb (verticalVelocity g0) 0 = true).
  { intros g0 E. apply Qleb_le. rewrite E. exact V. }
  rewrite V' by (destruct rev; reflexivity).
  unfold snapTo, emergencyEscape. cbn [fst snd].
  set (k := Qltb _ (-10)).
  exists (set_position (set_y (position p) (h + 0.1)) p).
  unfold clampCamera.
  destruct k; cbv beta iota; unfold snapTo; cbn -[Qltb]; split_if; cbn;
    repeat split; reflexivity.
Qed.

(** X1.  On open, level ground a player at rest stays at rest: with its feet
    0.1 above ground of height [h], the grounded flag set, no vertical
    velocity, no movement input and the jump key not held, a frame of any
    revision whose delta is not negative and small enough for one step of
    gravity to stay within reach of the downward probe (20 * delta^2 <= probe
    height + 0.1) ends normally with the player at the same X and Z, its feet
    at [h + 0.1], vertical velocity 0, the grounded flag set and [h] recorded
    as last ground height, whether the controls are engaged or not. *)
Theorem rest_is_stable (rev : Revision) (delta h : Q) (g : World)
    (p : Object3D) (t : Terrain) :
  player g = Some p -> terrain g = Some t ->
  openFlatGround t h ->
  vy (position p) == h + 0.1 ->
  isGrounded g = true -> verticalVelocity g == 0 ->
  isMoving rev (input g) = false -> keys.space (keys (input g)) = false ->
  0 <= delta -> 20 * delta * delta <= rayStartHeight rev + 0.1 ->
  exists g' p',
    locomotion rev delta g = Normal g' /\ player g' = Some p'
    /\ position p' = mkVector3 (vx (position p)) (h + 0.1) (vz (position p))
    /\ verticalVelocity g' = 0 /\ isGrounded g' = true
    /\ lastGroundHeight g' = h.
Proof.
  intros P T Flat Y G V M Sp D Small.
  pose proof (rayStartHeight_pos rev) as R.
  unfold locomotion. rewrite P, T.
  unfold probeOldGround, raycast.
  destruct Flat as [Down Up].
  destruct (Down (add_y (position p) (rayStartHeight rev))) as (hit & rest & Th & Hh).
  { simpl. lra. }
  rewrite Th, Hh. cbn [input set_raycasts].
  set (g0 := set_raycasts _ g).
  destruct (controlsEngaged rev (input g)).
  - unfold controlApplication.
    assert (J : jumpInput rev g0 = Normal g0).
    { unfold jumpInput. change (input g0) with (input g). rewrite Sp. reflexivity. }
    rewrite J. unfold gravity, applyMovement.
    cbn [input set_verticalVelocity]. change (input g0) with (input g). rewrite M.
    set (p1 := set_position _ _).
    set (g1 := set_verticalVelocity _ g0).
    set (g2 := followCamera p1 (crossfade (targetActionName rev g1) g1)).
    assert (V2 : verticalVelocity g2 = verticalVelocity g - 20.0 * delta).
    { unfold g2, followCamera. cbn [verticalVelocity set_camera_position].
      rewrite (proj1 (crossfade_state _ _)). reflexivity. }
    destruct (postMove_level rev t (position p) h p1 g2 (conj Down Up))
      as (p' & Pl & Pos & _ & Vv & Gr & Lg).
    + unfold p1. simpl. nra.
    + unfold p1. simpl. nra.
    + rewrite V2. nra.
    + exists (postMove rev t (position p) h (p1, g2)), p'.
      repeat split; try assumption.
  - destruct (postMove_level rev t (position p) h p g0 (conj Down Up))
      as (p' & Pl & Pos & _ & Vv & Gr & Lg).
    + lra.
    + lra.
    + change (verticalVelocity g0) with (verticalVelocity g). lra.
    + exists (postMove rev t (position p) h (p, g0)), p'.
      repeat split; assumption.
Qed.

Lemma wallRays_blocked (t : Terrain) (origins : list Vector3) (dir : Vector3)
    (reach : Q) (g : World) :
  fst (wallRays t origins dir reach g)
  = existsb (fun o => obstructed t o dir reach) origins.
Proof.
  revert g. induction origins as [|o rest IH]; intros g; [reflexivity|].
  simpl. unfold wallRay, raycast, obstructed.
  destruct (t (mkRay o dir)) as [|hit hits]; simpl; [apply IH|].
  destruct (Qltb (distance hit) reach); simpl; [reflexivity|apply IH].
Qed.

(** The horizontal place of the player after the ground resolution: where it
    entered, or where it was before the move. *)
Lemma resolveGround_xz (rev : Revision) (t : Terrain) (old : Vector3) (ogh : Q)
    (hit : Intersection) (p : Object3D) (g : World) :
  let p' := fst (resolveGround rev t old ogh hit (p, g)) in
  (vx (position p') = vx (position p) /\ vz (position p') = vz (position p))
  \/ (vx (position p') = vx old /\ vz (position p') = vz old).
Proof.
  unfold resolveGround, revertXZ, validGroundLogic, landingLogic,
    emergencyEscape, snapTo, raycast.
  repeat split_if; simpl; auto.
Qed.

Lemma ceilingCheck_xz (rev : Revision) (t : Terrain) (p : Object3D) (g : World) :
  let p' := fst (ceilingCheck rev t (p, g)) in
  vx (position p') = vx (position p) /\ vz (position p') = vz (position p).
Proof.
  unfold ceilingCheck, raycast. destruct rev; simpl; auto.
  repeat split_if; simpl; auto.
Qed.

Lemma postMove_xz (rev : Revision) (t : Terrain) (old : Vector3) (ogh : Q)
    (p : Object3D) (g : World) :
  exists p', player (postMove rev t old ogh (p, g)) = Some p'
    /\ ((vx (position p') = vx (position p) /\ vz (position p') = vz (position p))
        \/ (vx (position p') = vx old /\ vz (position p') = vz old)).
Proof.
  rewrite postMove_unfold. cbv zeta.
  pose proof (ceilingCheck_xz rev t p
                (set_raycasts (mkRay (add_y (position p) (rayStartHeight rev)) downVector
                                 :: raycasts g) g)) as C.
  destruct (ceilingCheck rev t _) as [p1 g1]. simpl in C.
  destruct (t _) as [|hit hits].
  - exists p1. split; [reflexivity|]. left. exact C.
  - pose proof (resolveGround_xz rev t old ogh hit p1 g1) as R.
    destruct (resolveGround rev t old ogh hit (p1, g1)) as [p2 g2]. simpl in R.
    exists p2. split; [reflexivity|].
    destruct C as [Cx Cz]. rewrite <- Cx, <- Cz. exact R.
Qed.

(** X2.  When, whichever way the player is turned, every ray from the player's
    column along its heading has its nearest hit within the wall distance of
    the revision (0.8, and 1.1 in the middle revision), a frame leaves the
    player's X and Z as they were, whatever keys are held and whether the
    frame ends normally or by the exception of the jump statement. *)
Theorem wall_stops_walk (rev : Revision) (delta : Q) (g g' : World)
    (p p' : Object3D) (t : Terrain) :
  player g = Some p -> terrain g = Some t ->
  (forall o q, vx o = vx (position p) -> vz o = vz (position p) ->
     obstructed t o (applyQuaternion (mkVector3 0 0 1) q)
       (match rev with Rev1 => 1.1 | _ => 0.8 end) = true) ->
  locomotion rev delta g = Normal g' \/ locomotion rev delta g = Throw g' ->
  player g' = Some p' ->
  vx (position p') = vx (position p) /\ vz (position p') = vz (position p).
Proof.
  intros P T Wall L P'. unfold locomotion in L. rewrite P, T in L.
  unfold probeOldGround, raycast in L. cbn [input set_raycasts] in L.
  set (ogh := match t _ with _ :: _ => _ | [] => _ end) in L.
  set (g0 := set_raycasts _ g) in L.
  assert (Fin : forall p1 g1,
            vx (position p1) = vx (position p) -> vz (position p1) = vz (position p) ->
            player (postMove rev t (position p) ogh (p1, g1)) = Some p' ->
            vx (position p') = vx (position p) /\ vz (position p') = vz (position p)).
  { intros p1 g1 X Z E.
    destruct (postMove_xz rev t (position p) ogh p1 g1) as (q & Q1 & Q2).
    rewrite Q1 in E. inversion E; subst q.
    destruct Q2 as [[A B]|[A B]]; split; congruence. }
  destruct (controlsEngaged rev (input g)).
  - unfold controlApplication in L.
    destruct (jumpInput rev g0) as [g1|g1].
    + unfold gravity, applyMovement in L.
      set (p1 := set_position _ _) in L.
      set (g2 := set_verticalVelocity _ g1) in L.
      remember (targetActionName rev g2) as name.
      destruct (isMoving rev (input g2)).
      * pose proof (wallRays_blocked t) as B.
        assert (W : fst (wallCheck rev t (applyQuaternion (mkVector3 0 0 1)
                                           (quaternion p1)) p1 g2) = true).
        { unfold wallCheck. destruct rev; rewrite B; simpl;
            rewrite Wall; reflexivity. }
        destruct (wallCheck rev t _ p1 g2) as [blocked g3]. simpl in W. subst blocked.
        simpl in L.
        destruct L as [L|L]; inversion L; subst g'.
        eapply (Fin p1); [reflexivity|reflexivity|exact P'].
      * destruct L as [L|L]; inversion L; subst g'.
        eapply (Fin p1); [reflexivity|reflexivity|exact P'].
    + destruct L as [L|L]; inversion L; subst g'.
      simpl in P'. inversion P'. split; reflexivity.
  - destruct L as [L|L]; inversion L; subst g'.
    apply (Fin p g0); [reflexivity|reflexivity|exact P'].
Qed.

(** X3.  After a frame that ends normally with player and terrain present, the
    camera is not lower than 0.3 below the last ground height the frame has
    recorded. *)
Theorem camera_above_last_ground (rev : Revision) (delta : Q) (g g' : World)
    (p : Object3D) (t : Terrain) :
  player g = Some p -> terrain g = Some t ->
  locomotion rev delta g = Normal g' ->
  lastGroundHeight g' - 0.3 <= vy (camera_position g').
Proof.
  intros P T. unfold locomotion. rewrite P, T.
  destruct (probeOldGround rev t p g) as [ogh g0].
  destruct (if controlsEngaged rev (input g0) then _ else _) as [[p1 g1]|[p1 g1]];
    [|discriminate].
  intros E. inversion E; subst g'; clear E.
  unfold postMove.
  destruct (probeNewGround rev t (p1, g1)) as [hits st].
  destruct (match hits with _ :: _ => _ | [] => _ end) as [p2 g2].
  unfold clampCamera. cbn [lastGroundHeight camera_position set_player].
  destruct (Qltb (vy (camera_position g2)) (lastGroundHeight g2 - 0.3)) eqn:C.
  - simpl. lra.
  - apply Qltb_nlt in C. cbn [lastGroundHeight camera_position set_player]. lra.
Qed.

(** X4.  A frame that reaches the ground resolution (its downward probe has
    hit something) ends normally, records the height of that hit as last
    ground height, and leaves the player either not lower than -10 or standing
    on the hit (feet 0.1 above it, no vertical velocity, grounded flag set):
    below -10 the emergency escape lifts the player on to the ground under it.
     When that ground is itself not lower than -10.1, the player ends the
    frame not lower than -10. *)
Theorem fall_is_caught (rev : Revision) (delta : Q) (g : World)
    (old : Vector3) (ogh : Q) (hit : Intersection) (st : Object3D * World) :
  enteringResolution rev delta g = Some (old, ogh, hit, st) ->
  exists g' p',
    locomotion rev delta g = Normal g' /\ player g' = Some p'
    /\ lastGroundHeight g' = vy (point hit)
    /\ (-10 <= vy (position p')
        \/ (vy (position p') = vy (point hit) + 0.1
            /\ verticalVelocity g' = 0 /\ isGrounded g' = true))
    /\ (-10.1 <= vy (point hit) -> -10 <= vy (position p')).
Proof.
  intros E. destruct (enteringResolution_locomotion rev delta g old ogh hit st E)
    as (t & _ & L).
  rewrite L. do 2 eexists. split; [reflexivity|]. split; [reflexivity|].
  destruct st as [p1 g1].
  assert (K : lastGroundHeight (snd (resolveGround rev t old ogh hit (p1, g1)))
              = vy (point hit)
              /\ (-10 <= vy (position (fst (resolveGround rev t old ogh hit (p1, g1))))
                  \/ (vy (position (fst (resolveGround rev t old ogh hit (p1, g1))))
                      = vy (point hit) + 0.1
                      /\ verticalVelocity (snd (resolveGround rev t old ogh hit (p1, g1))) = 0
                      /\ isGrounded (snd (resolveGround rev t old ogh hit (p1, g1))) = true))).
  { unfold resolveGround, emergencyEscape.
    destruct (if stepTooHigh _ _ _ _ then _ else _) as [p2 g2] eqn:R.
    assert (Lg : lastGroundHeight g2 = vy (point hit)).
    { revert R. unfold revertXZ, validGroundLogic, landingLogic, snapTo, raycast.
      repeat split_if; intros R; inversion R; reflexivity. }
    destruct (Qltb (vy (position p2)) (-10)) eqn:C.
    - unfold snapTo. simpl. split; [exact Lg|]. right. repeat split.
    - apply Qltb_nlt in C. simpl. split; [exact Lg|]. left. lra. }
  destruct (resolveGround rev t old ogh hit (p1, g1)) as [p3 g3]. simpl in K.
  destruct K as [Lg K]. cbn [fst snd].
  assert (S : lastGroundHeight (set_player (Some p3) (clampCamera g3)) = lastGroundHeight g3
              /\ verticalVelocity (set_player (Some p3) (clampCamera g3)) = verticalVelocity g3
              /\ isGrounded (set_player (Some p3) (clampCamera g3)) = isGrounded g3).
  { unfold clampCamera. split_if; repeat split. }
  destruct S as (S1 & S2 & S3). rewrite S1, S2, S3.
  split; [exact Lg|]. split; [exact K|].
  intros Hh. destruct K as [K|[K _]]; [exact K|]. rewrite K. lra.
Qed.

Lemma ActionName_eqb_eq (x y : ActionName) : ActionName_eqb x y = true -> x = y.
Proof. destruct x, y; simpl; congruence. Qed.

Lemma clip_loaded (g : World) (name n : ActionName) :
  clip g name = Some n -> actions g n = true.
Proof. unfold clip. destruct (actions g name) eqn:A; congruence. Qed.

Lemma jumpInput_ClipLoaded (rev : Revision) (g g' : World) :
  ClipLoaded g ->
  jumpInput rev g = Normal g' \/ jumpInput rev g = Throw g' ->
  ClipLoaded g' /\ actions g' = actions g.
Proof.
  unfold jumpInput, ClipLoaded. intros C.
  destruct (keys.space (keys (input g)) && isGrounded g).
  - cbn [actions set_isGrounded set_verticalVelocity activeAction].
    destruct (actions g jump) eqn:A.
    + destruct (activeAction g) eqn:AA; intros [E|E]; inversion E; subst g'; clear E.
      * cbn. unfold clip. cbn. rewrite A. split; [|reflexivity].
        intros n E. inversion E. exact A.
      * cbn. rewrite AA. split; [discriminate|reflexivity].
    + intros [E|E]; inversion E; subst g'. split; [exact C|reflexivity].
  - intros [E|E]; inversion E; subst g'. split; [exact C|reflexivity].
Qed.

Lemma crossfade_ClipLoaded (name : ActionName) (g : World) :
  ClipLoaded g ->
  ClipLoaded (crossfade name g) /\ actions (crossfade name g) = actions g.
Proof.
  unfold crossfade, ClipLoaded. intros C.
  destruct (_ && _ && _ && _); [split; [exact C|reflexivity]|].
  destruct (clip g name) as [n|] eqn:K; [|split; [exact C|reflexivity]].
  destruct (negb _); [|split; [exact C|reflexivity]].
  cbn. split; [|reflexivity].
  intros n0 E. inversion E; subst. apply (clip_loaded g name n0 K).
Qed.

Lemma controlApplication_ClipLoaded (rev : Revision) (delta : Q) (t : Terrain)
    (p p' : Object3D) (g g' : World) :
  ClipLoaded g ->
  controlApplication rev delta t (p, g) = Normal (p', g')
  \/ controlApplication rev delta t (p, g) = Throw (p', g') ->
  ClipLoaded g' /\ actions g' = actions g.
Proof.
  intros C. unfold controlApplication.
  destruct (jumpInput rev g) as [g1|g1] eqn:J.
  - destruct (jumpInput_ClipLoaded rev g g1 C) as [C1 A1]; [auto|].
    unfold gravity.
    set (g2 := set_verticalVelocity _ g1). set (p2 := set_position _ _).
    pose proof (applyMovement_state rev delta t p2 g2) as M.
    destruct (applyMovement rev delta t (p2, g2)) as [p3 g3]. simpl in M.
    destruct M as (_ & _ & Ma & Mc & _).
    assert (C3 : ClipLoaded g3).
    { unfold ClipLoaded. rewrite Ma, Mc. exact C1. }
    intros [E|E]; inversion E; subst.
    destruct (crossfade_ClipLoaded (targetActionName rev g2) g3 C3) as [C4 A4].
    split; [exact C4|].
    transitivity (actions (crossfade (targetActionName rev g2) g3)); [reflexivity|].
    rewrite A4, Mc. exact A1.
  - intros [E|E]; inversion E; subst.
    apply (jumpInput_ClipLoaded rev g g'); auto.
Qed.

Lemma postMove_actions (rev : Revision) (t : Terrain) (old : Vector3) (ogh : Q)
    (p : Object3D) (g : World) :
  actions (postMove rev t old ogh (p, g)) = actions g.
Proof.
  unfold postMove, probeNewGround, ceilingCheck, resolveGround, revertXZ,
    validGroundLogic, landingLogic, emergencyEscape, snapTo, clampCamera, raycast.
  destruct rev; simpl; repeat split_if; reflexivity.
Qed.

Lemma locomotion_ClipLoaded (rev : Revision) (delta : Q) (g g' : World) :
  ClipLoaded g ->
  locomotion rev delta g = Normal g' \/ locomotion rev delta g = Throw g' ->
  ClipLoaded g' /\ actions g' = actions g.
Proof.
  intros C. unfold locomotion.
  destruct (player g) as [p|];
    [|intros [E|E]; inversion E; subst; split; [exact C|reflexivity]].
  destruct (terrain g) as [t|];
    [|intros [E|E]; inversion E; subst; split; [exact C|reflexivity]].
  pose proof (probeOldGround_state rev t p g) as O.
  destruct (probeOldGround rev t p g) as [ogh g1]. simpl in O.
  assert (C1 : ClipLoaded g1) by (subst g1; exact C).
  assert (A1 : actions g1 = actions g) by (subst g1; reflexivity).
  assert (Post : forall (p2 : Object3D) (g2 : World),
            ClipLoaded g2 -> actions g2 = actions g ->
            ClipLoaded (postMove rev t (position p) ogh (p2, g2))
            /\ actions (postMove rev t (position p) ogh (p2, g2)) = actions g).
  { intros p2 g2 C2 A2. unfold ClipLoaded.
    rewrite postMove_actions, (proj1 (postMove_state rev t (position p) ogh p2 g2)).
    split; [exact C2|exact A2]. }
  destruct (controlsEngaged rev (input g1)).
  - destruct (controlApplication rev delta t (p, g1)) as [[p2 g2]|[p2 g2]] eqn:K.
    + destruct (controlApplication_ClipLoaded rev delta t p p2 g1 g2 C1) as [C2 A2];
        [auto|].
      intros [E|E]; inversion E. apply Post; [exact C2|congruence].
    + destruct (controlApplication_ClipLoaded rev delta t p p2 g1 g2 C1) as [C2 A2];
        [auto|].
      intros [E|E]; inversion E. split; [exact C2|].
      transitivity (actions g2); [reflexivity|congruence].
  - intros [E|E]; inversion E. apply Post; assumption.
Qed.

(** X5.  The active clip is always one that has been loaded.  This holds while
    no clip is active; [loadAnim] keeps it, registers the clip under its name,
    makes the idle clip the active one when it is the idle clip that arrives
    and leaves the active clip alone otherwise; and a frame of any revision,
    however it ends, keeps it and loads no clip. *)
Theorem active_clip_is_loaded :
  (forall g : World, activeAction g = None -> ClipLoaded g)
  /\ (forall (name : ActionName) (g : World),
        ClipLoaded g ->
        ClipLoaded (loadAnim name g)
        /\ actions (loadAnim name g) name = true
        /\ (name = idle -> activeAction (loadAnim name g) = Some idle)
        /\ (name <> idle -> activeAction (loadAnim name g) = activeAction g))
  /\ (forall (rev : Revision) (now delta : Q) (g g' : World),
        ClipLoaded g ->
        animate rev now delta g = Normal g' \/ animate rev now delta g = Throw g' ->
        ClipLoaded g' /\ actions g' = actions g).
Proof.
  split; [|split].
  - intros g N name E. congruence.
  - intros name g C. unfold loadAnim, ClipLoaded.
    assert (R : ActionName_eqb name name = true) by (destruct name; reflexivity).
    destruct name; cbn; unfold clip; cbn; repeat split; try congruence;
      intros n E; try (inversion E; reflexivity);
      destruct n; cbn; try reflexivity; apply C; exact E.
  - intros rev now delta g g' C. unfold animate.
    destruct rev; try apply (locomotion_ClipLoaded _ delta g g' C);
      (destruct (updateWater now g) as [g1|] eqn:U;
       [|intros [E|E]; inversion E; subst; split; [exact C|reflexivity]]);
      apply updateWater_writes in U;
      (assert (C1 : ClipLoaded g1) by (rewrite U; exact C));
      (assert (A1 : actions g1 = actions g) by (rewrite U; reflexivity));
      intros L; destruct (locomotion_ClipLoaded _ delta g1 g' C1 L) as [C2 A2];
      (split; [exact C2|congruence]).
Qed.

Lemma castBetween_refl (g g' : World) :
  raycasts g' = raycasts g -> castBetween 0 0 g g'.
Proof. intros E. exists []. split; [exact E|simpl; lia]. Qed.

Lemma castBetween_one (g g' : World) (r : Ray) :
  raycasts g' = r :: raycasts g -> castBetween 1 1 g g'.
Proof. intros E. exists [r]. split; [exact E|simpl; lia]. Qed.

Lemma castBetween_trans (a b c d : nat) (g1 g2 g3 : World) :
  castBetween a b g1 g2 -> castBetween c d g2 g3 ->
  castBetween (a + c) (b + d) g1 g3.
Proof.
  intros (c1 & E1 & L1) (c2 & E2 & L2). exists (c2 ++ c1). split.
  - rewrite E2, E1. apply app_assoc.
  - rewrite length_app. lia.
Qed.

Lemma castBetween_weaken (a b c d : nat) (g g' : World) :
  castBetween a b g g' -> (c <= a)%nat -> (b <= d)%nat -> castBetween c d g g'.
Proof. intros (c1 & E & L) A B. exists c1. split; [exact E|lia]. Qed.

Lemma wallRays_cast (t : Terrain) (origins : list Vector3) (dir : Vector3)
    (reach : Q) (g : World) :
  castBetween (match origins with [] => 0 | _ => 1 end) (List.length origins)
    g (snd (wallRays t origins dir reach g)).
Proof.
  revert g. induction origins as [|o rest IH]; intros g.
  - apply castBetween_refl. reflexivity.
  - simpl. unfold wallRay, raycast.
    set (g1 := set_raycasts (mkRay o dir :: raycasts g) g).
    assert (One : castBetween 1 1 g g1) by (apply (castBetween_one _ _ (mkRay o dir)); reflexivity).
    assert (Rest : castBetween 1 (S (List.length rest)) g (snd (wallRays t rest dir reach g1))).
    { apply (castBetween_weaken (1 + match rest with [] => 0 | _ => 1 end)
               (1 + List.length rest)); [|lia|lia].
      apply (castBetween_trans _ _ _ _ g g1); [exact One|apply IH]. }
    destruct (t (mkRay o dir)) as [|hit hits]; simpl; [exact Rest|].
    destruct (Qltb (distance hit) reach); simpl; [|exact Rest].
    apply (castBetween_weaken 1 1); [exact One|lia|lia].
Qed.

Lemma applyMovement_cast (rev : Revision) (delta : Q) (t : Terrain)
    (p : Object3D) (g : World) :
  castBetween 0 (wallBudget rev) g (snd (applyMovement rev delta t (p, g))).
Proof.
  unfold applyMovement.
  destruct (isMoving rev (input g)).
  - assert (W : castBetween 0 (wallBudget rev) g
                  (snd (wallCheck rev t (applyQuaternion (mkVector3 0 0 1) (quaternion p)) p g))).
    { unfold wallCheck. destruct rev;
        (eapply castBetween_weaken; [apply wallRays_cast|simpl; lia|simpl; lia]). }
    destruct (wallCheck rev t _ p g) as [blocked g1]. simpl in W.
    destruct blocked; exact W.
  - apply (castBetween_weaken 0 0); [apply castBetween_refl; reflexivity|lia|lia].
Qed.

Lemma crossfade_raycasts (name : ActionName) (g : World) :
  raycasts (crossfade name g) = raycasts g.
Proof. unfold crossfade. repeat split_if; reflexivity. Qed.

Lemma jumpInput_raycasts (rev : Revision) (g g' : World) :
  jumpInput rev g = Normal g' \/ jumpInput rev g = Throw g' ->
  raycasts g' = raycasts g.
Proof.
  unfold jumpInput. repeat split_if; intros [E|E]; inversion E; reflexivity.
Qed.

Lemma controlApplication_cast (rev : Revision) (delta : Q) (t : Terrain)
    (p p' : Object3D) (g g' : World) :
  controlApplication rev delta t (p, g) = Normal (p', g')
  \/ controlApplication rev delta t (p, g) = Throw (p', g') ->
  castBetween 0 (wallBudget rev) g g'.
Proof.
  unfold controlApplication.
  destruct (jumpInput rev g) as [g1|g1] eqn:J.
  - assert (R1 : raycasts g1 = raycasts g) by (apply (jumpInput_raycasts rev); auto).
    unfold gravity.
    set (g2 := set_verticalVelocity _ g1). set (p2 := set_position _ _).
    pose proof (applyMovement_cast rev delta t p2 g2) as M.
    destruct (applyMovement rev delta t (p2, g2)) as [p3 g3]. simpl in M.
    intros [E|E]; inversion E; subst.
    destruct M as (cast & Ec & L). exists cast. split; [|exact L].
    unfold followCamera. cbn [raycasts set_camera_position].
    rewrite crossfade_raycasts, Ec. unfold g2. cbn. rewrite R1. reflexivity.
  - intros [E|E]; inversion E; subst.
    apply (castBetween_weaken 0 0); [|lia|lia].
    apply castBetween_refl. apply (jumpInput_raycasts rev). auto.
Qed.

Lemma ceilingCheck_cast (rev : Revision) (t : Terrain) (p : Object3D) (g : World) :
  castBetween (groundBudget rev - 2) (groundBudget rev - 2) g
    (snd (ceilingCheck rev t (p, g))).
Proof.
  unfold ceilingCheck, raycast.
  destruct rev; try (apply castBetween_refl; reflexivity).
  apply (castBetween_one _ _ (mkRay (add_y (position p) 0.2) upVector)).
  repeat split_if; reflexivity.
Qed.

Lemma resolveGround_cast (rev : Revision) (t : Terrain) (old : Vector3) (ogh : Q)
    (hit : Intersection) (p : Object3D) (g : World) :
  castBetween 0 1 g (snd (resolveGround rev t old ogh hit (p, g))).
Proof.
  unfold resolveGround.
  set (g0 := set_lastGroundHeight _ g).
  destruct (stepTooHigh rev ogh (vy (point hit)) (p, g0)).
  - apply (castBetween_weaken 1 1); [|lia|lia].
    apply (castBetween_one _ _ (mkRay (reprobeOrigin rev old) downVector)).
    unfold revertXZ, landingLogic, emergencyEscape, snapTo, raycast.
    repeat split_if; reflexivity.
  - apply (castBetween_weaken 0 0); [|lia|lia]. apply castBetween_refl.
    unfold validGroundLogic, emergencyEscape, snapTo.
    repeat split_if; reflexivity.
Qed.

Lemma postMove_cast (rev : Revision) (t : Terrain) (old : Vector3) (ogh : Q)
    (p : Object3D) (g : World) :
  castBetween (groundBudget rev - 1) (groundBudget rev) g
    (postMove rev t old ogh (p, g)).
Proof.
  rewrite postMove_unfold. cbv zeta.
  set (down := mkRay _ downVector).
  set (g0 := set_raycasts (down :: raycasts g) g).
  assert (One : castBetween 1 1 g g0) by (apply (castBetween_one _ _ down); reflexivity).
  pose proof (ceilingCheck_cast rev t p g0) as C.
  destruct (ceilingCheck rev t (p, g0)) as [p1 g1]. simpl in C.
  pose proof (castBetween_trans _ _ _ _ _ _ _ One C) as C1.
  assert (Fin : forall (q : Object3D) (g2 : World) (a b : nat),
            castBetween a b g g2 ->
            castBetween a b g (set_player (Some q) (clampCamera g2))).
  { intros q g2 a b (cast & E & L). exists cast. split; [|exact L].
    unfold clampCamera. split_if; exact E. }
  destruct (t down) as [|hit hits].
  - apply Fin. apply (castBetween_weaken _ _ _ _ _ _ C1); destruct rev; simpl; lia.
  - pose proof (resolveGround_cast rev t old ogh hit p1 g1) as R.
    destruct (resolveGround rev t old ogh hit (p1, g1)) as [p2 g2]. simpl in R.
    apply Fin.
    apply (castBetween_weaken _ _ _ _ _ _ (castBetween_trans _ _ _ _ _ _ _ C1 R));
      destruct rev; simpl; lia.
Qed.

(** X6.  A frame casts at most 4, 6 and 7 rays in the three revisions (the
    probe of the old ground, 1, 3 and 3 wall rays, the probe of the new
    ground, the ceiling ray of the latest revision, and the probe after a
    revert), and adds them in front of the record of rays, which it leaves as
    it was.  It casts none when the player or the terrain is missing, and at
    least 2 (3 in the latest revision) when it ends normally with both
    present. *)
Theorem frame_ray_budget (rev : Revision) (delta : Q) (g g' : World) :
  locomotion rev delta g = Normal g' \/ locomotion rev delta g = Throw g' ->
  castBetween 0 (1 + wallBudget rev + groundBudget rev) g g'
  /\ (player g = None \/ terrain g = None -> raycasts g' = raycasts g)
  /\ (player g <> None -> terrain g <> None -> locomotion rev delta g = Normal g' ->
      castBetween (groundBudget rev) (1 + wallBudget rev + groundBudget rev) g g').
Proof.
  remember (locomotion rev delta g) as c eqn:Ec.
  intros L. unfold locomotion in Ec.
  destruct (player g) as [p|] eqn:P.
  2:{ assert (E : g' = g) by (destruct L as [L|L]; subst c; inversion L; reflexivity).
      subst g'. split; [|split]; [|reflexivity|congruence].
      apply (castBetween_weaken 0 0); [apply castBetween_refl; reflexivity|lia|lia]. }
  destruct (terrain g) as [t|] eqn:T.
  2:{ assert (E : g' = g) by (destruct L as [L|L]; subst c; inversion L; reflexivity).
      subst g'. split; [|split]; [|reflexivity|congruence].
      apply (castBetween_weaken 0 0); [apply castBetween_refl; reflexivity|lia|lia]. }
  pose proof (probeOldGround_state rev t p g) as O.
  destruct (probeOldGround rev t p g) as [ogh g0]. simpl in O.
  assert (One : castBetween 1 1 g g0).
  { apply (castBetween_one _ _ (mkRay (add_y (position p) (rayStartHeight rev)) downVector)).
    rewrite O. reflexivity. }
  assert (Mid : forall st k,
            (if controlsEngaged rev (input g0)
             then controlApplication rev delta t (p, g0) else Normal (p, g0)) = k ->
            k = Normal st \/ k = Throw st ->
            castBetween 1 (1 + wallBudget rev) g (snd st)).
  { intros [p1 g1] k E C. subst k. simpl.
    destruct (controlsEngaged rev (input g0)).
    - apply (castBetween_trans _ _ _ _ _ _ _ One
               (controlApplication_cast rev delta t p p1 g0 g1 C)).
    - assert (E : g1 = g0) by (destruct C as [C|C]; inversion C; reflexivity).
      subst g1. apply (castBetween_weaken _ _ _ _ _ _ One); lia. }
  destruct (if controlsEngaged rev (input g0) then _ else _) as [[p1 g1]|[p1 g1]] eqn:K.
  - pose proof (Mid (p1, g1) _ eq_refl (or_introl eq_refl)) as M. simpl in M.
    assert (E : g' = postMove rev t (position p) ogh (p1, g1))
      by (destruct L as [L|L]; subst c; inversion L; reflexivity).
    subst g'.
    pose proof (castBetween_trans _ _ _ _ _ _ _ M
                  (postMove_cast rev t (position p) ogh p1 g1)) as A.
    split; [|split].
    + apply (castBetween_weaken _ _ _ _ _ _ A); destruct rev; simpl; lia.
    + intros [N|N]; discriminate.
    + intros _ _ _. apply (castBetween_weaken _ _ _ _ _ _ A); destruct rev; simpl; lia.
  - pose proof (Mid (p1, g1) _ eq_refl (or_intror eq_refl)) as M. simpl in M.
    assert (E : g' = set_player (Some p1) g1)
      by (destruct L as [L|L]; subst c; inversion L; reflexivity).
    subst g'. split; [|split].
    + apply (castBetween_weaken _ _ _ _ _ _ M); destruct rev; simpl; lia.
    + intros [N|N]; discriminate.
    + intros _ _ N. subst c. discriminate.
Qed.

End FrameProperties.

(** ** Foam and wave heights *)

Section FoamProperties.
Context {Quaternion : Type} `{H : Host Quaternion}.

Local Abbreviation World := (@World Quaternion) (only parsing).
Local Abbreviation Object3D := (@Object3D Quaternion) (only parsing).


Lemma seedParticle_seeds (g : World) (i count : nat) (fs fs' : FoamSystem)
    (n n' : nat) :
  uniform01 -> 0 < riverParams.length (params g) ->
  (i < count)%nat ->
  List.length (positions fs) = (count * 3)%nat ->
  List.length (lives fs) = count -> List.length (offsets fs) = count ->
  (forall j, (j < i)%nat -> seededAt g fs j) ->
  seedParticle g i (fs, n) = Some (fs', n') ->
  n' = (n + 6)%nat
  /\ List.length (positions fs') = (count * 3)%nat
  /\ List.length (lives fs') = count /\ List.length (offsets fs') = count
  /\ (forall j, (j < S i)%nat -> seededAt g fs' j).
Proof.
  intros U Len I Lp Ll Lo Old.
  assert (Fin : forall x z m,
            onRockRing g x z \/ alongBank g x z ->
            let fs1 :=
              mkFoamSystem
                (<[(i * 3 + 1)%nat := fround 0.05]>
                   (<[(i * 3 + 2)%nat := fround z]>
                      (<[(i * 3)%nat := fround x]> (positions fs))))
                (<[i := fround (random m)]> (lives fs))
                (<[i := fround (random (S m) * 100)]> (offsets fs)) in
            List.length (positions fs1) = (count * 3)%nat
            /\ List.length (lives fs1) = count /\ List.length (offsets fs1) = count
            /\ (forall j, (j < S i)%nat -> seededAt g fs1 j)).
  { intros x z m Where. cbv zeta. cbn [positions lives offsets].
    split; [rewrite !length_insert; lia|].
    split; [rewrite length_insert; lia|]. split; [rewrite length_insert; lia|].
    intros j J. unfold seededAt. cbn [positions lives offsets].
    destruct (Nat.eq_dec j i) as [->|Ne].
    - exists x, z, (fround 0.05), (fround (random m)), (fround (random (S m) * 100)).
      destruct (U m) as [A0 A1]. destruct (U (S m)) as [B0 B1].
      split; [rewrite !list_lookup_insert_ne by lia;
              apply list_lookup_insert_eq; lia|].
      split; [apply list_lookup_insert_eq; rewrite !length_insert; lia|].
      split; [rewrite list_lookup_insert_ne by lia;
              apply list_lookup_insert_eq; rewrite length_insert; lia|].
      split; [exact Where|].
      split; [apply fround_near; apply Qabs_Qle_condition; split; discriminate|].
      split; [apply list_lookup_insert_eq; lia|].
      split; [apply (fround_clamp 0 1); [apply fround_0|apply fround_1|lra|lra]|].
      split; [apply (fround_clamp 0 1); [apply fround_0|apply fround_1|lra|lra]|].
      split; [apply list_lookup_insert_eq; lia|].
      split; apply (fround_clamp 0 100); try apply fround_0; try apply fround_100; lra.
    - destruct (Old j)
        as (x0 & z0 & y0 & l0 & o0 & X0 & Y0 & Z0 & W0 & Yb & L0 & La & Lb & O0 & Oa & Ob);
        [lia|].
      exists x0, z0, y0, l0, o0.
      split; [rewrite !list_lookup_insert_ne by lia; exact X0|].
      split; [rewrite !list_lookup_insert_ne by lia; exact Y0|].
      split; [rewrite !list_lookup_insert_ne by lia; exact Z0|].
      split; [exact W0|]. split; [exact Yb|].
      split; [rewrite list_lookup_insert_ne by lia; exact L0|].
      split; [exact La|]. split; [exact Lb|].
      split; [rewrite list_lookup_insert_ne by lia; exact O0|].
      split; assumption. }
  unfold seedParticle, nextRandom. cbv zeta.
  destruct (Qltb (random n) 0.6 && (0 <? List.length (rocks g))%nat) eqn:C.
  - destruct (if (Qfloor _ <? 0)%Z then None else _) as [rock|] eqn:R; [|discriminate].
    simpl. intros E. inversion E; subst; clear E. split; [lia|].
    apply (Fin (rock_x rock + cos (random (S (S (S n))) * PI * 2)
                              * (radius rock + random (S (S n)) * 0.5))
               (rock_z rock + sin (random (S (S (S n))) * PI * 2)
                              * (radius rock + random (S (S n)) * 0.5))
               (S (S (S (S n))))).
    left. exists rock, (random (S (S (S n))) * PI * 2),
      (radius rock + random (S (S n)) * 0.5).
    destruct (U (S (S n))) as [U0 U1].
    repeat split; try reflexivity; try lra.
    destruct (Qfloor _ <? 0)%Z; [discriminate|].
    apply (list_elem_of_lookup_2 _ _ _ R).
  - simpl. intros E. inversion E; subst; clear E. split; [lia|].
    apply (Fin ((riverParams.width (params g) * 0.5 - 0.2)
                * (if Qgtb (random (S n)) 0.5 then 1 else -1)
                + random (S (S (S n))) * 0.5
                  * - (if Qgtb (random (S n)) 0.5 then 1 else -1))
               (random (S (S n)) * riverParams.length (params g)
                - riverParams.length (params g) * 0.5)
               (S (S (S (S n))))).
    right. unfold alongBank. cbv zeta.
    destruct (U (S n)) as [A0 A1]. destruct (U (S (S n))) as [B0 B1].
    destruct (U (S (S (S n)))) as [C0 C1].
    set (w := riverParams.width (params g)) in *.
    set (len := riverParams.length (params g)) in *.
    split.
    + destruct (Qgtb (random (S n)) 0.5); [left|right]; split; lra.
    + split; nra.
Qed.

(** X7.  With draws in [0, 1) and a river of positive length,
    [createFoamSystem] succeeds, draws six numbers per particle and gives
    every particle its three position cells, its life and its offset.  The
    cells are single-precision cells: X and Z hold the conversions of a place
    on a ring around one of the rocks (between the radius and half a unit
    more) or in the strip along one of the two banks, Y holds the conversion
    of 0.05, which is within a millionth of it, and the life and the offset
    lie in the closed intervals from 0 to 1 and from 0 to 100 (a draw next to
    1 is stored as 1, and as 100). *)
Theorem createFoamSystem_seeds (g : World) :
  uniform01 -> 0 < riverParams.length (params g) ->
  exists g' fs,
    createFoamSystem g = Some g' /\ foamSystem g' = Some fs
    /\ drawn g' = (drawn g + 6 * riverParams.foamAmount (params g))%nat
    /\ List.length (positions fs) = (riverParams.foamAmount (params g) * 3)%nat
    /\ List.length (lives fs) = riverParams.foamAmount (params g)
    /\ List.length (offsets fs) = riverParams.foamAmount (params g)
    /\ forall j, (j < riverParams.foamAmount (params g))%nat -> seededAt g fs j.
Proof.
  intros U Len. unfold createFoamSystem.
  set (count := riverParams.foamAmount (params g)).
  set (fresh := mkFoamSystem _ _ _).
  destruct (forLoop_total
    (fun i st =>
       snd st = (drawn g + 6 * i)%nat
       /\ List.length (positions (fst st)) = (count * 3)%nat
       /\ List.length (lives (fst st)) = count
       /\ List.length (offsets (fst st)) = count
       /\ forall j, (j < i)%nat -> seededAt g (fst st) j)
    count (seedParticle g) (fresh, drawn g)) as [[fs n] [E (N & Lp & Ll & Lo & All)]].
  - simpl. repeat split; try apply length_replicate; try lia.
  - intros i [fs n] I (N & Lp & Ll & Lo & All). simpl in *.
    destruct (seedParticle_total g i (fs, n) U) as [[fs' n'] E].
    exists (fs', n'). split; [exact E|].
    destruct (seedParticle_seeds g i count fs fs' n n' U Len I Lp Ll Lo All E)
      as (N' & Lp' & Ll' & Lo' & All').
    simpl. repeat split; try assumption. lia.
  - rewrite E. simpl in *. exists (set_drawn n (set_foamSystem (Some fs) g)), fs.
    repeat split; try reflexivity; try assumption.
Qed.











Lemma Qabs_bound (a b : Q) : - b <= a -> a <= b -> Qabs a <= b.
Proof. intros L U. apply Qabs_Qle_condition. split; assumption. Qed.






End FoamProperties.

(** ** The mist *)

Section MistProperties.
Context {Quaternion : Type} `{H : Host Quaternion}.

Local Abbreviation World := (@World Quaternion) (only parsing).
Local Abbreviation Object3D := (@Object3D Quaternion) (only parsing).

Lemma forEach_S {S : Type} (count : nat) (body : nat -> S -> S) (init : S) :
  forEach (Datatypes.S count) body init = body count (forEach count body init).
Proof. unfold forEach. rewrite seq_S, fold_left_app. reflexivity. Qed.

Lemma forEach_invariant {S : Type} (P : nat -> S -> Prop) (count : nat)
    (body : nat -> S -> S) (init : S) :
  P 0%nat init ->
  (forall i s, (i < count)%nat -> P i s -> P (Datatypes.S i) (body i s)) ->
  P count (forEach count body init).
Proof.
  intros P0 Step. induction count as [|n IH]; [exact P0|].
  rewrite forEach_S. apply Step; [lia|]. apply IH.
  intros i s Hi. apply Step. lia.
Qed.

(** What one iteration does to particle [i] and to the others. *)
Lemma mistParticle_spec (g : World) (i : nat) (ms : FoamSystem) (n : nat) :
  let ms' := fst (mistParticle g i (ms, n)) in
  List.length (positions ms') = List.length (positions ms)
  /\ List.length (lives ms') = List.length (lives ms)
  /\ offsets ms' = offsets ms
  /\ (forall j, j <> i -> lives ms' !! j = lives ms !! j)
  /\ (forall j k, j <> i -> (k < 3)%nat ->
        positions ms' !! (j * 3 + k)%nat = positions ms !! (j * 3 + k)%nat).
Proof.
  unfold mistParticle, nextRandom.
  destruct (match alter _ i (lives ms) !! i with Some l => Qleb l 0 | None => false end);
    cbn [fst positions lives offsets].
  - repeat split.
    + rewrite !length_insert. reflexivity.
    + rewrite length_insert, length_alter. reflexivity.
    + intros j J. rewrite list_lookup_insert_ne, list_lookup_alter_ne by congruence.
      reflexivity.
    + intros j k J K. rewrite !list_lookup_insert_ne by lia. reflexivity.
  - repeat split.
    + rewrite !length_alter. reflexivity.
    + rewrite length_alter. reflexivity.
    + intros j J. rewrite list_lookup_alter_ne by congruence. reflexivity.
    + intros j k J K. rewrite !list_lookup_alter_ne by lia. reflexivity.
Qed.

(** A stored decrement of 0.015 takes at least 0.014999 from a life in
    [0, 1]. *)
Lemma fround_fade (l : Q) :
  0 <= l -> l <= 1 -> fround (l - 0.015) <= l - 0.014999.
Proof.
  intros L0 L1. pose proof (fround_near (l - 0.015)) as N.
  assert (A : Qabs (l - 0.015) <= 16) by (apply Qabs_Qle_condition; split; lra).
  specialize (N A). apply Qabs_Qle_condition in N. lra.
Qed.

Lemma fround_hidden : fround (-500) == -500.
Proof. apply (fround_exact (-500) (-1000)); [reflexivity|lia]. Qed.

Lemma fround_lip : fround (-0.5) == -0.5.
Proof. apply (fround_exact (-0.5) (-1)); [reflexivity|lia]. Qed.

Lemma succ_age (a : nat) : inject_Z (Z.of_nat (S a)) == inject_Z (Z.of_nat a) + 1.
Proof. rewrite Nat2Z.inj_succ. unfold Z.succ. rewrite inject_Z_plus. reflexivity. Qed.

(** A life above 0 has seen at most 66 decrements. *)
Lemma age_bound (a : nat) (l : Q) :
  0 < l -> l <= 1 - 0.014999 * inject_Z (Z.of_nat a) -> inject_Z (Z.of_nat a) <= 66.
Proof.
  intros L0 L. destruct (le_lt_dec a 66) as [A|A].
  - change 66 with (inject_Z 66). rewrite <- Zle_Qle. lia.
  - exfalso. assert (B : 67 <= inject_Z (Z.of_nat a)).
    { change 67 with (inject_Z 67). rewrite <- Zle_Qle. lia. }
    lra.
Qed.

Lemma mistParticle_own (g : World) (i : nat) (ms : FoamSystem) (n : nat) (l y : Q) :
  uniform01 ->
  lives ms !! i = Some l -> positions ms !! (i * 3 + 1)%nat = Some y ->
  0 <= l -> l <= 1 -> mistBand l y ->
  let ms' := fst (mistParticle g i (ms, n)) in
  exists l' y', lives ms' !! i = Some l' /\ positions ms' !! (i * 3 + 1)%nat = Some y'
                /\ 0 < l' /\ l' <= 1 /\ mistBand l' y'.
Proof.
  intros U L Y L0 L1 B. unfold mistParticle, nextRandom.
  rewrite list_lookup_alter_eq, L. simpl option_map. cbn [fmap option_fmap option_map].
  assert (Ly : (i * 3 + 1 < List.length (positions ms))%nat)
    by (apply lookup_lt_Some in Y; exact Y).
  assert (Ll : (i < List.length (lives ms))%nat)
    by (apply lookup_lt_Some in L; exact L).
  pose proof (fround_fade l L0 L1) as Fade.
  destruct (Qleb (fround (l - 0.015)) 0) eqn:C; cbn [fst positions lives offsets].
  - exists 1.0, (fround (random (S (S n)) * 1.5 - 0.5)).
    destruct (U (S (S n))) as [U0 U1].
    split; [apply list_lookup_insert_eq; rewrite length_alter; exact Ll|].
    split.
    { rewrite list_lookup_insert_ne by lia. apply list_lookup_insert_eq.
      rewrite length_insert. exact Ly. }
    split; [reflexivity|]. split; [discriminate|].
    right. exists 0%nat. change (inject_Z (Z.of_nat 0)) with 0.
    destruct (fround_clamp (-0.5) 1 (random (S (S n)) * 1.5 - 0.5)
                fround_lip fround_1) as [Lo Hi]; [lra|lra|].
    split; [lra|]. split; lra.
  - apply Qleb_nle in C. exists (fround (l - 0.015)), (fround (y - 0.15)).
    split; [rewrite list_lookup_alter_eq, L; reflexivity|].
    split.
    { rewrite list_lookup_alter_ne by lia. rewrite list_lookup_alter_eq, Y. reflexivity. }
    split; [lra|]. split; [lra|].
    destruct B as [B|(a & Ba & B0 & B1)].
    + left. rewrite <- fround_hidden. apply fround_monotone. lra.
    + right. exists (S a). rewrite succ_age.
      assert (A0 : 0 <= inject_Z (Z.of_nat a)).
      { change 0 with (inject_Z 0). rewrite <- Zle_Qle. lia. }
      set (A := inject_Z (Z.of_nat a)) in *. clearbody A.
      split; [lra|].
      assert (N : Qabs (y - 0.15) <= 16) by (apply Qabs_Qle_condition; split; lra).
      apply fround_near, Qabs_Qle_condition in N.
      split; [lra|]. rewrite <- fround_1. apply fround_monotone. lra.
Qed.

Lemma updateMist_loop (g : World) (count : nat) (ms : FoamSystem) (n : nat) :
  uniform01 -> mistSettled ms -> (count <= List.length (lives ms))%nat ->
  let ms' := fst (forEach count (mistParticle g) (ms, n)) in
  List.length (positions ms') = List.length (positions ms)
  /\ List.length (lives ms') = List.length (lives ms)
  /\ (forall j, (count <= j)%nat -> lives ms' !! j = lives ms !! j)
  /\ (forall j k, (count <= j)%nat -> (k < 3)%nat ->
        positions ms' !! (j * 3 + k)%nat = positions ms !! (j * 3 + k)%nat)
  /\ (forall j, (j < count)%nat ->
        exists l y, lives ms' !! j = Some l
                    /\ positions ms' !! (j * 3 + 1)%nat = Some y
                    /\ 0 < l /\ l <= 1 /\ mistBand l y).
Proof.
  intros U [Len Ok] C. cbv zeta.
  apply (forEach_invariant
    (fun i st =>
       (i <= List.length (lives ms))%nat ->
       List.length (positions (fst st)) = List.length (positions ms)
       /\ List.length (lives (fst st)) = List.length (lives ms)
       /\ (forall j, (i <= j)%nat -> lives (fst st) !! j = lives ms !! j)
       /\ (forall j k, (i <= j)%nat -> (k < 3)%nat ->
             positions (fst st) !! (j * 3 + k)%nat = positions ms !! (j * 3 + k)%nat)
       /\ (forall j, (j < i)%nat ->
             exists l y, lives (fst st) !! j = Some l
                         /\ positions (fst st) !! (j * 3 + 1)%nat = Some y
                         /\ 0 < l /\ l <= 1 /\ mistBand l y))); [| |exact C].
  - intros _. simpl. repeat split; intros; try reflexivity; lia.
  - intros i [ms1 n1] I IH I'. destruct IH as (Lp & Ll & Lv & Ps & Done); [lia|].
    cbn [fst] in *.
    destruct (mistParticle_spec g i ms1 n1) as (Lp' & Ll' & _ & Lv' & Ps').
    split; [congruence|]. split; [congruence|].
    split; [|split].
    + intros j J. rewrite Lv' by lia. apply Lv. lia.
    + intros j k J K. rewrite Ps' by lia. apply Ps; lia.
    + intros j J. destruct (decide (j = i)) as [->|Ne].
      * destruct (Ok i) as (l & y & L & Y & L0 & L1 & B); [lia|].
        apply (mistParticle_own g i ms1 n1 l y U); try assumption.
        -- rewrite Lv by lia. exact L.
        -- rewrite Ps by lia. exact Y.
      * destruct (Done j) as (l & y & L & Y & R); [lia|].
        exists l, y. split; [rewrite Lv' by lia; exact L|].
        split; [rewrite Ps' by lia; exact Y|]. exact R.
Qed.

Lemma hideParticle_loop (count : nat) (ms : FoamSystem) (n : nat) :
  uniform01 ->
  List.length (positions ms) = (List.length (lives ms) * 3)%nat ->
  (count <= List.length (lives ms))%nat ->
  let ms' := fst (forEach count hideParticle (ms, n)) in
  List.length (positions ms') = List.length (positions ms)
  /\ List.length (lives ms') = List.length (lives ms)
  /\ (forall j, (j < count)%nat ->
        exists l, lives ms' !! j = Some l
                  /\ positions ms' !! (j * 3)%nat = Some 0
                  /\ positions ms' !! (j * 3 + 1)%nat = Some (-500)
                  /\ positions ms' !! (j * 3 + 2)%nat = Some 0
                  /\ 0 <= l /\ l <= 1).
Proof.
  intros U Len C. cbv zeta.
  apply (forEach_invariant
    (fun i st =>
       (i <= List.length (lives ms))%nat ->
       List.length (positions (fst st)) = List.length (positions ms)
       /\ List.length (lives (fst st)) = List.length (lives ms)
       /\ (forall j, (j < i)%nat ->
             exists l, lives (fst st) !! j = Some l
                       /\ positions (fst st) !! (j * 3)%nat = Some 0
                       /\ positions (fst st) !! (j * 3 + 1)%nat = Some (-500)
                       /\ positions (fst st) !! (j * 3 + 2)%nat = Some 0
                       /\ 0 <= l /\ l <= 1))); [| |exact C].
  - intros _. simpl. repeat split; intros; try reflexivity; lia.
  - intros i [ms1 n1] I IH I'. destruct IH as (Lp & Ll & Done); [lia|].
    cbn [fst] in *. unfold hideParticle, nextRandom. cbn [fst positions lives offsets].
    split; [rewrite !length_insert; exact Lp|].
    split; [rewrite length_insert; exact Ll|].
    intros j J. destruct (decide (j = i)) as [->|Ne].
    + exists (fround (random n1)). destruct (U n1) as [U0 U1].
      split; [apply list_lookup_insert_eq; lia|].
      split.
      { rewrite !list_lookup_insert_ne by lia. apply list_lookup_insert_eq. lia. }
      split.
      { rewrite list_lookup_insert_ne by lia. apply list_lookup_insert_eq.
        rewrite length_insert. lia. }
      split; [apply list_lookup_insert_eq; rewrite !length_insert; lia|].
      apply (fround_clamp 0 1); [exact fround_0|exact fround_1|lra|lra].
    + destruct (Done j) as (l & L & X & Y & Z & R); [lia|].
      exists l. rewrite !list_lookup_insert_ne by lia. auto.
Qed.

(** X10.  [createMistSystem] hides all 5000 particles at height -500, with
    lives in [0, 1] (the arrays hold single-precision numbers, and a draw
    below 1 may be stored as 1).  With draws in [0, 1), a mist pass keeps
    the number of particles, leaves every stored life in (0, 1], and keeps
    every particle that has been respawned at most 1 high and, [a] passes
    after its respawn, at least -0.5 - 0.150001 * a high, with a life of at
    most 1 - 0.014999 * a: a mist particle that is not hidden is never above
    height 1 (it can be at 1) and never at or below -10.5 (relative to the
    water). *)
Theorem mist_band_invariant (g : World) :
  uniform01 ->
  (forall n, mistSettled (fst (createMistSystem n))
             /\ List.length (lives (fst (createMistSystem n))) = mistCount
             /\ forall i y, positions (fst (createMistSystem n)) !! (i * 3 + 1)%nat = Some y ->
                  y = -500)
  /\ (forall ms n,
        mistSettled ms ->
        let ms' := fst (updateMist g (ms, n)) in
        mistSettled ms'
        /\ List.length (lives ms') = List.length (lives ms)
        /\ (forall i l, lives ms' !! i = Some l -> 0 < l /\ l <= 1)
        /\ (forall i y, positions ms' !! (i * 3 + 1)%nat = Some y ->
              -500 < y -> -10.5 < y /\ y <= 1)).
Proof.
  intros U. split.
  - intros n. unfold createMistSystem. cbv zeta.
    set (fresh := mkFoamSystem _ _ _).
    destruct (hideParticle_loop mistCount fresh n U) as (Lp & Ll & Done).
    { unfold fresh. cbn [positions lives]. rewrite !length_replicate. reflexivity. }
    { unfold fresh. cbn [lives]. rewrite length_replicate. lia. }
    cbv zeta in Lp, Ll, Done.
    assert (Ll' : List.length (lives (fst (forEach mistCount hideParticle (fresh, n))))
                  = mistCount).
    { rewrite Ll. unfold fresh. cbn [lives]. apply length_replicate. }
    assert (Lp' : List.length (positions (fst (forEach mistCount hideParticle (fresh, n))))
                  = (mistCount * 3)%nat).
    { rewrite Lp. unfold fresh. cbn [positions]. apply length_replicate. }
    split; [|split; [exact Ll'|]].
    + split; [congruence|]. intros i I. rewrite Ll' in I.
      destruct (Done i I) as (l & L & _ & Y & _ & L0 & L1).
      exists l, (-500). repeat split; try assumption; try lra. left. lra.
    + intros i y Y. assert (I : (i < mistCount)%nat).
      { apply lookup_lt_Some in Y. rewrite Lp' in Y. lia. }
      destruct (Done i I) as (l & _ & _ & Y' & _). congruence.
  - intros ms n S ms'. unfold ms', updateMist. cbn [fst].
    pose proof S as [Len Ok].
    assert (Cnt : ((List.length (positions ms) + 2) / 3 = List.length (lives ms))%nat).
    { rewrite Len. rewrite Nat.div_add_l by lia. simpl. lia. }
    rewrite Cnt.
    destruct (updateMist_loop g (List.length (lives ms)) ms n U S) as (Lp & Ll & _ & _ & Done);
      [lia|].
    cbv zeta in Lp, Ll, Done.
    split; [|split; [exact Ll|split]].
    + split; [congruence|]. intros i I. rewrite Ll in I.
      destruct (Done i I) as (l & y & L & Y & L0 & L1 & B).
      exists l, y. repeat split; try assumption. lra.
    + intros i l L. assert (I : (i < List.length (lives ms))%nat).
      { apply lookup_lt_Some in L. lia. }
      destruct (Done i I) as (l' & y & L' & _ & L0 & L1 & _).
      assert (l = l') by congruence. subst l'. split; assumption.
    + intros i y Y V. assert (I : (i < List.length (lives ms))%nat).
      { apply lookup_lt_Some in Y. lia. }
      destruct (Done i I) as (l & y' & _ & Y' & L0 & L1 & B).
      assert (y = y') by congruence. subst y'.
      destruct B as [B|(a & Ba & B0 & B1)]; [lra|].
      pose proof (age_bound a l L0 Ba) as A. split; lra.
Qed.

Lemma mistParticle_life (g : World) (i : nat) (ms : FoamSystem) (n : nat) (l : Q) :
  lives ms !! i = Some l ->
  lives (fst (mistParticle g i (ms, n))) !! i
  = Some (if Qleb (fround (l - 0.015)) 0 then 1.0 else fround (l - 0.015)).
Proof.
  intros L. unfold mistParticle, nextRandom.
  rewrite list_lookup_alter_eq, L. cbn [fmap option_fmap option_map].
  assert (Ll : (i < List.length (lives ms))%nat)
    by (apply lookup_lt_Some in L; exact L).
  destruct (Qleb (fround (l - 0.015)) 0); cbn [fst lives].
  - apply list_lookup_insert_eq. rewrite length_alter. exact Ll.
  - rewrite list_lookup_alter_eq, L. reflexivity.
Qed.

Lemma updateMist_life (g : World) (ms : FoamSystem) (n : nat) (i : nat) (l : Q) :
  List.length (positions ms) = (List.length (lives ms) * 3)%nat ->
  lives ms !! i = Some l ->
  lives (fst (updateMist g (ms, n))) !! i
  = Some (if Qleb (fround (l - 0.015)) 0 then 1.0 else fround (l - 0.015)).
Proof.
  intros Len L. unfold updateMist. cbn [fst].
  assert (Cnt : ((List.length (positions ms) + 2) / 3 = List.length (lives ms))%nat).
  { rewrite Len. rewrite Nat.div_add_l by lia. simpl. lia. }
  rewrite Cnt.
  assert (I : (i < List.length (lives ms))%nat)
    by (apply lookup_lt_Some in L; exact L).
  assert (Fin :
    (fun k st =>
       (k <= i)%nat /\ lives (fst st) !! i = Some l
       \/ (i < k)%nat /\ lives (fst st) !! i
                         = Some (if Qleb (fround (l - 0.015)) 0 then 1.0
                                 else fround (l - 0.015)))
    (List.length (lives ms)) (forEach (List.length (lives ms)) (mistParticle g) (ms, n))).
  2:{ destruct Fin as [[K _]|[_ E]]; [lia|exact E]. }
  apply forEach_invariant.
  - left. split; [lia|exact L].
  - intros k [ms1 n1] K [[Ki E]|[Ki E]]; cbn [fst] in *.
    + destruct (decide (k = i)) as [->|Ne].
      * right. split; [lia|]. apply mistParticle_life, E.
      * left. split; [lia|].
        destruct (mistParticle_spec g k ms1 n1) as (_ & _ & _ & Lv & _).
        rewrite Lv by congruence. exact E.
    + right. split; [lia|].
      destruct (mistParticle_spec g k ms1 n1) as (_ & _ & _ & Lv & _).
      rewrite Lv by lia. exact E.
Qed.

Lemma updateMist_shape (g : World) (ms : FoamSystem) (n : nat) :
  List.length (positions ms) = (List.length (lives ms) * 3)%nat ->
  List.length (positions (fst (updateMist g (ms, n))))
  = (List.length (lives (fst (updateMist g (ms, n)))) * 3)%nat
  /\ List.length (lives (fst (updateMist g (ms, n)))) = List.length (lives ms).
Proof.
  intros Len. unfold updateMist. cbn [fst].
  set (count := (_ / 3)%nat).
  assert (K : List.length (positions (fst (forEach count (mistParticle g) (ms, n))))
              = List.length (positions ms)
              /\ List.length (lives (fst (forEach count (mistParticle g) (ms, n))))
                 = List.length (lives ms)).
  { apply (forEach_invariant
      (fun _ st => List.length (positions (fst st)) = List.length (positions ms)
                   /\ List.length (lives (fst st)) = List.length (lives ms))).
    - split; reflexivity.
    - intros k [ms1 n1] _ [A B]. cbn [fst] in *.
      destruct (mistParticle_spec g k ms1 n1) as (Lp & Ll & _).
      split; congruence. }
  destruct K as [A B]. split; congruence.
Qed.

(** A life in [0, b] is reset within [m] passes when [b] is used up by [m]
    stored decrements, each of at least 0.014999. *)
Lemma mistPasses_reset (m : nat) :
  forall (gs : list World) (ms : FoamSystem) (n : nat) (i : nat) (l b : Q),
  List.length (positions ms) = (List.length (lives ms) * 3)%nat ->
  lives ms !! i = Some l -> 0 <= l -> l <= b -> b <= 1 ->
  b - 0.014999 * inject_Z (Z.of_nat (S m)) <= 0 ->
  List.length gs = S m ->
  exists k, (k <= m)%nat
            /\ lives (fst (mistPasses (firstn (S k) gs) (ms, n))) !! i = Some 1.0.
Proof.
  induction m as [|m IH]; intros gs ms n i l b Len L L0 B B1 Used Lg.
  - destruct gs as [|g gs]; [discriminate|]. exists 0%nat. split; [lia|].
    cbn [firstn mistPasses].
    destruct (updateMist g (ms, n)) as [ms1 n1] eqn:E.
    pose proof (updateMist_life g ms n i l Len L) as Li. rewrite E in Li. cbn [fst] in Li.
    replace (firstn 0 gs) with (@nil World) by (destruct gs; reflexivity).
    cbn [mistPasses fst]. rewrite Li.
    assert (X : Qleb (fround (l - 0.015)) 0 = true).
    { apply Qleb_le. change (inject_Z (Z.of_nat 1)) with 1 in Used.
      rewrite <- fround_0. apply fround_monotone. lra. }
    rewrite X. reflexivity.
  - destruct gs as [|g gs]; [discriminate|].
    destruct (updateMist g (ms, n)) as [ms1 n1] eqn:E.
    pose proof (updateMist_life g ms n i l Len L) as Li. rewrite E in Li. cbn [fst] in Li.
    pose proof (updateMist_shape g ms n Len) as [Len1 _]. rewrite E in Len1. cbn [fst] in Len1.
    destruct (Qleb (fround (l - 0.015)) 0) eqn:X.
    + exists 0%nat. split; [lia|]. cbn [firstn mistPasses]. rewrite E.
      replace (firstn 0 gs) with (@nil World) by (destruct gs; reflexivity).
      exact Li.
    + apply Qleb_nle in X.
      assert (Fade : fround (l - 0.015) <= l - 0.014999) by (apply fround_fade; lra).
      destruct (IH gs ms1 n1 i (fround (l - 0.015)) (b - 0.014999) Len1 Li) as (k & K & R).
      * lra.
      * lra.
      * lra.
      * rewrite succ_age in Used. lra.
      * simpl in Lg. lia.
      * exists (S k). split; [lia|].
        change (firstn (S (S k)) (g :: gs)) with (g :: firstn (S k) gs).
        cbn [mistPasses]. rewrite E. exact R.
Qed.

(** X11.  Every mist particle is respawned within 67 consecutive passes: from
    a settled state, for each particle there is a pass among the next 67 after
    which its life is 1.0, whatever the river settings are in each of these
    frames. *)
Theorem mist_respawns_within_67 (gs : list World) (ms : FoamSystem) (n i : nat) :
  mistSettled ms -> List.length gs = 67%nat ->
  (i < List.length (lives ms))%nat ->
  exists k, (k < 67)%nat
            /\ lives (fst (mistPasses (firstn (S k) gs) (ms, n))) !! i = Some 1.0.
Proof.
  intros [Len Ok] Lg I.
  destruct (Ok i I) as (l & y & L & _ & L0 & L1 & _).
  destruct (mistPasses_reset 66 gs ms n i l 1 Len L L0 L1) as (k & K & R).
  - lra.
  - vm_compute. discriminate.
  - exact Lg.
  - exists k. split; [lia|exact R].
Qed.

End MistProperties.

(** ** The layout of the river *)

Section RiverLayoutProperties.
Context {Quaternion : Type} `{H : Host Quaternion}.

Local Abbreviation World := (@World Quaternion) (only parsing).
Local Abbreviation Object3D := (@Object3D Quaternion) (only parsing).

(** X12.  After [updateWaterScale], when the water and the two falls exist,
    the water plane (9 by 60 before scaling) is centred on the configured
    water position and is as wide and as long as the river settings say; the
    two falls are as wide as the river and centred on the two ends of the
    water, with their upper edge at the water height, and the lower edge of
    the first is the waterfall drop below it. *)
Theorem river_layout_matches (pa : riverParams.t) (s : Layout)
    (w f1 f2 : Mesh) :
  layout_water s = Some w -> layout_waterfall s = Some f1 ->
  layout_waterfall2 s = Some f2 ->
  exists w' f1' f2',
    layout_water (updateWaterScale pa s) = Some w'
    /\ layout_waterfall (updateWaterScale pa s) = Some f1'
    /\ layout_waterfall2 (updateWaterScale pa s) = Some f2'
    /\ mesh_position w' = mkVector3 (riverParams.waterX pa) (riverParams.waterHeight pa)
                            (riverParams.waterZ pa)
    /\ planeWidth * vx (mesh_scale w') == riverParams.width pa
    /\ planeLength * vy (mesh_scale w') == riverParams.length pa
    /\ planeWidth * vx (mesh_scale f1') == riverParams.width pa
    /\ planeWidth * vx (mesh_scale f2') == riverParams.width pa
    /\ vz (mesh_position f1') == vz (mesh_position w') + planeLength * vy (mesh_scale w') / 2
    /\ vz (mesh_position f2') == vz (mesh_position w') - planeLength * vy (mesh_scale w') / 2
    /\ vy (mesh_position f1') + fallHeight * vy (mesh_scale f1') / 2 == riverParams.waterHeight pa
    /\ vy (mesh_position f2') + fallHeight * vy (mesh_scale f2') / 2 == riverParams.waterHeight pa
    /\ vy (mesh_position f1') - fallHeight * vy (mesh_scale f1') / 2
       == riverParams.waterHeight pa - riverParams.waterfallDrop pa.
Proof.
  intros W F1 F2. unfold updateWaterScale, updateRiverHeight. simpl.
  rewrite W, F1, F2. simpl. do 3 eexists.
  split; [reflexivity|]. split; [reflexivity|]. split; [reflexivity|].
  simpl. unfold planeWidth, planeLength, fallHeight.
  repeat split; try reflexivity; field.
Qed.

(** X13.  The region in which the controller treats the player as in the river
    is the region that is drawn: once the water mesh exists, [inRiver] holds
    exactly when the player is strictly inside the footprint of the water
    plane as [updateWaterScale] lays it out and its feet are lower than the
    plane plus 0.5. *)
Theorem river_physics_matches_plane (g : World) (p : Object3D) (s : Layout)
    (w' : Mesh) :
  water g <> None ->
  layout_water (updateWaterScale (params g) s) = Some w' ->
  inRiver p g = true
  <-> (Qabs (vx (position p) - vx (mesh_position w'))
         < planeWidth * vx (mesh_scale w') / 2
       /\ Qabs (vz (position p) - vz (mesh_position w'))
          < planeLength * vy (mesh_scale w') / 2
       /\ vy (position p) < vy (mesh_position w') + 0.5).
Proof.
  intros W L. unfold updateWaterScale, updateRiverHeight in L. simpl in L.
  destruct (layout_water s) as [w|]; [|discriminate]. simpl in L.
  inversion L; subst w'; clear L. simpl.
  unfold inRiver. destruct (water g) as [mesh|]; [|congruence]. cbv zeta.
  rewrite !andb_true_iff, !Qltb_lt.
  assert (Ew : planeWidth * (riverParams.width (params g) / 9) / 2
               == riverParams.width (params g) / 2) by (unfold planeWidth; field).
  assert (El : planeLength * (riverParams.length (params g) / 60) / 2
               == riverParams.length (params g) / 2) by (unfold planeLength; field).
  rewrite Ew, El. tauto.
Qed.

(** X14.  A foam marker created at the world position (x, z) is stored
    relative to the water as it is then; when the water is moved afterwards,
    [updateRiverHeight] moves the mesh of the marker by the same amount in X
    and Z and puts it 0.8 below the new water height; the markers that existed
    before keep their stored place and radius. *)
Theorem marker_follows_water (pa pa' : riverParams.t) (x z radius : Q) (s : Layout) :
  let s1 := createFoamMarker pa x z radius s in
  let s2 := updateRiverHeight pa' s1 in
  exists m,
    layout_rocks s2 !! List.length (layout_rocks s)
    = Some (mkAnchor (mkRock (x - riverParams.waterX pa) (z - riverParams.waterZ pa) radius)
              (Some m))
    /\ vx (mesh_position m) == x + (riverParams.waterX pa' - riverParams.waterX pa)
    /\ vz (mesh_position m) == z + (riverParams.waterZ pa' - riverParams.waterZ pa)
    /\ vy (mesh_position m) = riverParams.waterHeight pa' - 0.8
    /\ List.length (layout_rocks s2) = S (List.length (layout_rocks s))
    /\ (forall k a, layout_rocks s !! k = Some a ->
          exists a', layout_rocks s2 !! k = Some a' /\ anchor_rock a' = anchor_rock a).
Proof.
  cbv zeta. unfold updateRiverHeight, createFoamMarker. cbn [layout_rocks].
  rewrite map_app. cbn [map anchor_rock anchor_mesh fmap option_fmap option_map moveTo
                          rock_x rock_z mesh_scale].
  eexists. split; [|split; [|split; [|split; [|split]]]].
  - rewrite lookup_app_r by (rewrite length_map; lia).
    rewrite length_map, Nat.sub_diag. reflexivity.
  - simpl. ring.
  - simpl. ring.
  - reflexivity.
  - rewrite length_app, length_map. simpl. lia.
  - intros k a A. eexists. split.
    + rewrite lookup_app_l by (rewrite length_map; apply lookup_lt_Some in A; exact A).
      rewrite list_lookup_fmap, A. reflexivity.
    + reflexivity.
Qed.

End RiverLayoutProperties.

(** ** Sounds *)

Section SoundsProperties.
Context {Quaternion : Type} `{H : Host Quaternion}.

Local Abbreviation World := (@World Quaternion) (only parsing).
Local Abbreviation Object3D := (@Object3D Quaternion) (only parsing).

Lemma proximity_spec (zone : Zone) (dist : Q) (isPlaying played : bool) :
  let r := proximity zone dist isPlaying played in
  (snd r = true -> played = false /\ dist < triggerDist zone /\ isPlaying = false
                   /\ fst r = true)
  /\ (played = true -> dist <= resetDist zone -> r = (true, false))
  /\ (played = true -> resetDist zone < dist -> r = (false, false))
  /\ (played = false -> dist < triggerDist zone -> r = (true, negb isPlaying))
  /\ (played = false -> triggerDist zone <= dist -> r = (false, false)).
Proof.
  unfold proximity. cbv zeta.
  destruct played; simpl.
  - destruct (Qgtb dist (resetDist zone)) eqn:C;
      [apply Qgtb_gt in C|apply Qgtb_ngt in C]; simpl;
      repeat split; intros; try discriminate; try reflexivity; lra.
  - destruct (Qltb dist (triggerDist zone)) eqn:C;
      [apply Qltb_lt in C|apply Qltb_nlt in C]; simpl;
      repeat split; intros; try discriminate; try reflexivity;
      try assumption; try lra.
    destruct isPlaying; [discriminate|reflexivity].
Qed.

(** X15.  While the player stays within the reset distance of a proximity
    sound, the proximity block of [animate] starts the sound at most once
    over any sequence of frames and timer callbacks, and not at all when its
    flag was set already; a flag that is set stays set.  For the fisherman
    and the oxen these are all the [play()] calls there are.  The cows, the
    sheep and the deer are also started by their timers, which do not look
    at the flag: every callback that finds the sound silent starts it, so
    these sounds can be heard again without the player leaving. *)
Theorem proximity_plays_once (s : Source) (at_ : Vector3)
    (events : list SoundEvent) (played : bool) :
  staysWithin (resetDist (zoneOf s)) at_ events ->
  let r := soundEvents s at_ events played in
  (playsByFrames r <= 1)%nat
  /\ (played = true -> playsByFrames r = 0%nat /\ heard_played r = true)
  /\ (playsByFrames r = 1%nat -> heard_played r = true)
  /\ playsByTimers r = (if scheduled s then silentTimers events else 0%nat).
Proof.
  intros Near. cbv zeta. revert played.
  induction Near as [|[g loaded isPlaying|isPlaying] rest Hd Tl IH]; intros played.
  - simpl. repeat split; try lia; try (intros; assumption).
    destruct (scheduled s); reflexivity.
  - cbn [soundEvents].
    assert (Step : let r := proximitySound (zoneOf s) at_ g loaded isPlaying played in
                   (played = true -> r = (true, false))
                   /\ (snd r = true -> fst r = true)
                   /\ (played = false -> fst r = false -> snd r = false)).
    { unfold proximitySound. cbv zeta.
      destruct (player g) as [p|] eqn:P.
      2:{ repeat split; intros; subst; simpl in *; congruence. }
      destruct loaded.
      2:{ repeat split; intros; subst; simpl in *; congruence. }
      pose proof (Hd p eq_refl) as D.
      destruct (proximity_spec (zoneOf s) (distanceTo (position p) at_) isPlaying played)
        as (A & B & _ & C & E).
      repeat split.
      - intros ->. apply B; [reflexivity|exact D].
      - intros S. apply A, S.
      - intros -> F.
        destruct (Qltb (distanceTo (position p) at_) (triggerDist (zoneOf s))) eqn:X.
        + apply Qltb_lt in X. rewrite (C eq_refl X) in F. discriminate.
        + apply Qltb_nlt in X. rewrite E; [reflexivity|reflexivity|lra]. }
    cbv zeta in Step.
    destruct (proximitySound (zoneOf s) at_ g loaded isPlaying played)
      as [played1 play] eqn:E.
    destruct Step as (S1 & S2 & S3). cbn [fst snd] in *.
    specialize (IH played1).
    destruct (soundEvents s at_ rest played1) as [final near timed] eqn:R.
    cbn [heard_played playsByFrames playsByTimers] in *.
    destruct IH as (I1 & I2 & I3 & I4).
    assert (T : timed = if scheduled s
                        then silentTimers (animateFrame g loaded isPlaying :: rest)
                        else 0%nat) by exact I4.
    destruct play.
    + assert (played1 = true) by (apply S2; reflexivity). subst played1.
      destruct (I2 eq_refl) as [-> ->].
      split; [lia|]. split; [|split; [intros _; reflexivity|exact T]].
      intros ->. specialize (S1 eq_refl). discriminate.
    + split; [lia|]. split; [|split; [|exact T]].
      * intros ->. specialize (S1 eq_refl). inversion S1; subst.
        destruct (I2 eq_refl) as [-> ->]. split; reflexivity.
      * intros P1. apply I3. lia.
  - cbn [soundEvents]. specialize (IH played).
    destruct (soundEvents s at_ rest played) as [final near timed] eqn:R.
    cbn [heard_played playsByFrames playsByTimers] in *.
    destruct IH as (I1 & I2 & I3 & I4).
    split; [exact I1|]. split; [exact I2|]. split; [exact I3|].
    rewrite I4. unfold schedule. cbn [silentTimers].
    destruct (scheduled s), isPlaying; reflexivity.
Qed.

Lemma footstep_spec (g : World) (loaded : bool) (now lastStepTime : Q) :
  let r := footstep g loaded now lastStepTime in
  (snd r = true ->
     fst r = now /\ player g <> None /\ loaded = true /\ isGrounded g = true
     /\ (keys.w (keys (input g)) || keys.a (keys (input g))
         || keys.s (keys (input g)) || keys.d (keys (input g))) = true
     /\ 300 < now - lastStepTime
     /\ (keys.shift (keys (input g)) = false -> 500 < now - lastStepTime))
  /\ (snd r = false -> fst r = lastStepTime).
Proof.
  unfold footstep. cbv zeta.
  destruct (player g) as [p|]; [|simpl; split; [discriminate|reflexivity]].
  destruct loaded; [|simpl; split; [discriminate|reflexivity]].
  destruct (isGrounded g); [|simpl; split; [discriminate|reflexivity]].
  simpl andb.
  destruct (keys.w _ || keys.a _ || keys.s _ || keys.d _);
    [|simpl; split; [discriminate|reflexivity]].
  destruct (keys.shift (keys (input g)));
    (destruct (Qgtb _ _) eqn:C; [apply Qgtb_gt in C|];
     simpl; (split; [|try discriminate; reflexivity]);
     try discriminate; intros _; repeat split; try discriminate; try lra).
Qed.

Lemma footstepFrames_spaced (frames : list (World * bool * Q)) (start last : Q)
    (steps : list Q) :
  last = hd start steps -> spaced 300 start steps ->
  let r := footstepFrames frames last steps in
  fst r = hd start (snd r) /\ spaced 300 start (snd r)
  /\ exists newer, snd r = newer ++ steps.
Proof.
  revert last steps. induction frames as [|[[g loaded] now] rest IH];
    intros last steps L S.
  - simpl. repeat split; try assumption. exists []. reflexivity.
  - cbn [footstepFrames].
    destruct (footstep_spec g loaded now last) as [Play Quiet]. cbv zeta in Play, Quiet.
    destruct (footstep g loaded now last) as [last1 play]. cbn [fst snd] in *.
    destruct play.
    + destruct (Play eq_refl) as (-> & _ & _ & _ & _ & Gap & _).
      destruct (IH now (now :: steps)) as (A & B & newer & C).
      * reflexivity.
      * simpl. split; [rewrite <- L; exact Gap|exact S].
      * cbv zeta. split; [exact A|]. split; [exact B|].
        exists (newer ++ [now]). rewrite <- app_assoc. exact C.
    + rewrite (Quiet eq_refl). apply IH; assumption.
Qed.

(** X16.  A footstep sounds only in a frame in which the player is grounded,
    one of the keys W, A, S, D is held (the joystick does not count) and more
    than 500 ms, or 300 ms with shift held, have passed since the last step.
    Over any sequence of frames consecutive steps are more than 300 ms apart,
    and the time kept as last step time is that of the latest step that
    sounded. *)
Theorem footsteps_spaced (frames : list (World * bool * Q)) (start : Q) :
  (forall (g : World) loaded now last,
     snd (footstep g loaded now last) = true ->
     isGrounded g = true
     /\ (keys.w (keys (input g)) || keys.a (keys (input g))
         || keys.s (keys (input g)) || keys.d (keys (input g))) = true
     /\ (if keys.shift (keys (input g)) then 300 else 500) < now - last)
  /\ spaced 300 start (snd (footstepFrames frames start []))
  /\ fst (footstepFrames frames start [])
     = hd start (snd (footstepFrames frames start [])).
Proof.
  split.
  - intros g loaded now last P.
    destruct (footstep_spec g loaded now last) as [Play _].
    destruct (Play P) as (_ & _ & _ & G & K & A & B).
    split; [exact G|]. split; [exact K|].
    destruct (keys.shift (keys (input g))); [exact A|apply B; reflexivity].
  - destruct (footstepFrames_spaced frames start start [] eq_refl I) as (A & B & _).
    split; assumption.
Qed.

(** X17.  For a river whose length is not negative, the river sound is placed
    on the centre line of the water at water height, at the point of the
    segment between the two ends of the river that is nearest to the player
    along Z, which is the player's own Z when that lies between the ends. *)
Theorem river_sound_nearest (g : World) (p : Object3D) :
  0 <= riverParams.length (params g) ->
  let halfLength := riverParams.length (params g) / 2 in
  let minZ := riverParams.waterZ (params g) - halfLength in
  let maxZ := riverParams.waterZ (params g) + halfLength in
  let s := riverSoundPosition g p in
  vx s = riverParams.waterX (params g) /\ vy s = riverParams.waterHeight (params g)
  /\ minZ <= vz s /\ vz s <= maxZ
  /\ (minZ <= vz (position p) -> vz (position p) <= maxZ -> vz s == vz (position p))
  /\ (forall z, minZ <= z -> z <= maxZ ->
        Qabs (vz (position p) - vz s) <= Qabs (vz (position p) - z)).
Proof.
  intros L. cbv zeta. unfold riverSoundPosition, Math_max, Math_min. cbv zeta.
  cbn [vx vy vz].
  set (lo := riverParams.waterZ (params g) - riverParams.length (params g) / 2).
  set (hi := riverParams.waterZ (params g) + riverParams.length (params g) / 2).
  assert (LH : lo <= hi).
  { unfold lo, hi. assert (0 <= riverParams.length (params g) / 2).
    { apply Qle_shift_div_l; lra. }
    lra. }
  set (pz := vz (position p)).
  split; [reflexivity|]. split; [reflexivity|].
  destruct (Qltb pz hi) eqn:A; [apply Qltb_lt in A|apply Qltb_nlt in A];
    (destruct (Qltb lo _) eqn:B; [apply Qltb_lt in B|apply Qltb_nlt in B]).
  - repeat split; try lra. intros z Z0 Z1.
    rewrite (Qabs_pos (pz - pz)) by lra.
    pose proof (Qabs_nonneg (pz - z)). lra.
  - assert (E : pz <= lo) by lra.
    split; [lra|]. split; [lra|]. split.
    + intros. lra.
    + intros z Z0 Z1. rewrite (Qabs_neg (pz - lo)) by lra.
      rewrite (Qabs_neg (pz - z)) by lra. lra.
  - split; [lra|]. split; [lra|]. split.
    + intros. lra.
    + intros z Z0 Z1. rewrite (Qabs_pos (pz - hi)) by lra.
      rewrite (Qabs_pos (pz - z)) by lra. lra.
  - split; [lra|]. split; [lra|]. split.
    + intros. lra.
    + intros z Z0 Z1. rewrite (Qabs_pos (pz - lo)) by lra.
      rewrite (Qabs_pos (pz - z)) by lra. lra.
Qed.

End SoundsProperties.

(** ** Keyboard, touch look and joystick *)

Section ControlsProperties.
Context {Quaternion : Type} `{H : Host Quaternion}.

Local Abbreviation World := (@World Quaternion) (only parsing).
Local Abbreviation Object3D := (@Object3D Quaternion) (only parsing).

Lemma clamp_range (lo hi x : Q) :
  lo <= hi -> lo <= Math_max lo (Math_min hi x) /\ Math_max lo (Math_min hi x) <= hi.
Proof.
  intros L. unfold Math_max, Math_min.
  destruct (Qltb x hi) eqn:A; [apply Qltb_lt in A|apply Qltb_nlt in A];
    (destruct (Qltb lo _) eqn:B; [apply Qltb_lt in B|apply Qltb_nlt in B]);
    split; lra.
Qed.

Lemma fold_left_invariant {A B : Type} (P : A -> Prop) (f : A -> B -> A)
    (l : list B) (a : A) :
  P a -> (forall a b, P a -> P (f a b)) -> P (fold_left f l a).
Proof.
  intros Pa Step. revert a Pa. induction l as [|b l IH]; intros a Pa; [exact Pa|].
  simpl. apply IH, Step, Pa.
Qed.

Lemma dispatch_pitch (e : TouchEvent) (s : Look) :
  0 <= PI -> pitchInRange s -> pitchInRange (dispatch e s).
Proof.
  intros Pi R. destruct e as [w c touches|touches|touches]; simpl.
  - unfold lookTouchStart. apply fold_left_invariant; [exact R|].
    intros a b Pa. destruct c; [exact Pa|].
    destruct (Qgtb _ _); [|exact Pa]. destruct (lookTouchId a); exact Pa.
  - unfold lookTouchMove. destruct (lookTouchId s); [|exact R].
    apply fold_left_invariant; [exact R|].
    intros a b Pa. destruct (lookTouchId a) as [id|]; [|exact Pa].
    destruct (identifier b =? id)%Z; [|exact Pa].
    unfold pitchInRange. cbn [rotation_x]. apply clamp_range.
    assert (0 <= PI / 2) by (apply Qle_shift_div_l; lra).
    assert (E : - PI / 2 == - (PI / 2)) by field. lra.
  - unfold lookTouchEnd. apply fold_left_invariant; [exact R|].
    intros a b Pa. destruct (lookTouchId a) as [id|]; [|exact Pa].
    destruct (identifier b =? id)%Z; exact Pa.
Qed.

(** X18.  With [PI] not negative, no sequence of touch events takes the camera
    pitch out of the range from -PI/2 to PI/2. *)
Theorem touch_look_pitch_clamped (events : list TouchEvent) (s : Look) :
  0 <= PI -> pitchInRange s ->
  pitchInRange (fold_left (fun s e => dispatch e s) events s).
Proof.
  intros Pi R. apply fold_left_invariant; [exact R|].
  intros a e Pa. apply dispatch_pitch; assumption.
Qed.

Lemma fold_left_id {A B : Type} (f : A -> B -> A) (l : list B) (a : A) :
  (forall b, f a b = a) -> fold_left f l a = a.
Proof. intros F. induction l as [|b l IH]; [reflexivity|]. simpl. rewrite F. exact IH. Qed.

(** X19.  The touch look follows one finger.  A touch that starts while a look
    touch is active, on one of the controls, or on the left 40% of the window
    is ignored; moves and ends of other fingers, or with no look touch active,
    change nothing; and with no look touch active the first touch of an event
    that starts right of 40% of the window width and off the controls becomes
    the look touch, whatever other touches the event carries. *)
Theorem touch_look_first_finger (s : Look) (touches : list Touch) (w : Q) :
  (forall id onControls, lookTouchId s = Some id ->
     lookTouchStart w onControls touches s = s)
  /\ lookTouchStart w true touches s = s
  /\ (Forall (fun t => clientX t <= w * 0.4) touches ->
      forall onControls, lookTouchStart w onControls touches s = s)
  /\ (lookTouchId s = None ->
      lookTouchMove touches s = s /\ lookTouchEnd touches s = s)
  /\ (forall id, lookTouchId s = Some id ->
      Forall (fun t => identifier t <> id) touches ->
      lookTouchMove touches s = s /\ lookTouchEnd touches s = s)
  /\ (forall t rest, lookTouchId s = None -> w * 0.4 < clientX t ->
      lookTouchStart w false (t :: rest) s
      = mkLook (clientX t) (clientY t) (Some (identifier t)) (rotation_x s) (rotation_y s)).
Proof.
  split; [|split; [|split; [|split; [|split]]]].
  - intros id c E. unfold lookTouchStart. apply fold_left_id.
    intros b. destruct c; [reflexivity|]. rewrite E. destruct (Qgtb _ _); reflexivity.
  - unfold lookTouchStart. apply fold_left_id. reflexivity.
  - intros F c. unfold lookTouchStart. revert F.
    induction touches as [|t rest IH]; intros F; [reflexivity|].
    inversion F as [|t0 r0 Ht Hr]; subst. simpl.
    destruct c; [apply IH, Hr|].
    assert (E : Qgtb (clientX t) (w * 0.4) = false) by (apply Qgtb_ngt; lra).
    rewrite E. apply IH, Hr.
  - intros E. split.
    + unfold lookTouchMove. rewrite E. reflexivity.
    + unfold lookTouchEnd. apply fold_left_id. intros b. rewrite E. reflexivity.
  - intros id E F. split.
    + unfold lookTouchMove. rewrite E. revert F.
      induction touches as [|t rest IH]; intros F; [reflexivity|].
      inversion F as [|t0 r0 Ht Hr]; subst. simpl. rewrite E.
      destruct (Z.eqb_spec (identifier t) id); [contradiction|]. apply IH, Hr.
    + unfold lookTouchEnd. revert F.
      induction touches as [|t rest IH]; intros F; [reflexivity|].
      inversion F as [|t0 r0 Ht Hr]; subst. simpl. rewrite E.
      destruct (Z.eqb_spec (identifier t) id); [contradiction|]. apply IH, Hr.
  - intros t rest E X. unfold lookTouchStart. simpl. rewrite E.
    assert (G : Qgtb (clientX t) (w * 0.4) = true) by (apply Qgtb_gt; exact X).
    rewrite G. apply fold_left_id. intros b. cbn [lookTouchId].
    destruct (Qgtb (clientX b) _); reflexivity.
Qed.

(** X20.  During a drag the yaw follows the finger: over any sequence of touch
    moves and touch ends, yaw + 0.004 * (last touch X) stays the same, so the
    yaw has changed by -0.004 times the horizontal travel of the look touch.
    *)
Theorem touch_look_yaw_follows_drag (events : list TouchEvent) (s : Look) :
  Forall (fun e => match e with touchstart _ _ _ => False | _ => True end) events ->
  yawAnchor (fold_left (fun s e => dispatch e s) events s) == yawAnchor s.
Proof.
  intros F. revert s. induction F as [|e rest He Hr IH]; intros s; [reflexivity|].
  simpl. rewrite IH. clear IH Hr rest.
  destruct e as [w c touches|touches|touches]; [contradiction| |]; simpl.
  - unfold lookTouchMove. destruct (lookTouchId s); [|reflexivity].
    apply (fold_left_invariant (fun a => yawAnchor a == yawAnchor s)); [reflexivity|].
    intros a b Pa. destruct (lookTouchId a) as [id|]; [|exact Pa].
    destruct (identifier b =? id)%Z; [|exact Pa].
    rewrite <- Pa. unfold yawAnchor. cbn [rotation_y lastTouchX]. ring.
  - unfold lookTouchEnd.
    apply (fold_left_invariant (fun a => yawAnchor a == yawAnchor s)); [reflexivity|].
    intros a b Pa. destruct (lookTouchId a) as [id|]; [|exact Pa].
    destruct (identifier b =? id)%Z; exact Pa.
Qed.

Lemma updateJoystick_unit (clientX clientY centerX centerY : Q) :
  unitCircle -> positiveRoot ->
  let v := snd (updateJoystick clientX clientY centerX centerY) in
  let dx := clientX - centerX in
  let dy := clientY - centerY in
  fst v * fst v + snd v * snd v <= 1
  /\ Qabs (fst v) <= 1 /\ Qabs (snd v) <= 1
  /\ (50 <= sqrt (dx * dx + dy * dy) -> fst v * fst v + snd v * snd v == 1)
  /\ (sqrt (dx * dx + dy * dy) == 0 -> fst v == 0 /\ snd v == 0).
Proof.
  intros U R. cbv zeta. unfold updateJoystick. cbv zeta. cbn [fst snd].
  set (d := sqrt _). set (a := atan2 _ _).
  pose proof (U a) as C. pose proof (R ((clientX - centerX) * (clientX - centerX)
                                         + (clientY - centerY) * (clientY - centerY))) as D.
  fold d in D.
  set (m := Math_min d 50).
  assert (M : 0 <= m /\ m <= 50 /\ (50 <= d -> m == 50) /\ (d == 0 -> m == 0)).
  { unfold m, Math_min. destruct (Qltb 50 d) eqn:X;
      [apply Qltb_lt in X|apply Qltb_nlt in X]; repeat split; intros; lra. }
  destruct M as (M0 & M1 & M2 & M3).
  assert (Sq : cos a * m / 50 * (cos a * m / 50) + sin a * m / 50 * (sin a * m / 50)
               == (m / 50) * (m / 50)).
  { transitivity ((cos a * cos a + sin a * sin a) * ((m / 50) * (m / 50))); [field|].
    rewrite C. ring. }
  assert (F0 : 0 <= m / 50) by (apply Qle_shift_div_l; lra).
  assert (F1 : m / 50 <= 1) by (apply Qle_shift_div_r; lra).
  assert (Le : (m / 50) * (m / 50) <= 1) by nra.
  assert (Cx : cos a * m / 50 * (cos a * m / 50) <= 1).
  { assert (0 <= sin a * m / 50 * (sin a * m / 50)) by nra. lra. }
  assert (Cy : sin a * m / 50 * (sin a * m / 50) <= 1).
  { assert (0 <= cos a * m / 50 * (cos a * m / 50)) by nra. lra. }
  split; [lra|]. split; [|split; [|split]].
  - apply Qabs_bound; nra.
  - apply Qabs_bound; nra.
  - intros Far. rewrite Sq. specialize (M2 Far).
    assert (E : m / 50 == 1) by (rewrite M2; reflexivity). rewrite E. reflexivity.
  - intros Z. specialize (M3 Z). split.
    + assert (E : cos a * m / 50 == cos a * (m / 50)) by field. rewrite E, M3. field.
    + assert (E : sin a * m / 50 == sin a * (m / 50)) by field. rewrite E, M3. field.
Qed.

(** X21.  On a host whose sine and cosine lie on the unit circle and whose
    square root is not negative, a touch on the joystick zone leaves the keys
    alone and sets a joystick vector that lies in the unit disc: on the unit
    circle when the touch is 50 pixels or more from the centre of the zone,
    and zero when the touch is at the centre.  The end of the touch sets the
    vector to zero, after which the controller sees movement only from the
    keys. *)
Theorem joystick_within_unit (rect_left rect_top rect_width rect_height : Q)
    (touch : Touch) (i : Input) :
  unitCircle -> positiveRoot ->
  let i' := joystickTouch rect_left rect_top rect_width rect_height touch i in
  let v := joystickVector i' in
  let dx := clientX touch - (rect_left + rect_width / 2) in
  let dy := clientY touch - (rect_top + rect_height / 2) in
  keys i' = keys i
  /\ fst v * fst v + snd v * snd v <= 1
  /\ Qabs (fst v) <= 1 /\ Qabs (snd v) <= 1
  /\ (50 <= sqrt (dx * dx + dy * dy) -> fst v * fst v + snd v * snd v == 1)
  /\ (sqrt (dx * dx + dy * dy) == 0 -> fst v == 0 /\ snd v == 0)
  /\ joystickVector (joystickRelease i') = (0, 0)
  /\ isMoving Rev2 (joystickRelease i') = isMoving Rev1 i.
Proof.
  intros U R. cbv zeta.
  destruct (updateJoystick_unit (clientX touch) (clientY touch)
              (rect_left + rect_width / 2) (rect_top + rect_height / 2) U R)
    as (A & B & C & D & E).
  split; [reflexivity|]. split; [exact A|]. split; [exact B|]. split; [exact C|].
  split; [exact D|]. split; [exact E|]. split; [reflexivity|].
  unfold isMoving, joystickRelease, joystickTouch, set_joystickVector.
  cbn [keys joystickVector fst snd].
  change (Qgtb (Qabs 0) 0.1) with false. rewrite !orb_false_r. reflexivity.
Qed.

Lemma toLowerCase_idempotent (s : String.string) :
  toLowerCase (toLowerCase s) = toLowerCase s.
Proof.
  induction s as [|c s IH]; [reflexivity|]. simpl. rewrite IH. f_equal.
  unfold lowerAscii.
  destruct ((65 <=? Ascii.nat_of_ascii c) && (Ascii.nat_of_ascii c <=? 90))%nat eqn:E;
    [|rewrite E; reflexivity].
  apply andb_true_iff in E as [A B]. apply Nat.leb_le in A, B.
  rewrite Ascii.nat_ascii_embedding by lia.
  destruct (Nat.leb_spec (Ascii.nat_of_ascii c + 32) 90); [lia|].
  rewrite andb_false_r. reflexivity.
Qed.

(** X22.  The key handlers compare keys without regard to case: for two keys
    with the same lower-case form, releasing one undoes the press of the
    other, pressing one undoes the release of the other, and pressing or
    releasing both is the same as pressing or releasing one. *)
Theorem key_release_clears_press (key key' : String.string) (k : keys.t) :
  toLowerCase key' = toLowerCase key ->
  keyup key' (keydown key k) = keyup key k
  /\ keydown key' (keyup key k) = keydown key k
  /\ keydown key' (keydown key k) = keydown key k
  /\ keyup key' (keyup key k) = keyup key k
  /\ keydown (toLowerCase key) k = keydown key k.
Proof.
  intros E. unfold keyup, keydown, keySwitch. cbv zeta.
  rewrite toLowerCase_idempotent, E.
  destruct (String.eqb (toLowerCase key) "w"%string);
    [destruct k as [[] ? ? ? ? ?]; cbn; repeat split; auto|].
  destruct (String.eqb (toLowerCase key) "a"%string);
    [destruct k as [? [] ? ? ? ?]; cbn; repeat split; auto|].
  destruct (String.eqb (toLowerCase key) "s"%string);
    [destruct k as [? ? [] ? ? ?]; cbn; repeat split; auto|].
  destruct (String.eqb (toLowerCase key) "d"%string);
    [destruct k as [? ? ? [] ? ?]; cbn; repeat split; auto|].
  destruct (String.eqb (toLowerCase key) "shift"%string);
    [destruct k as [? ? ? ? [] ?]; cbn; repeat split; auto|].
  destruct (String.eqb (toLowerCase key) " "%string);
    [destruct k as [? ? ? ? ? []]; cbn; repeat split; auto|].
  repeat split; auto.
Qed.

End ControlsProperties.

(** ** Animation clips and the jump *)

Section ClipsProperties.
Context {Quaternion : Type} `{H : Host Quaternion}.

Local Abbreviation World := (@World Quaternion) (only parsing).
Local Abbreviation Object3D := (@Object3D Quaternion) (only parsing).

Lemma lockInPlace_spec (vs : list Q) :
  List.length (lockInPlace vs) = List.length vs
  /\ (forall k, lockInPlace vs !! (k * 3 + 1)%nat = vs !! (k * 3 + 1)%nat)
  /\ (forall k x0, (k * 3 < List.length vs)%nat -> vs !! 0%nat = Some x0 ->
        lockInPlace vs !! (k * 3)%nat = Some x0)
  /\ (forall k z0, (k * 3 + 2 < List.length vs)%nat -> vs !! 2%nat = Some z0 ->
        lockInPlace vs !! (k * 3 + 2)%nat = Some z0).
Proof.
  unfold lockInPlace. destruct (vs !! 0%nat) as [x0|] eqn:X.
  2:{ repeat split; intros; try reflexivity; try discriminate.
      apply lookup_ge_None in X. lia. }
  set (n := ((List.length vs + 2) / 3)%nat).
  set (body := fun (k : nat) (values : list Q) => _).
  assert (Inv : forall m,
            List.length (forEach m body vs) = List.length vs
            /\ (forall k, forEach m body vs !! (k * 3 + 1)%nat = vs !! (k * 3 + 1)%nat)
            /\ (forall k, (m <= k)%nat ->
                  forEach m body vs !! (k * 3)%nat = vs !! (k * 3)%nat
                  /\ forEach m body vs !! (k * 3 + 2)%nat = vs !! (k * 3 + 2)%nat)
            /\ (forall k, (k < m)%nat -> (k * 3 < List.length vs)%nat ->
                  forEach m body vs !! (k * 3)%nat = Some x0)
            /\ (forall k z0, (k < m)%nat -> (k * 3 + 2 < List.length vs)%nat ->
                  vs !! 2%nat = Some z0 ->
                  forEach m body vs !! (k * 3 + 2)%nat = Some z0)).
  { induction m as [|m (L & Y & Later & Xs & Zs)].
    - repeat split; intros; try reflexivity; lia.
    - rewrite forEach_S. set (cur := forEach m body vs) in *.
      assert (B : forall j, j <> (m * 3)%nat -> j <> (m * 3 + 2)%nat ->
                  body m cur !! j = cur !! j).
      { intros j J0 J2. unfold body. destruct (vs !! 2%nat).
        - rewrite !list_lookup_insert_ne by lia. reflexivity.
        - rewrite list_lookup_insert_ne by lia. reflexivity. }
      assert (BL : List.length (body m cur) = List.length cur).
      { unfold body. destruct (vs !! 2%nat); rewrite ?length_insert; reflexivity. }
      split; [congruence|]. split; [|split; [|split]].
      + intros k. rewrite B by lia. apply Y.
      + intros k K. rewrite !B by lia. apply Later. lia.
      + intros k K Lk. destruct (decide (k = m)) as [->|Ne].
        * unfold body. destruct (vs !! 2%nat).
          -- rewrite list_lookup_insert_ne by lia. apply list_lookup_insert_eq. lia.
          -- apply list_lookup_insert_eq. lia.
        * rewrite B by lia. apply Xs; [lia|exact Lk].
      + intros k z0 K Lk Z. destruct (decide (k = m)) as [->|Ne].
        * unfold body. rewrite Z. apply list_lookup_insert_eq.
          rewrite length_insert. lia.
        * rewrite B by lia. apply (Zs k z0); [lia|exact Lk|exact Z]. }
  assert (N : forall k, (k * 3 < List.length vs)%nat -> (k < n)%nat).
  { intros k K. unfold n.
    pose proof (Nat.div_mod_eq (List.length vs + 2) 3).
    pose proof (Nat.mod_upper_bound (List.length vs + 2) 3). lia. }
  destruct (Inv n) as (L & Y & _ & Xs & Zs).
  split; [exact L|]. split; [exact Y|]. split.
  - intros k x1 K E. inversion E; subst x1. apply Xs; [|exact K]. apply N, K.
  - intros k z0 K Z. apply (Zs k z0); [|exact K|exact Z]. apply N. lia.
Qed.

(** X23.  The in-place fix of [loadAnim] keeps the number of tracks and the
    length of each; it leaves the idle clip, and in every clip the tracks that
    are not root position tracks, as they are; and in every other clip each
    root position track has the X and Z of frame 0 in every frame, with all Y
    values unchanged. *)
Theorem root_motion_locked (name : ActionName) (tracks : list Track) :
  List.length (forceInPlace name tracks) = List.length tracks
  /\ (name = idle -> forceInPlace name tracks = tracks)
  /\ (forall j t, tracks !! j = Some t -> isRootPosition t = false ->
        forceInPlace name tracks !! j = Some t)
  /\ (name <> idle ->
      forall j t, tracks !! j = Some t -> isRootPosition t = true ->
      exists t', forceInPlace name tracks !! j = Some t'
        /\ List.length (values t') = List.length (values t)
        /\ (forall k, values t' !! (k * 3 + 1)%nat = values t !! (k * 3 + 1)%nat)
        /\ (forall k, (k * 3 < List.length (values t))%nat ->
              values t' !! (k * 3)%nat = values t !! 0%nat)
        /\ (forall k, (k * 3 + 2 < List.length (values t))%nat ->
              values t' !! (k * 3 + 2)%nat = values t !! 2%nat)).
Proof.
  split; [|split; [|split]].
  - unfold forceInPlace. destruct name; try reflexivity; apply length_map.
  - intros ->. reflexivity.
  - intros j t T R. unfold forceInPlace.
    destruct name; try exact T; rewrite list_lookup_fmap, T; simpl; rewrite R; reflexivity.
  - intros N j t T R.
    assert (E : forceInPlace name tracks !! j
                = Some (mkTrack (isRootPosition t) (lockInPlace (values t)))).
    { unfold forceInPlace. destruct name; try contradiction;
        rewrite list_lookup_fmap, T; simpl; rewrite R; reflexivity. }
    eexists. split; [exact E|]. cbn [values].
    destruct (lockInPlace_spec (values t)) as (L & Y & Xs & Zs).
    split; [exact L|]. split; [exact Y|]. split.
    + intros k K. destruct (values t !! 0%nat) as [x0|] eqn:X0.
      * apply (Xs k x0 K eq_refl).
      * apply lookup_ge_None in X0. lia.
    + intros k K. destruct (values t !! 2%nat) as [z0|] eqn:Z0.
      * apply (Zs k z0 K eq_refl).
      * apply lookup_ge_None in Z0. lia.
Qed.

Lemma Qsquare_nonneg (x : Q) : 0 <= x * x.
Proof. nra. Qed.

Lemma apex_bound (v k dt y : Q) :
  0 <= k -> 0 <= dt ->
  y == 0 + k * v * dt - 10 * k * (k + 1) * dt * dt ->
  y <= v * v / 40 /\ (1 <= k -> 0 < dt -> y < v * v / 40).
Proof.
  intros K D Y.
  assert (Sq : 0 <= v * v - 40 * k * v * dt + 400 * k * k * dt * dt).
  { pose proof (Qsquare_nonneg (v - 20 * (k * dt))) as S0.
    assert (E : (v - 20 * (k * dt)) * (v - 20 * (k * dt))
                == v * v - 40 * k * v * dt + 400 * k * k * dt * dt) by ring.
    rewrite E in S0. exact S0. }
  assert (T : 0 <= k * dt) by (apply Qmult_le_0_compat; assumption).
  assert (T2 : 0 <= k * dt * dt) by (apply Qmult_le_0_compat; assumption).
  split.
  - rewrite Y. apply Qle_shift_div_l; [reflexivity|]. lra.
  - intros K1 Dp.
    assert (T3 : 0 < k * dt * dt).
    { assert (0 < k) by lra.
      assert (0 < k * dt) by (apply Qmult_lt_0_compat; assumption).
      apply Qmult_lt_0_compat; assumption. }
    rewrite Y. apply Qlt_shift_div_l; [reflexivity|]. lra.
Qed.

(** Each frame of free fall takes ten times the square of its length from
    the sum of the height and a fortieth of the squared velocity. *)
Lemma integrate_energy (dt v y : Q) :
  snd (integrate dt (v, y)) + fst (integrate dt (v, y)) * fst (integrate dt (v, y)) * (1 # 40)
  == y + v * v * (1 # 40) - 10 * (dt * dt).
Proof. unfold integrate. cbn [fst snd]. ring. Qed.

Lemma fall_energy (dts : list Q) :
  forall v y,
  snd (fall dts (v, y)) + fst (fall dts (v, y)) * fst (fall dts (v, y)) * (1 # 40)
  <= y + v * v * (1 # 40)
  /\ (Exists (fun dt => ~ dt == 0) dts ->
      snd (fall dts (v, y)) + fst (fall dts (v, y)) * fst (fall dts (v, y)) * (1 # 40)
      < y + v * v * (1 # 40)).
Proof.
  induction dts as [|dt dts IH]; intros v y.
  - cbn [fall fold_left fst snd]. split; [lra|]. intros E. inversion E.
  - change (fall (dt :: dts) (v, y)) with (fall dts (integrate dt (v, y))).
    pose proof (integrate_energy dt v y) as E.
    destruct (integrate dt (v, y)) as [v1 y1]. cbn [fst snd] in E.
    destruct (IH v1 y1) as [Le Lt].
    pose proof (Qsquare_nonneg dt) as Sq.
    split; [lra|]. intros Ex. inversion Ex as [? ? Now|? ? Later]; subst.
    + assert (0 < dt * dt).
      { destruct (Qlt_le_dec 0 dt) as [P|P].
        - apply Qmult_lt_0_compat; assumption.
        - assert (N : 0 < - dt) by (destruct (Qeq_dec dt 0); [contradiction|lra]).
          assert (M : 0 < (- dt) * (- dt)) by (apply Qmult_lt_0_compat; assumption).
          assert (R : (- dt) * (- dt) == dt * dt) by ring.
          lra. }
      lra.
    + specialize (Lt Later). lra.
Qed.

(** X24.  A jump never rises higher than jumpForce^2 / 40 above its start,
    whatever the number of the frames and the length of each of them, which
    may differ from frame to frame: 1.6 in the two older revisions and 2.5 in
    the latest.  As soon as one frame has a length other than zero the bound
    is not reached.  Frames of one common length are a case of this. *)
Theorem jump_height_bounded (rev : Revision) (dts : list Q) :
  rise dts (jumpForce rev) <= jumpForce rev * jumpForce rev / 40
  /\ rise dts (jumpForce rev) <= match rev with Rev2 => 2.5 | _ => 1.6 end
  /\ (Exists (fun dt => ~ dt == 0) dts ->
      rise dts (jumpForce rev) < jumpForce rev * jumpForce rev / 40)
  /\ (forall n dt, rise (repeat dt n) (jumpForce rev)
                   = displacement n dt (jumpForce rev)).
Proof.
  unfold rise.
  destruct (fall_energy dts (jumpForce rev) 0) as [Le Lt].
  pose proof (Qsquare_nonneg (fst (fall dts (jumpForce rev, 0)))) as Sq.
  assert (D : jumpForce rev * jumpForce rev / 40
              == jumpForce rev * jumpForce rev * (1 # 40)) by (field; discriminate).
  split; [lra|]. split; [|split].
  - assert (E : jumpForce rev * jumpForce rev * (1 # 40)
                <= match rev with Rev2 => 2.5 | _ => 1.6 end).
    { destruct rev; vm_compute; discriminate. }
    lra.
  - intros Ex. specialize (Lt Ex). lra.
  - intros n dt. unfold displacement. generalize (jumpForce rev, 0).
    induction n as [|n IH]; intros s0; [reflexivity|].
    cbn [repeat freeFall]. rewrite <- IH. reflexivity.
Qed.

End ClipsProperties.

(** ** Lighting presets *)

Section LightingProperties.
Context {Quaternion : Type} `{H : Host Quaternion}.

Local Abbreviation World := (@World Quaternion) (only parsing).
Local Abbreviation Object3D := (@Object3D Quaternion) (only parsing).

Variable spherical : Q -> Q -> Q -> Vector3.

Lemma togglePreset_next (s : Stage) :
  togglePreset spherical s
  = applyPreset spherical
      (match currentPreset s with
       | goldenHour => sunset | sunset => night | night => goldenHour
       end) s.
Proof. unfold togglePreset. destruct (currentPreset s); reflexivity. Qed.

Lemma Stage_ext (s t : Stage) :
  currentPreset s = currentPreset t -> sun s = sun t ->
  uniform_turbidity s = uniform_turbidity t ->
  uniform_rayleigh s = uniform_rayleigh t ->
  uniform_mieCoefficient s = uniform_mieCoefficient t ->
  uniform_mieDirectionalG s = uniform_mieDirectionalG t ->
  uniform_sunPosition s = uniform_sunPosition t ->
  scene_fog_color s = scene_fog_color t ->
  scene_fog_density s = scene_fog_density t ->
  scene_background s = scene_background t ->
  stage_dirLight_color s = stage_dirLight_color t ->
  stage_dirLight_intensity s = stage_dirLight_intensity t ->
  stage_dirLight_position s = stage_dirLight_position t ->
  stage_hemiLight_color s = stage_hemiLight_color t ->
  stage_hemiLight_groundColor s = stage_hemiLight_groundColor t ->
  stage_hemiLight_intensity s = stage_hemiLight_intensity t ->
  stage_rimLight_color s = stage_rimLight_color t ->
  stage_rimLight_intensity s = stage_rimLight_intensity t ->
  ambientLight_color s = ambientLight_color t ->
  ambientLight_intensity s = ambientLight_intensity t ->
  bloomPass_strength s = bloomPass_strength t ->
  bloomPass_threshold s = bloomPass_threshold t ->
  toneMappingExposure s = toneMappingExposure t ->
  stage_water s = stage_water t ->
  stage_waterfall s = stage_waterfall t ->
  stage_waterfall2 s = stage_waterfall2 t ->
  stage_sunSphere s = stage_sunSphere t ->
  stage_moon s = stage_moon t ->
  stage_moonGlow s = stage_moonGlow t ->
  stage_stars s = stage_stars t ->
  presetButton_textContent s = presetButton_textContent t ->
  s = t.
Proof.
  destruct s, t. cbn. intros. subst. reflexivity.
Qed.

(** The fields of the result that depend on the state before. *)
Lemma applyPreset_water (name : PresetName) (s : Stage) :
  stage_water (applyPreset spherical name s)
  = (fun _ => (preset_waterColor (lightingPresets name),
               normalize (sun (applyPreset spherical name s)))) <$> stage_water s.
Proof. reflexivity. Qed.

Lemma applyPreset_waterfall (name : PresetName) (s : Stage) :
  stage_waterfall (applyPreset spherical name s)
  = (fun _ => preset_waterColor (lightingPresets name)) <$> stage_waterfall s.
Proof. reflexivity. Qed.

Lemma applyPreset_waterfall2 (name : PresetName) (s : Stage) :
  stage_waterfall2 (applyPreset spherical name s)
  = (fun _ => preset_waterColor (lightingPresets name)) <$> stage_waterfall2 s.
Proof. reflexivity. Qed.

Lemma applyPreset_stars (name : PresetName) (s : Stage) :
  stage_stars (applyPreset spherical name s)
  = (fun _ => PresetName_eqb name night) <$> stage_stars s.
Proof. reflexivity. Qed.

Lemma applyPreset_sunSphere (name : PresetName) (s : Stage) :
  stage_sunSphere (applyPreset spherical name s)
  = (fun sphere =>
       if negb (PresetName_eqb name night) then
         mkSunSphere true (multiplyScalar (sun (applyPreset spherical name s)) 380)
           (if PresetName_eqb name sunset then 0xff6030 else 0xffdd88)%Z
           (if PresetName_eqb name sunset then 1.5 else 1.0)
       else mkSunSphere false (sunSphere_position sphere)
              (sunSphere_color sphere) (sunSphere_scale sphere))
    <$> stage_sunSphere s.
Proof. destruct name; reflexivity. Qed.

Lemma applyPreset_moon (name : PresetName) (s : Stage) :
  stage_moon (applyPreset spherical name s)
  = (fun m => mkMoon (PresetName_eqb name night)
                (if PresetName_eqb name night then moonPlace spherical name else moon_position m))
    <$> stage_moon s.
Proof. reflexivity. Qed.

Lemma applyPreset_moonGlow (name : PresetName) (s : Stage) :
  stage_moonGlow (applyPreset spherical name s)
  = match stage_moon s with
    | Some _ =>
      (fun glow => mkMoon (PresetName_eqb name night)
                     (if PresetName_eqb name night then moonPlace spherical name
                      else moon_position glow)) <$> stage_moonGlow s
    | None => stage_moonGlow s
    end.
Proof.
  unfold applyPreset. cbn [stage_moonGlow].
  destruct name, (stage_moon s), (stage_moonGlow s); reflexivity.
Qed.

Lemma applyPreset_dirLight_position (name : PresetName) (s : Stage) :
  stage_dirLight_position (applyPreset spherical name s)
  = match stage_moon s with
    | Some _ =>
      if PresetName_eqb name night
      then multiplyScalar (spherical 1 (degToRad (90 - 25))
                             (degToRad (sky_azimuth (lightingPresets name) + 30))) 50
      else multiplyScalar (sun (applyPreset spherical name s)) 50
    | None => multiplyScalar (sun (applyPreset spherical name s)) 50
    end.
Proof. reflexivity. Qed.

Lemma applyPreset_button (name : PresetName) (s : Stage) :
  presetButton_textContent (applyPreset spherical name s)
  = (fun _ => preset_name (lightingPresets name)) <$> presetButton_textContent s.
Proof. reflexivity. Qed.

Lemma applyPreset_sun (name : PresetName) (s t : Stage) :
  sun (applyPreset spherical name s) = sun (applyPreset spherical name t).
Proof. reflexivity. Qed.

Ltac stage_fields :=
  apply Stage_ext; try reflexivity;
  rewrite ?applyPreset_water, ?applyPreset_waterfall, ?applyPreset_waterfall2,
    ?applyPreset_stars, ?applyPreset_sunSphere, ?applyPreset_moon,
    ?applyPreset_moonGlow, ?applyPreset_dirLight_position, ?applyPreset_moon,
    ?applyPreset_button;
  repeat match goal with
         | |- context [stage_water ?s] => destruct (stage_water s)
         | |- context [stage_waterfall ?s] => destruct (stage_waterfall s)
         | |- context [stage_waterfall2 ?s] => destruct (stage_waterfall2 s)
         | |- context [stage_stars ?s] => destruct (stage_stars s)
         | |- context [stage_sunSphere ?s] => destruct (stage_sunSphere s)
         | |- context [stage_moon ?s] => destruct (stage_moon s)
         | |- context [stage_moonGlow ?s] => destruct (stage_moonGlow s)
         | |- context [presetButton_textContent ?s] =>
           destruct (presetButton_textContent s)
         end;
  reflexivity.

Lemma applyPreset_idempotent (name : PresetName) (s : Stage) :
  applyPreset spherical name (applyPreset spherical name s)
  = applyPreset spherical name s.
Proof. destruct name; stage_fields. Qed.

(** After one time round the presets, a second round changes nothing. *)
Lemma applyPreset_round (a b c : PresetName) (s : Stage) :
  a <> b -> b <> c -> c <> a ->
  applyPreset spherical c (applyPreset spherical b (applyPreset spherical a
    (applyPreset spherical c (applyPreset spherical b (applyPreset spherical a s)))))
  = applyPreset spherical c (applyPreset spherical b (applyPreset spherical a s)).
Proof.
  intros AB BC CA. destruct a, b, c; try contradiction; stage_fields.
Qed.

(** X25.  [togglePreset] steps from golden hour to sunset, to night and back:
    three toggles restore the current preset, and after three toggles three
    more change nothing at all.  Applying a preset twice is the same as
    applying it once. *)
Theorem presets_cycle (s : Stage) :
  let toggle := togglePreset spherical in
  currentPreset (toggle s)
  = match currentPreset s with
    | goldenHour => sunset | sunset => night | night => goldenHour
    end
  /\ currentPreset (toggle (toggle (toggle s))) = currentPreset s
  /\ toggle (toggle (toggle (toggle (toggle (toggle s)))))
     = toggle (toggle (toggle s))
  /\ (forall name, applyPreset spherical name (applyPreset spherical name s)
                   = applyPreset spherical name s).
Proof.
  cbv zeta. split; [|split; [|split]].
  - rewrite togglePreset_next. reflexivity.
  - rewrite !togglePreset_next. destruct (currentPreset s); reflexivity.
  - rewrite !togglePreset_next.
    assert (C : forall n s0, currentPreset (applyPreset spherical n s0) = n)
      by reflexivity.
    rewrite !C. destruct (currentPreset s); apply applyPreset_round; discriminate.
  - intros name. apply applyPreset_idempotent.
Qed.

(** X26.  After [applyPreset], of the objects that exist, the sun disc is
    visible exactly when the moon, its glow and the stars are not, that is, in
    every preset but the night; at night the glow sits where the moon is; by
    day the sun disc is 380 along the sun direction, one and a half times as
    large at sunset; and the function neither creates nor removes the two
    discs. *)
Theorem sun_and_moon_alternate (name : PresetName) (s : Stage) :
  let s' := applyPreset spherical name s in
  (forall sphere, stage_sunSphere s' = Some sphere ->
     sunSphere_visible sphere = negb (PresetName_eqb name night))
  /\ (forall m, stage_moon s' = Some m -> moon_visible m = PresetName_eqb name night)
  /\ (forall v, stage_stars s' = Some v -> v = PresetName_eqb name night)
  /\ (forall m glow, stage_moon s' = Some m -> stage_moonGlow s' = Some glow ->
        moon_visible glow = PresetName_eqb name night
        /\ (name = night -> moon_position glow = moon_position m))
  /\ (forall sphere m, stage_sunSphere s' = Some sphere -> stage_moon s' = Some m ->
        sunSphere_visible sphere = negb (moon_visible m))
  /\ (forall sphere, stage_sunSphere s' = Some sphere -> name <> night ->
        sunSphere_position sphere = multiplyScalar (sun s') 380
        /\ sunSphere_scale sphere = (if PresetName_eqb name sunset then 1.5 else 1.0))
  /\ (is_Some (stage_sunSphere s') <-> is_Some (stage_sunSphere s))
  /\ (is_Some (stage_moon s') <-> is_Some (stage_moon s)).
Proof.
  cbv zeta.
  destruct s as [cp su u1 u2 u3 u4 u5 fc fd bg dc di dp hc hg hi rc ri ac ai bs bt ex
                   wa w1 w2 ss mo mg st tx].
  unfold applyPreset. cbn [stage_sunSphere stage_moon stage_stars stage_moonGlow sun].
  split; [|split; [|split; [|split; [|split; [|split; [|split]]]]]].
  - intros sphere E. destruct ss; [|discriminate]. simpl in E.
    destruct name; inversion E; reflexivity.
  - intros m E. destruct mo; [|discriminate]. simpl in E. inversion E. reflexivity.
  - intros v E. destruct st; [|discriminate]. simpl in E. inversion E. reflexivity.
  - intros m glow E G. destruct mo; [|discriminate]. simpl in E, G.
    destruct mg; [|discriminate]. simpl in G. inversion E; inversion G; subst.
    split; [reflexivity|]. intros ->. reflexivity.
  - intros sphere m E M. destruct ss; [|discriminate]. destruct mo; [|discriminate].
    simpl in E, M. destruct name; inversion E; inversion M; reflexivity.
  - intros sphere E N. destruct ss; [|discriminate]. simpl in E.
    destruct name; try contradiction; inversion E; split; reflexivity.
  - destruct ss; simpl; split; intros [x E]; try discriminate; eauto.
  - destruct mo; simpl; split; intros [x E]; try discriminate; eauto.
Qed.

End LightingProperties.

(** ** Clouds and stars *)

Section SkyProperties.
Context {Quaternion : Type} `{H : Host Quaternion}.

Local Abbreviation World := (@World Quaternion) (only parsing).
Local Abbreviation Object3D := (@Object3D Quaternion) (only parsing).




Variable acos : Q -> Q.

Lemma placeStar_loop (m : nat) (stars : Stars) (n : nat) :
  uniform01 ->
  List.length (star_positions stars) = (List.length (star_sizes stars) * 3)%nat ->
  (m <= List.length (star_sizes stars))%nat ->
  let r := fst (forEach m (placeStar acos) (stars, n)) in
  List.length (star_positions r) = List.length (star_positions stars)
  /\ List.length (star_sizes r) = List.length (star_sizes stars)
  /\ forall i, (i < m)%nat ->
       exists x y z size,
         star_positions r !! (i * 3)%nat = Some (fround x)
         /\ star_positions r !! (i * 3 + 1)%nat = Some (fround y)
         /\ star_positions r !! (i * 3 + 2)%nat = Some (fround z)
         /\ star_sizes r !! i = Some size
         /\ 0 <= fround y /\ 0.5 <= size /\ size <= 2.5
         /\ (unitCircle -> x * x + y * y + z * z == 400 * 400).
Proof.
  intros U Len M. cbv zeta.
  apply (forEach_invariant
    (fun k (st : Stars * nat) =>
       (k <= List.length (star_sizes stars))%nat ->
       List.length (star_positions (fst st)) = List.length (star_positions stars)
       /\ List.length (star_sizes (fst st)) = List.length (star_sizes stars)
       /\ forall i, (i < k)%nat ->
            exists x y z size,
              star_positions (fst st) !! (i * 3)%nat = Some (fround x)
              /\ star_positions (fst st) !! (i * 3 + 1)%nat = Some (fround y)
              /\ star_positions (fst st) !! (i * 3 + 2)%nat = Some (fround z)
              /\ star_sizes (fst st) !! i = Some size
              /\ 0 <= fround y /\ 0.5 <= size /\ size <= 2.5
              /\ (unitCircle -> x * x + y * y + z * z == 400 * 400)));
    [| |exact M].
  - intros _. cbn [fst]. repeat split. intros i I. lia.
  - intros k [st j] K IH K'. destruct IH as (Lp & Ls & Done); [lia|].
    cbn [fst] in *. unfold placeStar, nextRandom. cbn [fst star_positions star_sizes].
    split; [rewrite !length_insert; exact Lp|].
    split; [rewrite length_insert; exact Ls|].
    intros i I. destruct (decide (i = k)) as [->|Ne].
    + set (theta := random j * PI * 2). set (phi := acos (random (S j) * 2 - 1)).
      exists (400 * sin phi * cos theta), (Qabs (400 * cos phi)),
        (400 * sin phi * sin theta), (fround (random (S (S j)) * 2 + 0.5)).
      destruct (U (S (S j))) as [A0 A1].
      split.
      { rewrite !list_lookup_insert_ne by lia. apply list_lookup_insert_eq. lia. }
      split.
      { rewrite list_lookup_insert_ne by lia. apply list_lookup_insert_eq.
        rewrite length_insert. lia. }
      split; [apply list_lookup_insert_eq; rewrite !length_insert; lia|].
      split; [apply list_lookup_insert_eq; lia|].
      split.
      { rewrite <- fround_0. apply fround_monotone, Qabs_nonneg. }
      assert (S : 0.5 <= fround (random (S (S j)) * 2 + 0.5)
                  /\ fround (random (S (S j)) * 2 + 0.5) <= 2.5).
      { apply fround_clamp; [|  |lra|lra].
        - apply (fround_exact 0.5 1); [reflexivity|lia].
        - apply (fround_exact 2.5 5); [reflexivity|lia]. }
      split; [exact (proj1 S)|]. split; [exact (proj2 S)|].
      intros C. pose proof (C theta) as Ct. pose proof (C phi) as Cp.
      assert (A : Qabs (400 * cos phi) * Qabs (400 * cos phi)
                  == (400 * cos phi) * (400 * cos phi)).
      { rewrite <- Qabs_Qmult. apply Qabs_pos. apply Qsquare_nonneg. }
      rewrite A.
      transitivity (400 * 400 * (sin phi * sin phi * (cos theta * cos theta + sin theta * sin theta)
                                 + cos phi * cos phi)); [ring|].
      rewrite Ct.
      transitivity (400 * 400 * (cos phi * cos phi + sin phi * sin phi)); [ring|].
      rewrite Cp. ring.
    + destruct (Done i) as (x & y & z & size & X & Y & Z & S & R); [lia|].
      exists x, y, z, size. rewrite !list_lookup_insert_ne by lia. auto.
Qed.

(** X28.  With draws in [0, 1), [createStars] fills both single-precision
    buffers for all 3000 stars: no star lies below the horizon (its stored Y
    is not negative), every stored size is in [0.5, 2.5] (a size just below
    2.5 is stored as 2.5), and each stored coordinate is the single-precision
    number nearest to the coordinate of a point that, on a host whose sine
    and cosine lie on the unit circle, is at distance 400 from the origin. *)
Theorem stars_on_upper_hemisphere (n : nat) :
  uniform01 ->
  let stars := fst (createStars acos n) in
  List.length (star_positions stars) = (starCount * 3)%nat
  /\ List.length (star_sizes stars) = starCount
  /\ forall i, (i < starCount)%nat ->
       exists x y z size,
         star_positions stars !! (i * 3)%nat = Some (fround x)
         /\ star_positions stars !! (i * 3 + 1)%nat = Some (fround y)
         /\ star_positions stars !! (i * 3 + 2)%nat = Some (fround z)
         /\ star_sizes stars !! i = Some size
         /\ 0 <= fround y /\ 0.5 <= size /\ size <= 2.5
         /\ (unitCircle -> x * x + y * y + z * z == 400 * 400).
Proof.
  intros U. cbv zeta. unfold createStars.
  set (fresh := mkStars _ _).
  destruct (placeStar_loop starCount fresh n U) as (Lp & Ls & Done).
  - unfold fresh. cbn [star_positions star_sizes]. rewrite !length_replicate. reflexivity.
  - unfold fresh. cbn [star_sizes]. rewrite length_replicate. lia.
  - cbv zeta in Lp, Ls, Done. split; [|split; [|exact Done]].
    + rewrite Lp. unfold fresh. cbn [star_positions]. apply length_replicate.
    + rewrite Ls. unfold fresh. cbn [star_sizes]. apply length_replicate.
Qed.

End SkyProperties.

(** ** Instances on the concrete host *)

#[local] Existing Instance Demo.host.

(** The draws of the concrete host lie in [0, 1). *)
Lemma draw_uniform : uniform01.
Proof.
  intros n. cbn [random Demo.host]. unfold Demo.draw.
  pose proof (Z.mod_pos_bound (Z.of_nat n * 37 + 11) 100 eq_refl) as [L U].
  set (m := ((Z.of_nat n * 37 + 11) mod 100)%Z) in *.
  unfold Qdiv, Qmult, Qinv, Qle, Qlt, inject_Z. simpl. split; lia.
Qed.

Lemma getWaveHeight_deterministic_witness :
  riverParams.speed (params Demo.rocky) = riverParams.speed (params Demo.bare)
  /\ getWaveHeight Demo.rocky 1 2 3 0 1 = getWaveHeight Demo.bare 1 2 3 0 1
  /\ getWaveHeight Demo.flowing 1 2 3 0 1 = getWaveHeight Demo.bare 1 2 3 0 1.
Proof.
  assert (U : updateWater 0 Demo.rocky = Some Demo.flowing)
    by (vm_compute; reflexivity).
  destruct (getWaveHeight_deterministic Demo.rocky Demo.bare 1 2 3 0 1
              eq_refl eq_refl) as [Same After].
  split; [reflexivity|]. split; [exact Same|]. exact (After 0 Demo.flowing U).
Defined.

(** One frame of free fall from rest, 1/60 s long. *)
Lemma gravity_displacement_depends_on_step_witness :
  (forall r, Demo.void r = [])
  /\ exists g' p',
       locomotion Rev2 (1 # 60) Demo.falling = Normal g'
       /\ player g' = Some p'
       /\ (verticalVelocity g', vy (position p')) = integrate (1 # 60) (0, 5).
Proof.
  split; [reflexivity|].
  apply (proj1 (gravity_displacement_depends_on_step 0) Rev2 (1 # 60)
           Demo.falling _ Demo.void eq_refl eq_refl (fun _ => eq_refl)
           eq_refl eq_refl eq_refl).
Defined.

(** The sixty-step and the one-step displacement from rest are more than
    nine units apart: no tolerance below that makes them approximately the
    same. *)
Lemma gravity_frame_rate_counterexample :
  ~ (Qabs (displacement 60 (1 # 60) 0 - displacement 1 1 0) <= 9).
Proof.
  unfold displacement.
  destruct (freeFall_closed 60 (1 # 60) 0 0) as [_ A].
  destruct (freeFall_closed 1 1 0 0) as [_ B].
  rewrite A, B. vm_compute. intros L. apply L. reflexivity.
Qed.









(** With the pointer not locked, a frame with the jump key held and the
    grounded flag set leaves velocity, flag and clip as they were; and with
    the jump clip not yet loaded the jump statement leaves the idle clip
    active. *)
Lemma jump_trigger_counterexample :
  (keys.space (keys (input Demo.unlocked)) = true
   /\ isGrounded Demo.unlocked = true
   /\ locomotion Rev2 (1 # 60) Demo.unlocked = Normal Demo.untouched
   /\ ~ verticalVelocity Demo.untouched == jumpForce Rev2
   /\ isGrounded Demo.untouched = true
   /\ activeAction Demo.untouched = Some idle)
  /\ (keys.space (keys (input Demo.clipless)) = true
      /\ isGrounded Demo.clipless = true
      /\ exists g', jumpInput Rev2 Demo.clipless = Normal g'
                    /\ activeAction g' = Some idle).
Proof.
  split.
  - split; [reflexivity|]. split; [reflexivity|].
    split; [vm_compute; reflexivity|].
    split; [vm_compute; discriminate|]. split; reflexivity.
  - split; [reflexivity|]. split; [reflexivity|].
    eexists. split; reflexivity.
Qed.

Lemma jump_trigger_witness :
  keys.space (keys (input (Demo.standing 1 0 Demo.jumpKey))) = true
  /\ isGrounded (Demo.standing 1 0 Demo.jumpKey) = true
  /\ (forall g',
        jumpInput Rev2 (Demo.standing 1 0 Demo.jumpKey) = Normal g'
        \/ jumpInput Rev2 (Demo.standing 1 0 Demo.jumpKey) = Throw g' ->
        verticalVelocity g' = 10.0 /\ isGrounded g' = false)
  /\ exists g', locomotion Rev2 (1 # 60) (Demo.standing 1 0 Demo.jumpKey) = Normal g'
                /\ activeAction g' = Some jump.
Proof.
  pose proof (proj1 (jump_trigger Rev2 (Demo.standing 1 0 Demo.jumpKey))
                eq_refl eq_refl) as (Set_ & Clip & _).
  split; [reflexivity|]. split; [reflexivity|]. split; [exact Set_|].
  destruct (Clip eq_refl) as [_ Frame]; [discriminate|].
  apply (Frame (1 # 60) _ _ eq_refl eq_refl eq_refl).
Defined.


(** Under a ceiling 1.5 above the floor, the upward ray from 0.3 hits at
    distance 1.2 and the player is pushed down to -0.4. *)
Lemma ceiling_caps_height_witness :
  let p := mkObject3D (mkVector3 0 0.1 0) 0 in
  let g := Demo.placed (Demo.room 1.5) 0.1 0 Demo.noKeys true (fun _ => true) in
  Demo.room 1.5 (mkRay (add_y (position p) 0.2) upVector) = [Demo.lintel]
  /\ distance Demo.lintel < 1.8
  /\ vy (position (fst (ceilingCheck Rev2 (Demo.room 1.5) (p, g))))
     <= vy (point Demo.lintel) - 1.9.
Proof.
  intros p g.
  assert (T : Demo.room 1.5 (mkRay (add_y (position p) 0.2) upVector) = [Demo.lintel])
    by (vm_compute; reflexivity).
  assert (D : distance Demo.lintel < 1.8) by reflexivity.
  split; [exact T|]. split; [exact D|].
  apply (ceiling_caps_height (Demo.room 1.5) p g Demo.lintel [] T D).
Defined.

(** A walker in the middle of the river, below its surface. *)
Lemma flow_speed_multiplier_witness :
  let p := mkObject3D (mkVector3 2 30 (-1.2)) 0 in
  let rad := degToRad (riverParams.flowAngle (params Demo.rocky)) in
  Qabs (vx (position p) - riverParams.waterX (params Demo.rocky))
    < riverParams.width (params Demo.rocky) / 2
  /\ vy (position p) < riverParams.waterHeight (params Demo.rocky) + 0.5
  /\ (forall d, flowSpeed Rev2 d p Demo.rocky 4
                == 4 * (1 + 0.5 * (vx d * sin rad + vz d * cos rad)))
  /\ 4 < flowSpeed Rev2 (mkVector3 0 0 1) p Demo.rocky 4
  /\ flowSpeed Rev2 (mkVector3 0 0 (-1)) p Demo.rocky 4 < 4.
Proof.
  intros p rad.
  assert (X : Qabs (vx (position p) - riverParams.waterX (params Demo.rocky))
              < riverParams.width (params Demo.rocky) / 2) by reflexivity.
  assert (Z : Qabs (vz (position p) - riverParams.waterZ (params Demo.rocky))
              < riverParams.length (params Demo.rocky) / 2) by reflexivity.
  assert (Y : vy (position p) < riverParams.waterHeight (params Demo.rocky) + 0.5)
    by reflexivity.
  split; [exact X|]. split; [exact Y|].
  destruct (flow_speed_multiplier Demo.rocky p [mkVector3 0 0 0] 4 eq_refl X Z Y)
    as (Eq & _ & Strict & _).
  destruct (Strict eq_refl) as (_ & With & Against).
  split; [exact Eq|]. split; [apply With|apply Against]; reflexivity.
Defined.

(** In doubles the strictness is lost.  The flow of [Demo.rocky] runs along
    Z.  A heading across it has alignment 0; the heading a quarter turn from
    the flow, whose Z is the cosine of the double nearest to pi / 2
    (6.123233995736766e-17), has a positive alignment; both leave a speed of
    4 as it is, so the second is not faster than the first and not faster
    than out of the water. *)
Lemma flow_speed_multiplier_counterexample :
  let p := mkObject3D (mkVector3 2 30 (-1.2)) 0 in
  let across := mkVector3 1 0 0 in
  let turned := mkVector3 1 0 (4967757600021511 # 81129638414606681695789005144064) in
  inRiver p Demo.rocky = true
  /\ flowDir Demo.rocky = mkVector3 0 0 1
  /\ dot across (flowDir Demo.rocky) < dot turned (flowDir Demo.rocky)
  /\ 0 < dot turned (flowDir Demo.rocky)
  /\ roundedAlignment binary64 across (flowDir Demo.rocky)
     < roundedAlignment binary64 turned (flowDir Demo.rocky)
  /\ 0 < roundedAlignment binary64 turned (flowDir Demo.rocky)
  /\ ~ (roundedFlowSpeed binary64 across p Demo.rocky 4
        < roundedFlowSpeed binary64 turned p Demo.rocky 4)
  /\ ~ (4 < roundedFlowSpeed binary64 turned p Demo.rocky 4)
  /\ binary64 (1.0 + binary64 (roundedAlignment binary64 turned (flowDir Demo.rocky) * 0.5))
     == 1.
Proof.
  cbv zeta. repeat split; vm_compute; congruence.
Qed.

Lemma missing_asset_skips_controller_witness :
  player Demo.rocky = None
  /\ locomotion Rev2 (1 # 60) Demo.rocky = Normal Demo.rocky.
Proof.
  split; [reflexivity|].
  apply (missing_asset_skips_controller Rev2 0 (1 # 60) Demo.rocky). left. reflexivity.
Defined.

(** ** Instances of the further properties *)

(** The second host keeps the contracts. *)
Lemma circle_unit : @unitCircle Q Scene.circle.
Proof.
  intros a. cbn [sin cos Scene.circle]. unfold Scene.circleSin, Scene.circleCos.
  cbv zeta. rewrite !Qred_correct. set (t := a / 2).
  assert (N : ~ 1 + t * t == 0) by nra. field. exact N.
Qed.


Lemma root_positive (h : Host Q) : @sqrt Q h = Demo.rootOf -> @positiveRoot Q h.
Proof.
  intros E a. rewrite E. unfold Demo.rootOf. rewrite Qred_correct.
  pose proof (Z.sqrt_nonneg (Qfloor (a * 1000000))) as N.
  apply Qle_shift_div_l; [reflexivity|]. rewrite Qmult_0_l.
  change 0 with (inject_Z 0). rewrite <- Zle_Qle. exact N.
Qed.

Lemma tier_flat : openFlatGround (Demo.tier 0) 0.
Proof.
  split.
  - intros o O. unfold Demo.tier. cbn [direction origin downVector vy].
    change (Qeq_bool (-1) (-1)) with true. cbv iota.
    assert (G : (if Qle_bool 1 (vz o) then 0 else 0) = 0)
      by (destruct (Qle_bool 1 (vz o)); reflexivity).
    rewrite G. apply Qle_bool_iff in O. rewrite O.
    do 2 eexists. split; reflexivity.
  - intros o. reflexivity.
Qed.

Lemma well_walled (o : Vector3) (q : Q) :
  obstructed Scene.well o (applyQuaternion (mkVector3 0 0 1) q) 0.8 = true.
Proof. reflexivity. Qed.

(** A player at rest on flat ground, no key held. *)
Lemma rest_is_stable_witness :
  openFlatGround (Demo.tier 0) 0
  /\ exists g' p',
       locomotion Rev2 (1 # 60) (Demo.standing 0 0 Demo.noKeys) = Normal g'
       /\ player g' = Some p'
       /\ position p' = mkVector3 0 (0 + 0.1) 0
       /\ verticalVelocity g' = 0 /\ isGrounded g' = true
       /\ lastGroundHeight g' = 0.
Proof.
  split; [exact tier_flat|].
  apply (rest_is_stable Rev2 (1 # 60) 0 (Demo.standing 0 0 Demo.noKeys)
           (mkObject3D (mkVector3 0 0.1 0) 0) (Demo.tier 0)
           eq_refl eq_refl tier_flat).
  - reflexivity.
  - reflexivity.
  - reflexivity.
  - reflexivity.
  - reflexivity.
  - vm_compute. discriminate.
  - vm_compute. discriminate.
Defined.

(** The player at the bottom of the well, walking against its wall. *)
Lemma wall_stops_walk_witness :
  locomotion Rev2 (1 # 60) Scene.walled = Normal Scene.stopped
  /\ exists p', player Scene.stopped = Some p'
                /\ vx (position p') = 0 /\ vz (position p') = 0.
Proof.
  assert (L : locomotion Rev2 (1 # 60) Scene.walled = Normal Scene.stopped)
    by (vm_compute; reflexivity).
  split; [exact L|].
  eexists. split; [reflexivity|].
  apply (wall_stops_walk Rev2 (1 # 60) Scene.walled Scene.stopped
           (mkObject3D (mkVector3 0 0.1 0) 0) _ Scene.well eq_refl eq_refl
           (fun o q _ _ => well_walled o q) (or_introl L) eq_refl).
Defined.

Lemma camera_above_last_ground_witness :
  locomotion Rev2 (1 # 60) (Demo.standing 0 0 Demo.noKeys) = Normal Scene.rested
  /\ lastGroundHeight Scene.rested - 0.3 <= vy (camera_position Scene.rested).
Proof.
  assert (L : locomotion Rev2 (1 # 60) (Demo.standing 0 0 Demo.noKeys)
              = Normal Scene.rested) by (vm_compute; reflexivity).
  split; [exact L|].
  apply (camera_above_last_ground Rev2 (1 # 60) (Demo.standing 0 0 Demo.noKeys)
           Scene.rested (mkObject3D (mkVector3 0 0.1 0) 0) (Demo.tier 0)
           eq_refl eq_refl L).
Defined.

Lemma fall_is_caught_witness :
  enteringResolution Rev2 (1 # 60) (Demo.standing 0.2 0 Demo.noKeys)
  = Some Demo.arrival
  /\ exists g' p',
       locomotion Rev2 (1 # 60) (Demo.standing 0.2 0 Demo.noKeys) = Normal g'
       /\ player g' = Some p'
       /\ -10 <= vy (position p').
Proof.
  assert (E : enteringResolution Rev2 (1 # 60) (Demo.standing 0.2 0 Demo.noKeys)
              = Some (fst (fst (fst Demo.arrival)), snd (fst (fst Demo.arrival)),
                      snd (fst Demo.arrival), snd Demo.arrival))
    by (vm_compute; reflexivity).
  split; [vm_compute; reflexivity|].
  destruct (fall_is_caught Rev2 (1 # 60) (Demo.standing 0.2 0 Demo.noKeys)
              _ _ _ _ E) as (g' & p' & L & P & _ & _ & Y).
  exists g', p'. split; [exact L|]. split; [exact P|].
  apply Y. vm_compute. discriminate.
Defined.

(** The idle clip arrives while no clip is active. *)
Lemma active_clip_is_loaded_witness :
  activeAction Demo.rocky = None
  /\ ClipLoaded (loadAnim idle Demo.rocky)
  /\ activeAction (loadAnim idle Demo.rocky) = Some idle.
Proof.
  split; [reflexivity|].
  destruct (proj1 (proj2 active_clip_is_loaded) idle Demo.rocky
              (proj1 active_clip_is_loaded Demo.rocky eq_refl))
    as (C & _ & A & _).
  split; [exact C|exact (A eq_refl)].
Defined.

Lemma frame_ray_budget_witness :
  locomotion Rev2 (1 # 60) (Demo.standing 0 0 Demo.noKeys) = Normal Scene.rested
  /\ castBetween 3 7 (Demo.standing 0 0 Demo.noKeys) Scene.rested.
Proof.
  assert (L : locomotion Rev2 (1 # 60) (Demo.standing 0 0 Demo.noKeys)
              = Normal Scene.rested) by (vm_compute; reflexivity).
  split; [exact L|].
  destruct (frame_ray_budget Rev2 (1 # 60) (Demo.standing 0 0 Demo.noKeys)
              Scene.rested (or_introl L)) as (_ & _ & C).
  apply C; [discriminate|discriminate|exact L].
Defined.

Lemma createFoamSystem_seeds_witness :
  0 < riverParams.length (params Demo.bare)
  /\ exists g' fs,
       createFoamSystem Demo.bare = Some g' /\ foamSystem g' = Some fs
       /\ drawn g' = 18%nat
       /\ forall j, (j < 3)%nat -> seededAt Demo.bare fs j.
Proof.
  split; [reflexivity|].
  destruct (createFoamSystem_seeds Demo.bare draw_uniform eq_refl)
    as (g' & fs & C & F & D & _ & _ & _ & S).
  exists g', fs. split; [exact C|]. split; [exact F|]. split; [exact D|exact S].
Defined.



Lemma mist_band_invariant_witness :
  mistSettled (fst (createMistSystem 0))
  /\ mistSettled (fst (updateMist Demo.rocky (createMistSystem 0))).
Proof.
  destruct (mist_band_invariant Demo.rocky draw_uniform) as [Made Pass].
  destruct (Made 0%nat) as (S & _).
  split; [exact S|].
  destruct (createMistSystem 0) as [ms n] eqn:E. cbn [fst] in S.
  exact (proj1 (Pass ms n S)).
Defined.

Lemma wisp_settled : mistSettled Scene.wisp.
Proof.
  split; [reflexivity|]. intros i I. simpl in I.
  assert (i = 0%nat) as -> by lia.
  exists (1 # 2), (-500). split; [reflexivity|]. split; [reflexivity|].
  split; [discriminate|]. split; [discriminate|]. left. discriminate.
Qed.

Lemma mist_respawns_within_67_witness :
  mistSettled Scene.wisp
  /\ exists k, (k < 67)%nat
       /\ lives (fst (mistPasses (firstn (S k) (replicate 67 Demo.rocky))
                        (Scene.wisp, 0%nat))) !! 0%nat = Some 1.0.
Proof.
  split; [exact wisp_settled|].
  apply (mist_respawns_within_67 (replicate 67 Demo.rocky) Scene.wisp 0 0
           wisp_settled).
  - apply length_replicate.
  - simpl. lia.
Defined.

Lemma river_layout_matches_witness :
  exists w' f1' f2',
    layout_water (updateWaterScale (Demo.pond 1) Scene.riverbed) = Some w'
    /\ layout_waterfall (updateWaterScale (Demo.pond 1) Scene.riverbed) = Some f1'
    /\ layout_waterfall2 (updateWaterScale (Demo.pond 1) Scene.riverbed) = Some f2'
    /\ planeWidth * vx (mesh_scale w') == riverParams.width (Demo.pond 1)
    /\ planeLength * vy (mesh_scale w') == riverParams.length (Demo.pond 1).
Proof.
  destruct (river_layout_matches (Demo.pond 1) Scene.riverbed _ _ _
              eq_refl eq_refl eq_refl)
    as (w' & f1' & f2' & A & B & C & _ & D & E & _).
  exists w', f1', f2'. repeat split; assumption.
Defined.

(** A player in the river of [Demo.rocky], and the water plane as it is
    laid out. *)
Lemma river_physics_matches_plane_witness :
  layout_water (updateWaterScale (params Demo.rocky) Scene.riverbed)
  = Some Scene.surface
  /\ (inRiver (mkObject3D (mkVector3 (-1) (-1) 11) 0) Demo.rocky = true
      <-> Qabs (-1 - vx (mesh_position Scene.surface))
            < planeWidth * vx (mesh_scale Scene.surface) / 2
          /\ Qabs (11 - vz (mesh_position Scene.surface))
             < planeLength * vy (mesh_scale Scene.surface) / 2
          /\ -1 < vy (mesh_position Scene.surface) + 0.5).
Proof.
  assert (L : layout_water (updateWaterScale (params Demo.rocky) Scene.riverbed)
              = Some Scene.surface) by (vm_compute; reflexivity).
  split; [exact L|].
  apply (river_physics_matches_plane Demo.rocky
           (mkObject3D (mkVector3 (-1) (-1) 11) 0) Scene.riverbed Scene.surface);
    [discriminate|exact L].
Defined.

(** A marker keeps its stored place when a second one is made and the
    river is laid out again. *)
Lemma marker_follows_water_witness :
  let s0 := createFoamMarker (Demo.pond 1) 1 2 1 Scene.riverbed in
  let s2 := updateRiverHeight (Demo.pond 3) (createFoamMarker (Demo.pond 1) 3 4 1 s0) in
  exists a a',
    layout_rocks s0 !! 0%nat = Some a /\ layout_rocks s2 !! 0%nat = Some a'
    /\ anchor_rock a' = anchor_rock a.
Proof.
  cbv zeta.
  destruct (marker_follows_water (Demo.pond 1) (Demo.pond 3) 3 4 1
              (createFoamMarker (Demo.pond 1) 1 2 1 Scene.riverbed))
    as (m & _ & _ & _ & _ & _ & Old).
  destruct (Old 0%nat _ eq_refl) as (a' & A & R).
  eexists. exists a'. split; [reflexivity|]. split; [exact A|exact R].
Defined.

Lemma proximity_plays_once_witness :
  staysWithin (resetDist (zoneOf cow)) (mkVector3 0 0.1 0) Scene.grazing
  /\ playsByFrames (soundEvents cow (mkVector3 0 0.1 0) Scene.grazing false) = 1%nat
  /\ playsByTimers (soundEvents cow (mkVector3 0 0.1 0) Scene.grazing false) = 2%nat
  /\ playsByTimers (soundEvents oxen (mkVector3 0 0.1 0) Scene.grazing false) = 0%nat.
Proof.
  assert (W : forall s, staysWithin (resetDist (zoneOf s)) (mkVector3 0 0.1 0)
                          Scene.grazing).
  { intros s. repeat constructor; intros p E; inversion E;
      destruct s; vm_compute; discriminate. }
  split; [exact (W cow)|].
  destruct (proximity_plays_once cow (mkVector3 0 0.1 0) Scene.grazing false (W cow))
    as (_ & _ & _ & T).
  destruct (proximity_plays_once oxen (mkVector3 0 0.1 0) Scene.grazing false (W oxen))
    as (_ & _ & _ & T').
  split; [reflexivity|]. split; [exact T|exact T'].
Defined.

Lemma footsteps_spaced_witness :
  snd (footstep (Demo.standing 0 0 Demo.forwardKey) true 600 0) = true
  /\ 500 < 600 - 0
  /\ spaced 300 0 (snd (footstepFrames Scene.strides 0 [])).
Proof.
  destruct (footsteps_spaced Scene.strides 0) as (Step & Sp & _).
  split; [reflexivity|]. split; [|exact Sp].
  exact (proj2 (proj2 (Step (Demo.standing 0 0 Demo.forwardKey) true 600 0 eq_refl))).
Defined.

Lemma river_sound_nearest_witness :
  0 <= riverParams.length (params Demo.rocky)
  /\ vz (riverSoundPosition Demo.rocky (mkObject3D (mkVector3 0 0 100) 0))
     <= riverParams.waterZ (params Demo.rocky)
        + riverParams.length (params Demo.rocky) / 2.
Proof.
  split; [discriminate|].
  destruct (river_sound_nearest Demo.rocky (mkObject3D (mkVector3 0 0 100) 0))
    as (_ & _ & _ & Hi & _); [discriminate|exact Hi].
Defined.

Lemma touch_look_pitch_clamped_witness :
  0 <= PI
  /\ pitchInRange
       (fold_left (fun s e => dispatch e s)
          [touchstart 1000 false [Scene.finger]; touchmove [Scene.dragged]]
          (mkLook 0 0 None 0 0)).
Proof.
  split; [discriminate|].
  apply (touch_look_pitch_clamped
           [touchstart 1000 false [Scene.finger]; touchmove [Scene.dragged]]
           (mkLook 0 0 None 0 0)); [discriminate|].
  split; vm_compute; discriminate.
Defined.

Lemma touch_look_first_finger_witness :
  lookTouchStart 1000 false [Scene.finger; Scene.dragged] (mkLook 0 0 None 0 0)
  = mkLook 600 300 (Some 1%Z) 0 0.
Proof.
  destruct (touch_look_first_finger (mkLook 0 0 None 0 0)
              [Scene.finger; Scene.dragged] 1000) as (_ & _ & _ & _ & _ & First).
  apply (First Scene.finger [Scene.dragged] eq_refl). reflexivity.
Defined.

Lemma touch_look_yaw_follows_drag_witness :
  yawAnchor (fold_left (fun s e => dispatch e s)
               [touchmove [Scene.dragged]; touchend [Scene.dragged]] Scene.looking)
  == yawAnchor Scene.looking.
Proof.
  apply (touch_look_yaw_follows_drag
           [touchmove [Scene.dragged]; touchend [Scene.dragged]] Scene.looking).
  repeat constructor.
Defined.

(** The finger on a joystick zone 100 wide with its corner at (50, 50),
    with no key held. *)
Lemma joystick_within_unit_witness :
  let i' := @joystickTouch Q Scene.circle 50 50 100 100 Scene.finger
              (Demo.lookingAlongZ Demo.noKeys true) in
  fst (joystickVector i') * fst (joystickVector i')
  + snd (joystickVector i') * snd (joystickVector i') <= 1
  /\ isMoving Rev2 (joystickRelease i') = false.
Proof.
  cbv zeta.
  destruct (@joystick_within_unit Q Scene.circle 50 50 100 100 Scene.finger
              (Demo.lookingAlongZ Demo.noKeys true) circle_unit
              (root_positive Scene.circle eq_refl))
    as (_ & Disc & _ & _ & _ & _ & _ & Still).
  split; [exact Disc|]. rewrite Still. reflexivity.
Defined.

Lemma key_release_clears_press_witness :
  toLowerCase "w"%string = toLowerCase "W"%string
  /\ keyup "w"%string (keydown "W"%string Demo.noKeys) = Demo.noKeys.
Proof.
  split; [reflexivity|].
  rewrite (proj1 (key_release_clears_press "W"%string "w"%string Demo.noKeys eq_refl)).
  reflexivity.
Defined.

Lemma root_motion_locked_witness :
  forceInPlace walk [Scene.hips; Scene.spine] !! 1%nat = Some Scene.spine
  /\ exists t', forceInPlace walk [Scene.hips; Scene.spine] !! 0%nat = Some t'
                /\ values t' !! 3%nat = Some 1.
Proof.
  destruct (root_motion_locked walk [Scene.hips; Scene.spine])
    as (_ & _ & Other & Root).
  split; [exact (Other 1%nat Scene.spine eq_refl eq_refl)|].
  destruct (Root ltac:(discriminate) 0%nat Scene.hips eq_refl eq_refl)
    as (t' & E & _ & _ & X & _).
  exists t'. split; [exact E|]. apply (X 1%nat). simpl. lia.
Defined.

Lemma jump_height_bounded_witness :
  Exists (fun dt => ~ dt == 0) [1 # 60; 1 # 30; 0; 1 # 144]
  /\ rise [1 # 60; 1 # 30; 0; 1 # 144] (jumpForce Rev2) < jumpForce Rev2 * jumpForce Rev2 / 40.
Proof.
  assert (E : Exists (fun dt => ~ dt == 0) [1 # 60; 1 # 30; 0; 1 # 144])
    by (constructor; discriminate).
  split; [exact E|].
  exact (proj1 (proj2 (proj2 (jump_height_bounded Rev2 [1 # 60; 1 # 30; 0; 1 # 144]))) E).
Defined.

Lemma sun_and_moon_alternate_witness :
  exists sphere m,
    stage_sunSphere (applyPreset Scene.spherical night Scene.stage) = Some sphere
    /\ stage_moon (applyPreset Scene.spherical night Scene.stage) = Some m
    /\ sunSphere_visible sphere = false /\ moon_visible m = true.
Proof.
  destruct (sun_and_moon_alternate Scene.spherical night Scene.stage)
    as (Sun & Moon & _).
  do 2 eexists. split; [reflexivity|]. split; [reflexivity|].
  split; [exact (Sun _ eq_refl)|exact (Moon _ eq_refl)].
Defined.


Lemma stars_on_upper_hemisphere_witness :
  List.length (star_sizes (fst (createStars Scene.arc 0))) = starCount
  /\ exists y size,
       star_positions (fst (createStars Scene.arc 0)) !! 1%nat = Some y
       /\ star_sizes (fst (createStars Scene.arc 0)) !! 0%nat = Some size
       /\ 0 <= y /\ 0.5 <= size /\ size <= 2.5.
Proof.
  destruct (stars_on_upper_hemisphere Scene.arc 0 draw_uniform) as (_ & L & Each).
  split; [exact L|].
  destruct (Each 0%nat ltac:(unfold starCount; lia))
    as (x & y & z & size & _ & Y & _ & S & Y0 & S0 & S1 & _).
  exists (fround y), size. repeat split; assumption.
Defined.
